(** * The in-memory core of LevelDB: byte ranges, varint codec, arena, skip list

    A shallow embedding of [Slice] ([include/leveldb/slice.h]), of the varint
    codec ([util/coding.cc]), of [Arena] ([util/arena.h] and [util/arena.cc],
    the two unnamed source files) and of [SkipList] ([db/skiplist.h], which
    this repository keeps in the second half of [include/leveldb/slice.h]),
    followed by the properties proved about them.

    Conventions of the embedding.
    - Addresses ([char*]) and machine integers are [Z]; where an unsigned
      operation can wrap, the wrap-around is written out ([u8], [u32], [u64]).
    - Raw memory is a total map from addresses to bytes; a function that
      writes through a pointer takes the memory (or the pointed-to value) and
      returns the new one.
    - A pointer that the code tests against [nullptr] is an [option], with
      [None] for [nullptr]. *)

From Stdlib Require Import ZArith Lia Strings.Byte Bool.
From Equations Require Import Equations.
From stdpp Require Import base option list sorting.

Local Open Scope Z_scope.

(* ================================================================= *)
(** * Part I: the model *)
(* ================================================================= *)

(** ** Raw memory *)

Definition Mem := Z -> byte.

(** [*(reinterpret_cast<const uint8_t*>(p))] *)
Definition load8 (m : Mem) (p : Z) : Z := Z.of_N (Byte.to_N (m p)).

(** Conversion of an integer to [uint8_t]: the low eight bits. *)
Definition u8 (z : Z) : byte :=
  match Byte.of_N (Z.to_N (z mod 256)) with
  | Some b => b
  | None => Byte.x00
  end.

(** [*p = z] through a [uint8_t*]. *)
Definition store8 (m : Mem) (p z : Z) : Mem :=
  fun q => if q =? p then u8 z else m q.

(** The [n] bytes at address [p]. *)
Definition bytes_at (m : Mem) (p : Z) (n : nat) : list Z :=
  map (fun i => load8 m (p + Z.of_nat i)) (seq 0 n).

(** Wrap-around of [uint32_t] and [uint64_t] arithmetic. *)
Definition u32 (z : Z) : Z := z mod 2 ^ 32.
Definition u64 (z : Z) : Z := z mod 2 ^ 64.

(** ** include/leveldb/slice.h: [Slice] *)

Module Slice.

(** [const char* data_; size_t size_;] *)
Record t := mk { data_ : Z; size_ : Z }.

Definition data (s : t) : Z := data_ s.
Definition size (s : t) : Z := size_ s.
Definition empty (s : t) : bool := size_ s =? 0.

(** [remove_prefix(n)]; [assert(n <= size())] is its precondition. *)
Definition remove_prefix (s : t) (n : Z) : t :=
  {| data_ := data_ s + n; size_ := size_ s - n |}.

(** [memcmp] of the C library, on [n] bytes: zero when the two blocks agree,
    otherwise the sign of the difference between the first two bytes that
    differ, both read as [unsigned char].  The C standard fixes only the sign;
    the model returns the difference itself. *)
Fixpoint memcmp_loop (m : Mem) (s1 s2 : Z) (n : nat) : Z :=
  match n with
  | O => 0
  | S n' =>
    let a := load8 m s1 in
    let b := load8 m s2 in
    if a =? b then memcmp_loop m (s1 + 1) (s2 + 1) n' else a - b
  end.

Definition memcmp (m : Mem) (s1 s2 n : Z) : Z := memcmp_loop m s1 s2 (Z.to_nat n).

(** [inline bool operator==(const Slice& x, const Slice& y)] *)
Definition operator_eq (m : Mem) (x y : t) : bool :=
  (size x =? size y) && (memcmp m (data x) (data y) (size x) =? 0).

(** [int Slice::compare(const Slice& b) const] *)
Definition compare (m : Mem) (a b : t) : Z :=
  let min_len := if size_ a <? size_ b then size_ a else size_ b in
  let r := memcmp m (data_ a) (data_ b) min_len in
  if r =? 0 then
    if size_ a <? size_ b then -1
    else if size_ a >? size_ b then 1
    else r
  else r.

(** The bytes a slice refers to, [data_[0] .. data_[size_-1]]. *)
Definition bytes (m : Mem) (s : t) : list Z :=
  bytes_at m (data_ s) (Z.to_nat (size_ s)).

(** [std::string ToString() const]: a [std::string] is the list of the
    bytes it holds. *)
Definition ToString (m : Mem) (s : t) : list Z := bytes m s.

(** [char operator[](size_t n) const], with its [assert(n < size())];
    the [char] is read as an [unsigned char]. *)
Definition operator_index (m : Mem) (s : t) (n : Z) : option Z :=
  if n <? size s then Some (load8 m (data_ s + n)) else None.

(** [bool starts_with(const Slice& x) const] *)
Definition starts_with (m : Mem) (s x : t) : bool :=
  (size_ s >=? size_ x) && (memcmp m (data_ s) (data_ x) (size_ x) =? 0).

(** [inline bool operator!=(const Slice& x, const Slice& y)] *)
Definition operator_ne (m : Mem) (x y : t) : bool := negb (operator_eq m x y).

Section WithLiteral.

(** The address of the string literal in [Slice()] and in [clear()]. *)
Variable empty_literal : Z.

(** [Slice() : data_(""), size_(0)] *)
Definition Slice : t := {| data_ := empty_literal; size_ := 0 |}.

(** [void clear()] *)
Definition clear (s : t) : t := {| data_ := empty_literal; size_ := 0 |}.

End WithLiteral.

End Slice.

(** Lexicographic order on byte strings: the first differing byte decides,
    and a proper prefix comes first. *)
Inductive lex_lt : list Z -> list Z -> Prop :=
| lex_lt_nil y ys : lex_lt [] (y :: ys)
| lex_lt_head x xs y ys : x < y -> lex_lt (x :: xs) (y :: ys)
| lex_lt_tail x xs ys : lex_lt xs ys -> lex_lt (x :: xs) (x :: ys).

(** ** util/coding.cc *)

Module Coding.

(** [char* EncodeVarint32(char* dst, uint32_t v)]: the memory after the
    writes and the returned pointer.  Each [*(ptr++) = e] stores the low
    eight bits of [e] and advances [ptr]. *)
Definition EncodeVarint32 (m : Mem) (dst v : Z) : Mem * Z :=
  let ptr := dst in
  let B := 128 in
  if v <? Z.shiftl 1 7 then
    let m := store8 m ptr v in let ptr := ptr + 1 in
    (m, ptr)
  else if v <? Z.shiftl 1 14 then
    let m := store8 m ptr (Z.lor v B) in let ptr := ptr + 1 in
    let m := store8 m ptr (Z.shiftr v 7) in let ptr := ptr + 1 in
    (m, ptr)
  else if v <? Z.shiftl 1 21 then
    let m := store8 m ptr (Z.lor v B) in let ptr := ptr + 1 in
    let m := store8 m ptr (Z.lor (Z.shiftr v 7) B) in let ptr := ptr + 1 in
    let m := store8 m ptr (Z.shiftr v 14) in let ptr := ptr + 1 in
    (m, ptr)
  else if v <? Z.shiftl 1 28 then
    let m := store8 m ptr (Z.lor v B) in let ptr := ptr + 1 in
    let m := store8 m ptr (Z.lor (Z.shiftr v 7) B) in let ptr := ptr + 1 in
    let m := store8 m ptr (Z.lor (Z.shiftr v 14) B) in let ptr := ptr + 1 in
    let m := store8 m ptr (Z.shiftr v 21) in let ptr := ptr + 1 in
    (m, ptr)
  else
    let m := store8 m ptr (Z.lor v B) in let ptr := ptr + 1 in
    let m := store8 m ptr (Z.lor (Z.shiftr v 7) B) in let ptr := ptr + 1 in
    let m := store8 m ptr (Z.lor (Z.shiftr v 14) B) in let ptr := ptr + 1 in
    let m := store8 m ptr (Z.lor (Z.shiftr v 21) B) in let ptr := ptr + 1 in
    let m := store8 m ptr (Z.shiftr v 28) in let ptr := ptr + 1 in
    (m, ptr).

(** The loop of [EncodeVarint64]:
    [while (v >= B) { *(ptr++) = v | B; v >>= 7; } *(ptr++) = v;] *)
Equations EncodeVarint64_loop (m : Mem) (ptr v : Z) : Mem * Z
  by wf (Z.to_nat (Z.log2 v)) lt :=
EncodeVarint64_loop m ptr v :=
  match Z_ge_dec v 128 with
  | left _ =>
    let m := store8 m ptr (Z.lor v 128) in let ptr := ptr + 1 in
    EncodeVarint64_loop m ptr (Z.shiftr v 7)
  | right _ =>
    let m := store8 m ptr v in let ptr := ptr + 1 in
    (m, ptr)
  end.
Next Obligation.
  intros m ptr v _ Hge; cbv zeta. rewrite Z.log2_shiftr by lia.
  assert (Z.log2 128 <= Z.log2 v) by (apply Z.log2_le_mono; lia).
  change (Z.log2 128) with 7 in *. lia.
Qed.

(** [char* EncodeVarint64(char* dst, uint64_t v)] *)
Definition EncodeVarint64 (m : Mem) (dst v : Z) : Mem * Z :=
  EncodeVarint64_loop m dst v.

(** The loop of [GetVarint32PtrFallback]:
    [for (uint32_t shift = 0; shift <= 28 && p < limit; shift += 7)].
    [value] is the content of [*value]; the result is the returned pointer
    ([None] for [nullptr]) and the content of [*value] afterwards. *)
Equations GetVarint32PtrFallback_loop (m : Mem) (shift p limit result value : Z)
  : option Z * Z by wf (Z.to_nat (35 - shift)) lt :=
GetVarint32PtrFallback_loop m shift p limit result value :=
  match Z_le_dec shift 28 with
  | left _ =>
    if p <? limit then
      let byte := load8 m p in
      let p := p + 1 in
      if negb (Z.land byte 128 =? 0) then
        let result := Z.lor result (u32 (Z.shiftl (Z.land byte 127) shift)) in
        GetVarint32PtrFallback_loop m (shift + 7) p limit result value
      else
        let result := Z.lor result (u32 (Z.shiftl byte shift)) in
        let value := result in
        (Some p, value)
    else (None, value)
  | right _ => (None, value)
  end.
Next Obligation. intros. lia. Qed.

(** [const char* GetVarint32PtrFallback(const char* p, const char* limit,
    uint32_t* value)] *)
Definition GetVarint32PtrFallback (m : Mem) (p limit value : Z) : option Z * Z :=
  let result := 0 in
  GetVarint32PtrFallback_loop m 0 p limit result value.

(** Modelled from the spec: [GetVarint32Ptr], the inline entry point declared
    in [util/coding.h], is not among the sources.  The spec describes
    [decode_varint32(p, limit, out)] as reading up to 5 bytes, succeeding iff
    a terminator byte appears before [limit] and within the byte budget,
    writing the value to [out] on success and returning "no position" without
    touching [out] on failure; that is the behaviour of the fallback decoder,
    to which the model delegates. *)
Definition GetVarint32Ptr (m : Mem) (p limit value : Z) : option Z * Z :=
  GetVarint32PtrFallback m p limit value.

(** [bool GetVarint32(Slice* input, uint32_t* value)]: the returned flag,
    [*input] and [*value] after the call. *)
Definition GetVarint32 (m : Mem) (input : Slice.t) (value : Z)
  : bool * Slice.t * Z :=
  let p := Slice.data input in
  let limit := p + Slice.size input in
  let '(q, value) := GetVarint32Ptr m p limit value in
  match q with
  | None => (false, input, value)
  | Some q => (true, Slice.mk q (limit - q), value)
  end.

(** The loop of [GetVarint64Ptr]:
    [for (uint32_t shift = 0; shift <= 63 && p < limit; shift += 7)]. *)
Equations GetVarint64Ptr_loop (m : Mem) (shift p limit result value : Z)
  : option Z * Z by wf (Z.to_nat (70 - shift)) lt :=
GetVarint64Ptr_loop m shift p limit result value :=
  match Z_le_dec shift 63 with
  | left _ =>
    if p <? limit then
      let byte := load8 m p in
      let p := p + 1 in
      if negb (Z.land byte 128 =? 0) then
        let result := Z.lor result (u64 (Z.shiftl (Z.land byte 127) shift)) in
        GetVarint64Ptr_loop m (shift + 7) p limit result value
      else
        let result := Z.lor result (u64 (Z.shiftl byte shift)) in
        let value := result in
        (Some p, value)
    else (None, value)
  | right _ => (None, value)
  end.
Next Obligation. intros. lia. Qed.

(** [const char* GetVarint64Ptr(const char* p, const char* limit,
    uint64_t* value)] *)
Definition GetVarint64Ptr (m : Mem) (p limit value : Z) : option Z * Z :=
  let result := 0 in
  GetVarint64Ptr_loop m 0 p limit result value.

(** [bool GetVarint64(Slice* input, uint64_t* value)] *)
Definition GetVarint64 (m : Mem) (input : Slice.t) (value : Z)
  : bool * Slice.t * Z :=
  let p := Slice.data input in
  let limit := p + Slice.size input in
  let '(q, value) := GetVarint64Ptr m p limit value in
  match q with
  | None => (false, input, value)
  | Some q => (true, Slice.mk q (limit - q), value)
  end.

(** [bool GetLengthPrefixedSlice(Slice* input, Slice* result)]: the returned
    flag, [*input] and [*result] after the call.  [len] is the indeterminate
    initial content of the local [uint32_t len]. *)
Definition GetLengthPrefixedSlice (m : Mem) (input result : Slice.t) (len : Z)
  : bool * Slice.t * Slice.t :=
  let '(ok, input, len) := GetVarint32 m input len in
  if ok && (Slice.size input >=? len) then
    let result := Slice.mk (Slice.data input) len in
    let input := Slice.remove_prefix input len in
    (true, input, result)
  else
    (false, input, result).

(** [dst->append(p, n)] on a [std::string]: the [n] bytes at [p] are added
    at the end.  The string owns its bytes; they are not part of the
    memory [m]. *)
Definition string_append (dst : list Z) (m : Mem) (p n : Z) : list Z :=
  dst ++ bytes_at m p (Z.to_nat n).

(** [void PutVarint32(std::string* dst, uint32_t v)]: the string
    afterwards.  [buf] is the address of the local [char buf[5]]. *)
Definition PutVarint32 (m : Mem) (buf : Z) (dst : list Z) (v : Z) : list Z :=
  let '(m, ptr) := EncodeVarint32 m buf v in
  string_append dst m buf (ptr - buf).

(** [void PutVarint64(std::string* dst, uint64_t v)], with its local
    [char buf[10]] at [buf]. *)
Definition PutVarint64 (m : Mem) (buf : Z) (dst : list Z) (v : Z) : list Z :=
  let '(m, ptr) := EncodeVarint64 m buf v in
  string_append dst m buf (ptr - buf).

(** [void PutLengthPrefixedSlice(std::string* dst, const Slice& value)].
    The argument of [PutVarint32] is a [uint32_t]: [value.size()] is
    converted.  The bytes of [value] are those of the caller's memory. *)
Definition PutLengthPrefixedSlice (m : Mem) (buf : Z) (dst : list Z)
    (value : Slice.t) : list Z :=
  let dst := PutVarint32 m buf dst (u32 (Slice.size value)) in
  string_append dst m (Slice.data value) (Slice.size value).

(** The loop of [VarintLength]: [while (v >= 128) { v >>= 7; len++; }] *)
Equations VarintLength_loop (v len : Z) : Z
  by wf (Z.to_nat (Z.log2 v)) lt :=
VarintLength_loop v len :=
  match Z_ge_dec v 128 with
  | left _ => VarintLength_loop (Z.shiftr v 7) (len + 1)
  | right _ => len
  end.
Next Obligation.
  intros v len _ Hge. rewrite Z.log2_shiftr by lia.
  assert (Z.log2 128 <= Z.log2 v) by (apply Z.log2_le_mono; lia).
  change (Z.log2 128) with 7 in *. lia.
Qed.

(** [int VarintLength(uint64_t v)] *)
Definition VarintLength (v : Z) : Z :=
  let len := 1 in
  VarintLength_loop v len.

(** [const char* GetLengthPrefixedSlice(const char* p, const char* limit,
    Slice* result)], the overload on pointers: the returned pointer and
    [*result] afterwards. *)
Definition GetLengthPrefixedSlice_ptr (m : Mem) (p limit : Z)
    (result : Slice.t) (len : Z) : option Z * Slice.t :=
  let '(p, len) := GetVarint32Ptr m p limit len in
  match p with
  | None => (None, result)
  | Some p =>
    if p + len >? limit then (None, result)
    else
      let result := Slice.mk p len in
      (Some (p + len), result)
  end.

End Coding.

(** The varint encoding of [v] as a byte string: the groups of seven bits
    of [v], least significant first, each but the last with bit 7 set. *)
Equations varint (v : Z) : list Z by wf (Z.to_nat (Z.log2 v)) lt :=
varint v :=
  match Z_ge_dec v 128 with
  | left _ => (v mod 128 + 128) :: varint (v / 128)
  | right _ => [v]
  end.
Next Obligation.
  intros v _ Hge.
  replace (v / 128) with (Z.shiftr v 7)
    by (rewrite Z.shiftr_div_pow2 by lia; reflexivity).
  rewrite Z.log2_shiftr by lia.
  assert (Z.log2 128 <= Z.log2 v) by (apply Z.log2_le_mono; lia).
  change (Z.log2 128) with 7 in *. lia.
Qed.

(** ** util/arena.h, util/arena.cc: [Arena] *)

Module Arena.

(** [static const int kBlockSize = 4096;] *)
Definition kBlockSize : Z := 4096.

(** The free store is the list of the live arrays, each with its base
    address and its size in bytes, oldest first. *)
Definition Heap := list (Z * Z).

Section WithHost.

(** [new char[n]] is the host's: [new_char heap n] is the base address it
    picks for an array of [n] bytes when [heap] is live.  [sizeof_ptr] is
    the size of a [char] pointer.  [size_t] is taken to be 64 bits wide. *)
Variable new_char : Heap -> Z -> Z.
Variable sizeof_ptr : Z.

(** [char* alloc_ptr_; size_t alloc_bytes_remaining_;
    std::vector<char*> blocks_; std::atomic<size_t> memory_usage_;]
    The null [alloc_ptr_] of a new arena is address 0. *)
Record t := mk {
  alloc_ptr_ : Z;
  alloc_bytes_remaining_ : Z;
  blocks_ : list Z;
  memory_usage_ : Z
}.

(** [Arena::Arena()] *)
Definition Arena : t :=
  {| alloc_ptr_ := 0; alloc_bytes_remaining_ := 0; blocks_ := [];
     memory_usage_ := 0 |}.

(** [char* Arena::AllocateNewBlock(size_t block_bytes)] *)
Definition AllocateNewBlock (a : t) (heap : Heap) (block_bytes : Z)
  : Z * t * Heap :=
  let result := new_char heap block_bytes in
  let heap := heap ++ [(result, block_bytes)] in
  let a := {| alloc_ptr_ := alloc_ptr_ a;
              alloc_bytes_remaining_ := alloc_bytes_remaining_ a;
              blocks_ := blocks_ a ++ [result];
              memory_usage_ :=
                u64 (memory_usage_ a + u64 (block_bytes + sizeof_ptr)) |} in
  (result, a, heap).

(** [char* Arena::AllocateFallback(size_t bytes)] *)
Definition AllocateFallback (a : t) (heap : Heap) (bytes : Z) : Z * t * Heap :=
  if bytes >? kBlockSize / 4 then
    let '(result, a, heap) := AllocateNewBlock a heap bytes in
    (result, a, heap)
  else
    let '(block, a, heap) := AllocateNewBlock a heap kBlockSize in
    let a := {| alloc_ptr_ := block;
                alloc_bytes_remaining_ := kBlockSize;
                blocks_ := blocks_ a; memory_usage_ := memory_usage_ a |} in
    let result := alloc_ptr_ a in
    let a := {| alloc_ptr_ := alloc_ptr_ a + bytes;
                alloc_bytes_remaining_ := alloc_bytes_remaining_ a - bytes;
                blocks_ := blocks_ a; memory_usage_ := memory_usage_ a |} in
    (result, a, heap).

(** [inline char* Arena::Allocate(size_t bytes)]; [assert(bytes > 0)] is its
    precondition. *)
Definition Allocate (a : t) (heap : Heap) (bytes : Z) : Z * t * Heap :=
  if bytes <=? alloc_bytes_remaining_ a then
    let result := alloc_ptr_ a in
    let a := {| alloc_ptr_ := alloc_ptr_ a + bytes;
                alloc_bytes_remaining_ := alloc_bytes_remaining_ a - bytes;
                blocks_ := blocks_ a; memory_usage_ := memory_usage_ a |} in
    (result, a, heap)
  else
    AllocateFallback a heap bytes.

(** [char* Arena::AllocateAligned(size_t bytes)], with its final
    [assert((reinterpret_cast<uintptr_t>(result) & (align - 1)) == 0)]:
    [None] when the assertion fails.  The size of a [void] pointer is
    [sizeof_ptr]: the two pointer types have the same representation. *)
Definition AllocateAligned (a : t) (heap : Heap) (bytes : Z)
  : option (Z * t * Heap) :=
  let align := if sizeof_ptr >? 8 then sizeof_ptr else 8 in
  let current_mod := Z.land (alloc_ptr_ a) (align - 1) in
  let slop := if current_mod =? 0 then 0 else align - current_mod in
  let needed := u64 (bytes + slop) in
  let '(result, a, heap) :=
    if needed <=? alloc_bytes_remaining_ a then
      let result := alloc_ptr_ a + slop in
      let a := {| alloc_ptr_ := alloc_ptr_ a + needed;
                  alloc_bytes_remaining_ := alloc_bytes_remaining_ a - needed;
                  blocks_ := blocks_ a; memory_usage_ := memory_usage_ a |} in
      (result, a, heap)
    else
      AllocateFallback a heap bytes in
  if Z.land result (align - 1) =? 0 then Some (result, a, heap) else None.

(** [size_t MemoryUsage() const] *)
Definition MemoryUsage (a : t) : Z := memory_usage_ a.

End WithHost.

(** [delete[] p]: the array at [p] leaves the free store; [None] when no
    live array starts at [p]. *)
Fixpoint delete_array (heap : Heap) (p : Z) : option Heap :=
  match heap with
  | [] => None
  | b :: heap' =>
    if fst b =? p then Some heap' else cons b <$> delete_array heap' p
  end.

(** [Arena::~Arena()]: [for (i = 0; i < blocks_.size(); i++) delete[] blocks_[i];]
    The free store afterwards. *)
Definition destroy (a : t) (heap : Heap) : option Heap :=
  foldl (fun heap p => heap ← heap; delete_array heap p) (Some heap) (blocks_ a).

End Arena.

(** ** db/skiplist.h: [SkipList] *)

Module SkipList.

(** [enum { kMaxHeight = 12 };] and, in [RandomHeight],
    [static const unsigned int kBranching = 4;] *)
Definition kMaxHeight : nat := 12.
Definition kBranching : Z := 4.

Section WithKey.

(** The template parameters, and the generator of [util/random.h], which is
    not among the sources: a state and [uint32_t Random::Next()], which
    returns a number and the next state. *)
Context {Key Random : Type}.
Variable compare_ : Key -> Key -> Z.
Variable Random_Next : Random -> Z * Random.

(** A [Node*]: [None] is [nullptr], [Some i] the [i]-th node allocated in
    the arena. *)
Definition NodePtr := option nat.

(** [struct Node { Key const key; std::atomic<Node*> next_[height]; }].
    Heights and levels are [int]s that stay within [0 .. kMaxHeight]; they
    are natural numbers here.  The memory orders of the loads and stores are
    not part of the model. *)
Record Node := mkNode { key : Key; next_ : list NodePtr }.

(** The nodes allocated in [*arena_], in allocation order, then [head_],
    [max_height_] and [rnd_].  [compare_] is the section's.  [max_height_]
    starts at 1 and only grows, so [GetMaxHeight() - 1] is a level. *)
Record t := mk {
  nodes : list Node;
  head_ : nat;
  max_height_ : nat;
  rnd_ : Random
}.

(** Operations are partial: [None] stands for undefined behaviour (a null or
    dangling pointer followed, a level outside the node's array), for a
    failed [assert], and for a loop that ran out of fuel. *)

(** [Node* Next(int n)] and [Node* NoBarrier_Next(int n)] *)
Definition Next (ns : list Node) (x : NodePtr) (n : nat) : option NodePtr :=
  i ← x; nd ← ns !! i; next_ nd !! n.
Definition NoBarrier_Next := Next.

(** [void SetNext(int n, Node* x)] and [void NoBarrier_SetNext(int n, Node* x)] *)
Definition SetNext (ns : list Node) (x : NodePtr) (n : nat) (v : NodePtr)
  : option (list Node) :=
  i ← x; nd ← ns !! i;
  if decide (n < length (next_ nd))%nat
  then Some (<[i := mkNode (key nd) (<[n := v]> (next_ nd))]> ns)
  else None.
Definition NoBarrier_SetNext := SetNext.

(** [Node* NewNode(const Key& key, int height)]: the new node's address and
    the arena after the allocation.  The node's links are not initialised by
    the constructor; they read as [nullptr] here. *)
Definition NewNode (ns : list Node) (k : Key) (height : nat) : NodePtr * list Node :=
  (Some (length ns), ns ++ [mkNode k (replicate height None)]).

Definition GetMaxHeight (sl : t) : nat := max_height_ sl.

(** [bool Equal(const Key& a, const Key& b) const] *)
Definition Equal (a b : Key) : bool := compare_ a b =? 0.

(** The loop of [RandomHeight]:
    [while (height < kMaxHeight && ((rnd_.Next() % kBranching) == 0)) height++;] *)
Equations RandomHeight_loop (height : nat) (rnd : Random) : nat * Random
  by wf (kMaxHeight - height)%nat lt :=
RandomHeight_loop height rnd :=
  match lt_dec height kMaxHeight with
  | left _ =>
    let r := Random_Next rnd in
    if fst r mod kBranching =? 0
    then RandomHeight_loop (S height) (snd r)
    else (height, snd r)
  | right _ => (height, rnd)
  end.
Next Obligation. intros. lia. Qed.

(** [int RandomHeight()]: the height and the generator afterwards. *)
Definition RandomHeight (rnd : Random) : nat * Random :=
  let height := 1%nat in
  RandomHeight_loop height rnd.

(** [bool KeyIsAfterNode(const Key& key, Node* n) const] *)
Definition KeyIsAfterNode (ns : list Node) (k : Key) (n : NodePtr) : option bool :=
  match n with
  | None => Some false
  | Some i => nd ← ns !! i; Some (compare_ (key nd) k <? 0)
  end.

(** The loop of [FindGreaterOrEqual].  [prev] is [None] for a null [prev]
    argument and the array otherwise. *)
Fixpoint FindGreaterOrEqual_loop (fuel : nat) (sl : t) (k : Key)
    (x : NodePtr) (level : nat) (prev : option (list NodePtr))
  : option (NodePtr * option (list NodePtr)) :=
  match fuel with
  | O => None
  | S fuel =>
    next ← Next (nodes sl) x level;
    after ← KeyIsAfterNode (nodes sl) k next;
    if after : bool then
      FindGreaterOrEqual_loop fuel sl k next level prev
    else
      let prev := (fun p => <[level := x]> p) <$> prev in
      if (level =? 0)%nat then Some (next, prev)
      else FindGreaterOrEqual_loop fuel sl k x (level - 1) prev
  end.

(** [Node* FindGreaterOrEqual(const Key& key, Node** prev) const]: the
    returned node and the array [prev] afterwards. *)
Definition FindGreaterOrEqual (fuel : nat) (sl : t) (k : Key)
    (prev : option (list NodePtr))
  : option (NodePtr * option (list NodePtr)) :=
  let x := Some (head_ sl) in
  let level := (GetMaxHeight sl - 1)%nat in
  FindGreaterOrEqual_loop fuel sl k x level prev.

(** The loop of [FindLessThan], with its
    [assert(x == head_ || compare_(x->key, key) < 0)]. *)
Fixpoint FindLessThan_loop (fuel : nat) (sl : t) (k : Key)
    (x : NodePtr) (level : nat) : option NodePtr :=
  match fuel with
  | O => None
  | S fuel =>
    holds ← (if decide (x = Some (head_ sl)) then Some true
             else i ← x; nd ← nodes sl !! i; Some (compare_ (key nd) k <? 0));
    if negb holds then None else
    next ← Next (nodes sl) x level;
    blocked ← match next with
              | None => Some true
              | Some i => nd ← nodes sl !! i; Some (compare_ (key nd) k >=? 0)
              end;
    if blocked : bool then
      if (level =? 0)%nat then Some x
      else FindLessThan_loop fuel sl k x (level - 1)
    else FindLessThan_loop fuel sl k next level
  end.

(** [Node* FindLessThan(const Key& key) const] *)
Definition FindLessThan (fuel : nat) (sl : t) (k : Key) : option NodePtr :=
  let x := Some (head_ sl) in
  let level := (GetMaxHeight sl - 1)%nat in
  FindLessThan_loop fuel sl k x level.

(** The loop of [FindLast]. *)
Fixpoint FindLast_loop (fuel : nat) (sl : t) (x : NodePtr) (level : nat)
  : option NodePtr :=
  match fuel with
  | O => None
  | S fuel =>
    next ← Next (nodes sl) x level;
    match next with
    | None =>
      if (level =? 0)%nat then Some x
      else FindLast_loop fuel sl x (level - 1)
    | Some _ => FindLast_loop fuel sl next level
    end
  end.

(** [Node* FindLast() const] *)
Definition FindLast (fuel : nat) (sl : t) : option NodePtr :=
  let x := Some (head_ sl) in
  let level := (GetMaxHeight sl - 1)%nat in
  FindLast_loop fuel sl x level.

(** [SkipList(Comparator cmp, Arena* arena)]: [key0] is the head's key
    ([0], "any key will do") and [rnd0] the generator [Random(0xdeadbeef)].
    The head is the first node of the arena; the constructor's loop stores
    [nullptr] in each of its [kMaxHeight] links. *)
Definition SkipList (key0 : Key) (rnd0 : Random) : t :=
  {| nodes := [mkNode key0 (replicate kMaxHeight None)];
     head_ := 0;
     max_height_ := 1;
     rnd_ := rnd0 |}.

(** In [Insert]: [for (int i = GetMaxHeight(); i < height; i++) prev[i] = head_;] *)
Definition Insert_raise (prev : list NodePtr) (from height : nat) (head : nat)
  : list NodePtr :=
  fold_left (fun prev i => <[i := Some head]> prev) (seq from (height - from)) prev.

(** In [Insert]: the loop [for (int i = 0; i < height; i++)] that splices
    the new node [x] in, run from level [i] for [n] more levels. *)
Fixpoint Insert_link (ns : list Node) (x : NodePtr) (prev : list NodePtr)
    (i n : nat) : option (list Node) :=
  match n with
  | O => Some ns
  | S n =>
    p ← prev !! i;
    succ ← NoBarrier_Next ns p i;
    ns ← NoBarrier_SetNext ns x i succ;
    ns ← SetNext ns p i x;
    Insert_link ns x prev (S i) n
  end.

(** [void Insert(const Key& key)], with its
    [assert(x == nullptr || !Equal(key, x->key))].  The entries of the local
    array [prev], which the declaration leaves uninitialised, read as
    [nullptr] until they are written. *)
Definition Insert (fuel : nat) (sl : t) (k : Key) : option t :=
  let prev := replicate kMaxHeight None in
  '(x, prev) ← FindGreaterOrEqual fuel sl k (Some prev);
  prev ← prev;
  holds ← match x with
          | None => Some true
          | Some i => nd ← nodes sl !! i; Some (negb (Equal k (key nd)))
          end;
  if negb holds then None else
  let '(height, rnd) := RandomHeight (rnd_ sl) in
  let prev :=
    if (GetMaxHeight sl <? height)%nat
    then Insert_raise prev (GetMaxHeight sl) height (head_ sl)
    else prev in
  let max_height :=
    if (GetMaxHeight sl <? height)%nat then height else GetMaxHeight sl in
  let '(x, ns) := NewNode (nodes sl) k height in
  ns ← Insert_link ns x prev 0 height;
  Some {| nodes := ns; head_ := head_ sl; max_height_ := max_height; rnd_ := rnd |}.

(** [bool Contains(const Key& key) const] *)
Definition Contains (fuel : nat) (sl : t) (k : Key) : option bool :=
  '(x, _) ← FindGreaterOrEqual fuel sl k None;
  match x with
  | None => Some false
  | Some i => nd ← nodes sl !! i; Some (Equal k (key nd))
  end.

(** *** [SkipList::Iterator] *)

(** [const SkipList* list_; Node* node_;]: the list is passed to each
    operation. *)
Record Iterator := mkIterator { node_ : NodePtr }.

(** [explicit Iterator(const SkipList* list)] *)
Definition Iterator_new : Iterator := {| node_ := None |}.

(** [bool Valid() const] *)
Definition Valid (it : Iterator) : bool :=
  match node_ it with None => false | Some _ => true end.

(** [const Key& key() const], with its [assert(Valid())]. *)
Definition Iterator_key (sl : t) (it : Iterator) : option Key :=
  if Valid it then i ← node_ it; nd ← nodes sl !! i; Some (key nd) else None.

(** [void Next()], with its [assert(Valid())]. *)
Definition Iterator_Next (sl : t) (it : Iterator) : option Iterator :=
  if Valid it then
    n ← Next (nodes sl) (node_ it) 0;
    Some {| node_ := n |}
  else None.

(** [void Prev()], with its [assert(Valid())]. *)
Definition Iterator_Prev (fuel : nat) (sl : t) (it : Iterator) : option Iterator :=
  if Valid it then
    i ← node_ it; nd ← nodes sl !! i;
    n ← FindLessThan fuel sl (key nd);
    Some {| node_ := if decide (n = Some (head_ sl)) then None else n |}
  else None.

(** [void Seek(const Key& target)] *)
Definition Iterator_Seek (fuel : nat) (sl : t) (it : Iterator) (target : Key)
  : option Iterator :=
  '(n, _) ← FindGreaterOrEqual fuel sl target None;
  Some {| node_ := n |}.

(** [void SeekToFirst()] *)
Definition Iterator_SeekToFirst (sl : t) (it : Iterator) : option Iterator :=
  n ← Next (nodes sl) (Some (head_ sl)) 0;
  Some {| node_ := n |}.

(** [void SeekToLast()] *)
Definition Iterator_SeekToLast (fuel : nat) (sl : t) (it : Iterator)
  : option Iterator :=
  n ← FindLast fuel sl;
  Some {| node_ := if decide (n = Some (head_ sl)) then None else n |}.

End WithKey.

Arguments Node : clear implicits.
Arguments t : clear implicits.

End SkipList.

(** ** Vocabulary for the skip list's properties *)

Module SkipListSpec.

Section Spec.

Context {Key Random : Type}.
Variable compare_ : Key -> Key -> Z.

(** What makes a three-way comparator a strict total order up to
    comparator-equality: swapping the arguments flips the sign, "less" is
    transitive, and comparator-equal keys compare alike. *)
Record Comparator_ok : Prop := {
  cmp_flip : forall a b, Z.sgn (compare_ a b) = - Z.sgn (compare_ b a);
  cmp_trans : forall a b c, compare_ a b < 0 -> compare_ b c < 0 -> compare_ a c < 0;
  cmp_equal : forall a b c, compare_ a b = 0 -> Z.sgn (compare_ a c) = Z.sgn (compare_ b c)
}.

Definition key_lt (a b : Key) : Prop := compare_ a b < 0.

(** The keys of a list are pairwise comparator-distinct. *)
Fixpoint distinct_keys (ks : list Key) : Prop :=
  match ks with
  | [] => True
  | k :: ks => Forall (fun k' => compare_ k k' <> 0) ks /\ distinct_keys ks
  end.

(** [chain ns L x l]: following the level-[L] links from [x] to [nullptr]
    meets the nodes [l], in this order. *)
Inductive chain (ns : list (SkipList.Node Key)) (L : nat)
  : SkipList.NodePtr -> list nat -> Prop :=
| chain_nil : chain ns L None []
| chain_cons i nx l :
    SkipList.Next ns (Some i) L = Some nx ->
    chain ns L nx l ->
    chain ns L (Some i) (i :: l).

(** The same traversal as a program: the nodes after [x] at level [L]. *)
Fixpoint walk (fuel : nat) (ns : list (SkipList.Node Key)) (L : nat)
    (x : SkipList.NodePtr) : option (list nat) :=
  match x with
  | None => Some []
  | Some i =>
    match fuel with
    | O => None
    | S fuel =>
      nx ← SkipList.Next ns x L;
      l ← walk fuel ns L nx;
      Some (i :: l)
    end
  end.

Definition node_key (ns : list (SkipList.Node Key)) (i : nat) : option Key :=
  SkipList.key <$> ns !! i.

(** The keys met on level [L] of [sl], from the head's successor to the
    end. *)
Definition level_keys (fuel : nat) (sl : SkipList.t Key Random) (L : nat)
  : option (list Key) :=
  first ← SkipList.Next (SkipList.nodes sl) (Some (SkipList.head_ sl)) L;
  l ← walk fuel (SkipList.nodes sl) L first;
  mapM (node_key (SkipList.nodes sl)) l.

(** The keys of the nodes [l]. *)
Definition node_keys (ns : list (SkipList.Node Key)) (l : list nat) : list Key :=
  omap (node_key ns) l.

(** Node [i] holds a key that comes before [k]. *)
Definition is_below (ns : list (SkipList.Node Key)) (k : Key) (i : nat) : bool :=
  match node_key ns i with
  | Some a => compare_ a k <? 0
  | None => false
  end.

Definition node_lt (ns : list (SkipList.Node Key)) (i j : nat) : Prop :=
  exists a b, node_key ns i = Some a /\ node_key ns j = Some b /\ compare_ a b < 0.

(** A level splits, for a key [k], into the nodes before [k] and the rest. *)
Fixpoint take_below (ns : list (SkipList.Node Key)) (k : Key) (l : list nat)
  : list nat :=
  match l with
  | [] => []
  | i :: l' => if is_below ns k i then i :: take_below ns k l' else []
  end.

Fixpoint drop_below (ns : list (SkipList.Node Key)) (k : Key) (l : list nat)
  : list nat :=
  match l with
  | [] => []
  | i :: l' => if is_below ns k i then drop_below ns k l' else l
  end.

(** The pointer to the first node of [l], [nullptr] when there is none. *)
Definition first_ptr (l : list nat) : SkipList.NodePtr := head l.

(** The structural invariant of a skip list whose level [L] holds, after
    the head, the nodes [lv L]:
    - [max_height_] is between 1 and [kMaxHeight];
    - per-level order: the level-[L] links from the head run through
      [lv L], whose keys are strictly ascending;
    - the head is on no level's list;
    - subset containment: a node of level [L + 1] is on level [L];
    - height consistency: the levels from [max_height_] up are empty. *)
Record skiplist_inv (sl : SkipList.t Key Random) (lv : nat -> list nat) : Prop := {
  inv_height : (1 <= SkipList.max_height_ sl <= SkipList.kMaxHeight)%nat;
  inv_chain : forall L, (L < SkipList.kMaxHeight)%nat ->
    chain (SkipList.nodes sl) L (Some (SkipList.head_ sl))
          (SkipList.head_ sl :: lv L);
  inv_sorted : forall L, (L < SkipList.kMaxHeight)%nat ->
    StronglySorted (node_lt (SkipList.nodes sl)) (lv L);
  inv_head : forall L, (L < SkipList.kMaxHeight)%nat ->
    SkipList.head_ sl ∉ lv L;
  inv_subset : forall L, (S L < SkipList.kMaxHeight)%nat ->
    forall i, i ∈ lv (S L) -> i ∈ lv L;
  inv_top : forall L,
    (SkipList.max_height_ sl <= L < SkipList.kMaxHeight)%nat -> lv L = []
}.

(** The node at which a search for [k] leaves level [L]: the last node
    below [k], or the head. *)
Definition stop_at (sl : SkipList.t Key Random) (lv : nat -> list nat)
    (k : Key) (L : nat) : SkipList.NodePtr :=
  last (SkipList.head_ sl :: take_below (SkipList.nodes sl) k (lv L)).

(** The array [prev] once a search for [k] has come down from level [L]. *)
Fixpoint fill_prev (sl : SkipList.t Key Random) (lv : nat -> list nat)
    (k : Key) (L : nat) (prev : list SkipList.NodePtr) : list SkipList.NodePtr :=
  match L with
  | O => <[0%nat := stop_at sl lv k 0]> prev
  | S L' => fill_prev sl lv k L' (<[L := stop_at sl lv k L]> prev)
  end.

(** The levels once a node [new] of height [height] and key [k] has been
    spliced in. *)
Definition levels_with (ns : list (SkipList.Node Key)) (k : Key)
    (new height : nat) (lv : nat -> list nat) : nat -> list nat :=
  fun L =>
    if (L <? height)%nat
    then take_below ns k (lv L) ++ new :: drop_below ns k (lv L)
    else lv L.

(** Fuel that is enough for any search of [sl]. *)
Definition enough_fuel (sl : SkipList.t Key Random) (fuel : nat) : Prop :=
  (SkipList.kMaxHeight * S (length (SkipList.nodes sl)) <= fuel)%nat.

Variable Random_Next : Random -> Z * Random.

(** [Insert] for each key of a list, in order. *)
Fixpoint InsertAll (fuel : nat) (sl : SkipList.t Key Random) (ks : list Key)
  : option (SkipList.t Key Random) :=
  match ks with
  | [] => Some sl
  | k :: ks =>
    sl ← SkipList.Insert compare_ Random_Next fuel sl k;
    InsertAll fuel sl ks
  end.

(** The operations of an iterator, and a run of them from a new iterator. *)
Inductive IteratorOp : Type :=
| OpSeek (target : Key)
| OpSeekToFirst
| OpSeekToLast
| OpNext
| OpPrev.

Definition Iterator_step (fuel : nat) (sl : SkipList.t Key Random)
    (it : SkipList.Iterator) (op : IteratorOp) : option SkipList.Iterator :=
  match op with
  | OpSeek target => SkipList.Iterator_Seek compare_ fuel sl it target
  | OpSeekToFirst => SkipList.Iterator_SeekToFirst sl it
  | OpSeekToLast => SkipList.Iterator_SeekToLast fuel sl it
  | OpNext => SkipList.Iterator_Next sl it
  | OpPrev => SkipList.Iterator_Prev compare_ fuel sl it
  end.

(** What [op] requires of the iterator: [Next] and [Prev] assert [Valid()]. *)
Definition Iterator_requires (it : SkipList.Iterator) (op : IteratorOp) : Prop :=
  match op with
  | OpNext | OpPrev => SkipList.Valid it = true
  | _ => True
  end.

(** The iterator is at no node or at a node of level 0. *)
Definition positioned (lv : nat -> list nat) (it : SkipList.Iterator) : Prop :=
  match SkipList.node_ it with
  | None => True
  | Some i => i ∈ lv 0%nat
  end.

Fixpoint Iterator_run (fuel : nat) (sl : SkipList.t Key Random)
    (it : SkipList.Iterator) (ops : list IteratorOp) : option SkipList.Iterator :=
  match ops with
  | [] => Some it
  | op :: ops =>
    it ← Iterator_step fuel sl it op;
    Iterator_run fuel sl it ops
  end.

(** Every node of [ns] is still there in [ns'], at the same address, with
    the same key and the same height; only its links may differ. *)
Definition nodes_kept (ns ns' : list (SkipList.Node Key)) : Prop :=
  forall j nd, ns !! j = Some nd ->
    exists nd', ns' !! j = Some nd'
                /\ SkipList.key nd' = SkipList.key nd
                /\ length (SkipList.next_ nd') = length (SkipList.next_ nd).

(** The client's loops over a list,
    [for (it.SeekToFirst(); it.Valid(); it.Next()) ... it.key() ...] and
    [for (it.SeekToLast(); it.Valid(); it.Prev()) ... it.key() ...],
    from the iterator [it] on: the keys met, [None] when a call fails or
    when more than [n] entries are met. *)
Fixpoint scan_forward (n : nat) (sl : SkipList.t Key Random)
    (it : SkipList.Iterator) : option (list Key) :=
  if SkipList.Valid it then
    match n with
    | O => None
    | S n =>
      k ← SkipList.Iterator_key sl it;
      it ← SkipList.Iterator_Next sl it;
      ks ← scan_forward n sl it;
      Some (k :: ks)
    end
  else Some [].

Fixpoint scan_backward (fuel n : nat) (sl : SkipList.t Key Random)
    (it : SkipList.Iterator) : option (list Key) :=
  if SkipList.Valid it then
    match n with
    | O => None
    | S n =>
      k ← SkipList.Iterator_key sl it;
      it ← SkipList.Iterator_Prev compare_ fuel sl it;
      ks ← scan_backward fuel n sl it;
      Some (k :: ks)
    end
  else Some [].

End Spec.

End SkipListSpec.

Export SkipListSpec.

(** ** Instances for the examples *)

(** A host allocator: arrays are laid out one after the other from address
    4096. *)
Definition sample_new_char (heap : Arena.Heap) (n : Z) : Z :=
  fold_left (fun p b => p + snd b) heap 4096.

(** A comparator on integers that answers -1, 0 or +1. *)
Definition sample_compare (a b : Z) : Z :=
  if a <? b then -1 else if b <? a then 1 else 0.

(** A generator: a multiplicative congruential sequence. *)
Definition sample_Random_Next (seed : Z) : Z * Z :=
  let seed := (seed * 16807) mod 2147483647 in
  (seed, seed).

(** The list with the keys [ks] inserted in order, [None] if an insert fails. *)
Definition sample_list (ks : list Z) : option (SkipList.t Z Z) :=
  InsertAll sample_compare sample_Random_Next 200
    (SkipList.SkipList 0 3735928559) ks.

(** The key under the iterator after [ops] on [sample_list ks], [Some None]
    when the iterator is not valid. *)
Definition sample_iterate (ks : list Z) (ops : list (IteratorOp (Key := Z)))
  : option (option Z) :=
  sl ← sample_list ks;
  it ← Iterator_run sample_compare 200 sl SkipList.Iterator_new ops;
  Some (SkipList.Iterator_key sl it).


(** ** Vocabulary for the arena's properties *)

(** The public allocation calls of an arena, and a run of them: the regions
    handed out (address and size), oldest first, the arena and the free
    store afterwards. *)
Inductive ArenaOp : Type :=
| OpAllocate (bytes : Z)
| OpAllocateAligned (bytes : Z).

Definition ArenaOp_bytes (op : ArenaOp) : Z :=
  match op with OpAllocate n | OpAllocateAligned n => n end.

Definition Arena_step (new_char : Arena.Heap -> Z -> Z) (sizeof_ptr : Z)
    (a : Arena.t) (heap : Arena.Heap) (op : ArenaOp)
  : option (Z * Arena.t * Arena.Heap) :=
  match op with
  | OpAllocate n => Some (Arena.Allocate new_char sizeof_ptr a heap n)
  | OpAllocateAligned n => Arena.AllocateAligned new_char sizeof_ptr a heap n
  end.

Fixpoint Arena_run (new_char : Arena.Heap -> Z -> Z) (sizeof_ptr : Z)
    (a : Arena.t) (heap : Arena.Heap) (ops : list ArenaOp)
  : option (list (Z * Z) * Arena.t * Arena.Heap) :=
  match ops with
  | [] => Some ([], a, heap)
  | op :: ops =>
    '(result, a, heap) ← Arena_step new_char sizeof_ptr a heap op;
    '(regions, a, heap) ← Arena_run new_char sizeof_ptr a heap ops;
    Some ((result, ArenaOp_bytes op) :: regions, a, heap)
  end.

(** Two regions of memory, each a base address and a size, do not overlap;
    a region lies within another. *)
Definition disjoint_regions (r1 r2 : Z * Z) : Prop :=
  fst r1 + snd r1 <= fst r2 \/ fst r2 + snd r2 <= fst r1.

Definition region_within (r b : Z * Z) : Prop :=
  fst b <= fst r /\ fst r + snd r <= fst b + snd b.

(** What a call requires of its argument: [Allocate] asserts [bytes > 0];
    in [AllocateAligned] the sum [bytes + slop] is a [size_t] and must not
    wrap around. *)
Definition ArenaOp_ok (sizeof_ptr : Z) (op : ArenaOp) : Prop :=
  match op with
  | OpAllocate n => 0 < n
  | OpAllocateAligned n =>
    0 < n /\ n + (if sizeof_ptr >? 8 then sizeof_ptr else 8) <= 2 ^ 64
  end.

(** The arena's blocks stand apart from the arrays [heap0] that were live
    before; the regions handed out lie in the blocks; the unused tail of
    the current block lies in a block and apart from the regions. *)
Definition Arena_inv (heap0 : Arena.Heap) (a : Arena.t) (heap : Arena.Heap)
    (used blocks : list (Z * Z)) : Prop :=
  heap = heap0 ++ blocks
  /\ Forall (fun b => Forall (disjoint_regions b) heap0) blocks
  /\ Forall (fun u => exists b, b ∈ blocks /\ region_within u b) used
  /\ (0 < Arena.alloc_bytes_remaining_ a ->
      (exists b, b ∈ blocks
                 /\ region_within (Arena.alloc_ptr_ a, Arena.alloc_bytes_remaining_ a) b)
      /\ Forall (fun u => disjoint_regions u
                            (Arena.alloc_ptr_ a, Arena.alloc_bytes_remaining_ a))
                used).

(** The alignment [AllocateAligned] computes. *)
Definition Arena_align (sizeof_ptr : Z) : Z :=
  if sizeof_ptr >? 8 then sizeof_ptr else 8.

(** What the arena assumes of the host's [new char[n]]: the new array
    overlaps no live array, and it starts at an aligned address. *)
Definition host_fresh (new_char : Arena.Heap -> Z -> Z) : Prop :=
  forall heap n b, 0 < n -> b ∈ heap -> disjoint_regions (new_char heap n, n) b.

Definition host_aligned (new_char : Arena.Heap -> Z -> Z) (sizeof_ptr : Z) : Prop :=
  forall heap n, Z.land (new_char heap n) (Arena_align sizeof_ptr - 1) = 0.

(** The host never returns the address of a live array. *)
Definition host_distinct (new_char : Arena.Heap -> Z -> Z) : Prop :=
  forall heap n, new_char heap n ∉ heap.*1.

(** The sizes of a list of arrays, added up. *)
Definition total_size (blocks : list (Z * Z)) : Z :=
  fold_right (fun b acc => snd b + acc) 0 blocks.

(** A host allocator that places each array at the first multiple of 16
    past every live array, and not below 4096. *)
Definition sample_new_aligned (heap : Arena.Heap) (n : Z) : Z :=
  let top := fold_left (fun p b => Z.max p (fst b + Z.max 1 (snd b))) heap 4096 in
  16 * ((top + 15) / 16).
(* ================================================================= *)
(** * Part II: properties *)
(* ================================================================= *)

Example varint32_300 :
  let '(m, e) := Coding.EncodeVarint32 (fun _ => Byte.x00) 10 300 in
  (load8 m 10, load8 m 11, e) = (172, 2, 12)
  /\ Coding.GetVarint32PtrFallback m 10 e 0 = (Some 12, 300).
Proof. vm_compute. split; reflexivity. Qed.


(** ** Raw memory: reads after writes *)

Lemma load8_range (m : Mem) (p : Z) : 0 <= load8 m p < 256.
Proof.
  unfold load8. pose proof (Byte.to_N_bounded (m p)). lia.
Qed.

Lemma load8_store8_eq (m : Mem) (p z : Z) : load8 (store8 m p z) p = z mod 256.
Proof.
  unfold load8, store8, u8. rewrite Z.eqb_refl.
  assert (Hr : 0 <= z mod 256 < 256) by (apply Z.mod_pos_bound; lia).
  destruct (Byte.of_N (Z.to_N (z mod 256))) as [b|] eqn:E.
  - apply Byte.to_of_N in E. rewrite E. lia.
  - apply Byte.of_N_None_iff in E. lia.
Qed.

Lemma load8_store8_ne (m : Mem) (p q z : Z) :
  q <> p -> load8 (store8 m p z) q = load8 m q.
Proof.
  intros Hne. unfold load8, store8.
  destruct (Z.eqb_spec q p); [contradiction | reflexivity].
Qed.

(** ** Bit-level facts used by the varint codec *)

Lemma land_low_high (a b s : Z) :
  0 <= s -> 0 <= a < 2 ^ s -> Z.land a (Z.shiftl b s) = 0.
Proof.
  intros Hs Ha. apply Z.bits_inj'. intros n Hn.
  rewrite Z.land_spec, Z.bits_0.
  destruct (Z.lt_ge_cases n s) as [Hlt | Hge].
  - rewrite (Z.shiftl_spec_low b s n Hlt). apply andb_false_r.
  - replace (Z.testbit a n) with false; [reflexivity |].
    symmetry. destruct (Z.eq_dec a 0) as [-> | Hnz]; [apply Z.bits_0 |].
    apply Z.bits_above_log2; [lia |].
    apply Z.log2_lt_pow2; [lia |].
    pose proof (Z.pow_le_mono_r 2 s n). lia.
Qed.

Lemma lor_low_high (a b s : Z) :
  0 <= s -> 0 <= a < 2 ^ s -> Z.lor a (Z.shiftl b s) = a + b * 2 ^ s.
Proof.
  intros Hs Ha. pose proof (land_low_high a b s Hs Ha) as Hd.
  rewrite <- Z.lxor_lor, <- Z.add_nocarry_lxor by exact Hd.
  rewrite Z.shiftl_mul_pow2 by exact Hs. reflexivity.
Qed.

Lemma add_128_lor (y : Z) : 0 <= y < 128 -> y + 128 = Z.lor y 128.
Proof.
  intros Hy. change 128 with (Z.shiftl 1 7) at 2.
  rewrite lor_low_high by (change (2 ^ 7) with 128; lia). reflexivity.
Qed.

Lemma byte_term_flag (y : Z) : 0 <= y < 128 -> Z.land y 128 = 0.
Proof.
  intros Hy. change 128 with (Z.shiftl 1 7).
  apply land_low_high; change (2 ^ 7) with 128; lia.
Qed.

Lemma byte_cont_flag (y : Z) : 0 <= y < 128 -> Z.land (y + 128) 128 = 128.
Proof.
  intros Hy. rewrite add_128_lor by exact Hy.
  rewrite Z.land_lor_distr_l, byte_term_flag by exact Hy. reflexivity.
Qed.

Lemma byte_cont_payload (y : Z) : 0 <= y < 128 -> Z.land (y + 128) 127 = y.
Proof.
  intros Hy. change 127 with (Z.ones 7). rewrite Z.land_ones by lia.
  change (2 ^ 7) with 128. rewrite <- (Z.mul_1_l 128) at 1.
  rewrite Z.mod_add by lia. apply Z.mod_small. exact Hy.
Qed.

(** The byte [*(ptr++) = x | B] leaves in memory: the low seven bits of [x]
    under a set continuation bit. *)
Lemma lor_128_byte (x : Z) : 0 <= x -> (Z.lor x 128) mod 256 = x mod 128 + 128.
Proof.
  intros Hx.
  assert (Hy : 0 <= x mod 128 < 128) by (apply Z.mod_pos_bound; lia).
  rewrite (add_128_lor _ Hy).
  apply Z.bits_inj'. intros n Hn.
  change 256 with (2 ^ 8). change (x mod 128) with (x mod 2 ^ 7).
  rewrite Z.testbit_mod_pow2, !Z.lor_spec, Z.testbit_mod_pow2 by lia.
  change 128 with (2 ^ 7). rewrite (Z.pow2_bits_eqb 7 n) by lia.
  destruct (Z.ltb_spec n 8), (Z.ltb_spec n 7), (Z.eqb_spec 7 n);
    try lia; cbn; rewrite ?orb_false_r, ?orb_true_r; reflexivity.
Qed.

(** One more group of seven bits joins the bits decoded so far. *)
Lemma lor_group (w : Z) (r y s : Z) :
  0 <= s -> 0 <= r < 2 ^ s -> 0 <= y -> r + y * 2 ^ s < 2 ^ w ->
  Z.lor r ((Z.shiftl y s) mod 2 ^ w) = r + y * 2 ^ s.
Proof.
  intros Hs Hr Hy Hlt.
  rewrite Z.mod_small.
  - apply lor_low_high; assumption.
  - rewrite Z.shiftl_mul_pow2 by exact Hs. nia.
Qed.

(** ** util/coding.cc: one iteration of the decoding loops *)

Section DecodeSteps.
Import Coding.
Variables (m : Mem) (limit value : Z).

Lemma dec32_stop (shift p result : Z) :
  28 < shift \/ limit <= p ->
  GetVarint32PtrFallback_loop m shift p limit result value = (None, value).
Proof.
  intros H. rewrite GetVarint32PtrFallback_loop_equation_1.
  destruct (Z_le_dec shift 28); [| reflexivity].
  destruct (Z.ltb_spec p limit); [lia | reflexivity].
Qed.

Lemma dec32_cont (shift p result y : Z) :
  shift <= 28 -> p < limit -> load8 m p = y + 128 -> 0 <= y < 128 ->
  GetVarint32PtrFallback_loop m shift p limit result value =
  GetVarint32PtrFallback_loop m (shift + 7) (p + 1) limit
    (Z.lor result (u32 (Z.shiftl y shift))) value.
Proof.
  intros Hs Hp Hb Hy. rewrite GetVarint32PtrFallback_loop_equation_1.
  destruct (Z_le_dec shift 28); [| lia].
  destruct (Z.ltb_spec p limit); [| lia].
  cbv zeta. rewrite Hb, byte_cont_flag, byte_cont_payload by exact Hy.
  reflexivity.
Qed.

Lemma dec32_term (shift p result y : Z) :
  shift <= 28 -> p < limit -> load8 m p = y -> 0 <= y < 128 ->
  GetVarint32PtrFallback_loop m shift p limit result value =
  (Some (p + 1), Z.lor result (u32 (Z.shiftl y shift))).
Proof.
  intros Hs Hp Hb Hy. rewrite GetVarint32PtrFallback_loop_equation_1.
  destruct (Z_le_dec shift 28); [| lia].
  destruct (Z.ltb_spec p limit); [| lia].
  cbv zeta. rewrite Hb, byte_term_flag by exact Hy. reflexivity.
Qed.

(** A byte with the continuation bit set never ends the loop with a value. *)
Lemma dec32_flagged (shift p result : Z) :
  shift <= 28 -> p < limit -> Z.land (load8 m p) 128 <> 0 ->
  exists result',
    GetVarint32PtrFallback_loop m shift p limit result value =
    GetVarint32PtrFallback_loop m (shift + 7) (p + 1) limit result' value.
Proof.
  intros Hs Hp Hb. rewrite GetVarint32PtrFallback_loop_equation_1.
  destruct (Z_le_dec shift 28); [| lia].
  destruct (Z.ltb_spec p limit); [| lia].
  cbv zeta. destruct (Z.eqb_spec (Z.land (load8 m p) 128) 0); [contradiction |].
  cbn [negb]. eexists. reflexivity.
Qed.

Lemma dec64_stop (shift p result : Z) :
  63 < shift \/ limit <= p ->
  GetVarint64Ptr_loop m shift p limit result value = (None, value).
Proof.
  intros H. rewrite GetVarint64Ptr_loop_equation_1.
  destruct (Z_le_dec shift 63); [| reflexivity].
  destruct (Z.ltb_spec p limit); [lia | reflexivity].
Qed.

Lemma dec64_flagged (shift p result : Z) :
  shift <= 63 -> p < limit -> Z.land (load8 m p) 128 <> 0 ->
  exists result',
    GetVarint64Ptr_loop m shift p limit result value =
    GetVarint64Ptr_loop m (shift + 7) (p + 1) limit result' value.
Proof.
  intros Hs Hp Hb. rewrite GetVarint64Ptr_loop_equation_1.
  destruct (Z_le_dec shift 63); [| lia].
  destruct (Z.ltb_spec p limit); [| lia].
  cbv zeta. destruct (Z.eqb_spec (Z.land (load8 m p) 128) 0); [contradiction |].
  cbn [negb]. eexists. reflexivity.
Qed.

(** With no terminator among the next [k] bytes below [limit], and at most
    [k] iterations left in the byte budget, the loops give up; [*value] is
    as it was. *)
Lemma dec32_no_terminator (k : nat) : forall shift p result,
  35 - 7 * Z.of_nat k <= shift ->
  (forall i, 0 <= i < Z.of_nat k -> p + i < limit ->
             Z.land (load8 m (p + i)) 128 <> 0) ->
  GetVarint32PtrFallback_loop m shift p limit result value = (None, value).
Proof.
  induction k as [| k IH]; intros shift p result Hs Hb.
  - apply dec32_stop. lia.
  - destruct (Z_le_dec shift 28) as [Hle |]; [| apply dec32_stop; lia].
    destruct (Z_lt_dec p limit) as [Hlt |]; [| apply dec32_stop; lia].
    destruct (dec32_flagged shift p result Hle Hlt) as [r' ->].
    + specialize (Hb 0). rewrite Z.add_0_r in Hb. apply Hb; lia.
    + apply IH; [lia |]. intros i Hi Hpi.
      replace (p + 1 + i) with (p + (i + 1)) in * by lia. apply Hb; lia.
Qed.

Lemma dec64_no_terminator (k : nat) : forall shift p result,
  70 - 7 * Z.of_nat k <= shift ->
  (forall i, 0 <= i < Z.of_nat k -> p + i < limit ->
             Z.land (load8 m (p + i)) 128 <> 0) ->
  GetVarint64Ptr_loop m shift p limit result value = (None, value).
Proof.
  induction k as [| k IH]; intros shift p result Hs Hb.
  - apply dec64_stop. lia.
  - destruct (Z_le_dec shift 63) as [Hle |]; [| apply dec64_stop; lia].
    destruct (Z_lt_dec p limit) as [Hlt |]; [| apply dec64_stop; lia].
    destruct (dec64_flagged shift p result Hle Hlt) as [r' ->].
    + specialize (Hb 0). rewrite Z.add_0_r in Hb. apply Hb; lia.
    + apply IH; [lia |]. intros i Hi Hpi.
      replace (p + 1 + i) with (p + (i + 1)) in * by lia. apply Hb; lia.
Qed.

(** A loop that returns [nullptr] has not written [*value]. *)
Lemma dec32_none_value (k : nat) : forall shift p result,
  35 - 7 * Z.of_nat k <= shift ->
  fst (GetVarint32PtrFallback_loop m shift p limit result value) = None ->
  snd (GetVarint32PtrFallback_loop m shift p limit result value) = value.
Proof.
  induction k as [| k IH]; intros shift p result Hs.
  - rewrite dec32_stop by lia. reflexivity.
  - rewrite GetVarint32PtrFallback_loop_equation_1.
    destruct (Z_le_dec shift 28); [| reflexivity].
    destruct (p <? limit); [| reflexivity].
    cbv zeta. destruct (negb _).
    + apply IH. lia.
    + cbn. discriminate.
Qed.

Lemma dec64_none_value (k : nat) : forall shift p result,
  70 - 7 * Z.of_nat k <= shift ->
  fst (GetVarint64Ptr_loop m shift p limit result value) = None ->
  snd (GetVarint64Ptr_loop m shift p limit result value) = value.
Proof.
  induction k as [| k IH]; intros shift p result Hs.
  - rewrite dec64_stop by lia. reflexivity.
  - rewrite GetVarint64Ptr_loop_equation_1.
    destruct (Z_le_dec shift 63); [| reflexivity].
    destruct (p <? limit); [| reflexivity].
    cbv zeta. destruct (negb _).
    + apply IH. lia.
    + cbn. discriminate.
Qed.

End DecodeSteps.

(** ** util/coding.cc: encoding followed by decoding *)

(** Discharges the side conditions of [dec32_cont] and [dec32_term] on the
    memory an encoder has just written. *)
Ltac encoded_byte :=
  rewrite ?load8_store8_ne by lia; rewrite load8_store8_eq;
  first [ apply lor_128_byte; lia | apply Z.mod_small; lia ].

Ltac decode_cont x :=
  rewrite (dec32_cont _ _ _ _ _ _ (x mod 128));
  [ | lia | lia | encoded_byte | apply Z.mod_pos_bound; lia ].

Ltac decode_term x :=
  rewrite (dec32_term _ _ _ _ _ _ x);
  [ | lia | lia | encoded_byte | lia ].

(** The byte at [p], the last one written, has its continuation bit clear. *)
Ltac last_byte p :=
  match goal with
  | |- Z.land (load8 _ ?q) 128 = 0 => replace q with p by lia
  end;
  rewrite load8_store8_eq, Z.mod_small by lia; apply byte_term_flag; lia.

Ltac join_group s :=
  unfold u32; rewrite (lor_group 32 _ _ s); [ | lia | lia | lia | lia ].

(** C4. For every [v] below [2^32], decoding the bytes [EncodeVarint32]
    wrote, with a limit at or past their end, succeeds, yields [v], and
    returns the very position the encoder returned; the encoding is between
    one and five bytes long and its last byte is a terminator (continuation
    bit clear), so that the returned position is one past the terminator. *)
Theorem varint32_roundtrip (m : Mem) (dst v limit value : Z) :
  0 <= v < 2 ^ 32 ->
  snd (Coding.EncodeVarint32 m dst v) <= limit ->
  Coding.GetVarint32PtrFallback (fst (Coding.EncodeVarint32 m dst v)) dst limit value
  = (Some (snd (Coding.EncodeVarint32 m dst v)), v)
  /\ 1 <= snd (Coding.EncodeVarint32 m dst v) - dst <= 5
  /\ Z.land (load8 (fst (Coding.EncodeVarint32 m dst v))
                   (snd (Coding.EncodeVarint32 m dst v) - 1)) 128 = 0.
Proof.
  intros Hv.
  assert (E7 : Z.shiftr v 7 = v / 128) by (apply Z.shiftr_div_pow2; lia).
  assert (E14 : Z.shiftr v 14 = v / 128 / 128)
    by (rewrite Z.div_div by lia; apply Z.shiftr_div_pow2; lia).
  assert (E21 : Z.shiftr v 21 = v / 128 / 128 / 128)
    by (rewrite !Z.div_div by lia; apply Z.shiftr_div_pow2; lia).
  assert (E28 : Z.shiftr v 28 = v / 128 / 128 / 128 / 128)
    by (rewrite !Z.div_div by lia; apply Z.shiftr_div_pow2; lia).
  unfold Coding.EncodeVarint32, Coding.GetVarint32PtrFallback.
  change (Z.shiftl 1 7) with 128. change (Z.shiftl 1 14) with (128 * 128).
  change (Z.shiftl 1 21) with (128 * 128 * 128).
  change (Z.shiftl 1 28) with (128 * 128 * 128 * 128).
  change (2 ^ 32) with (128 * 128 * 128 * 128 * 16) in Hv.
  cbv zeta. rewrite E7, E14, E21, E28.
  set (v1 := v / 128). set (v2 := v1 / 128). set (v3 := v2 / 128).
  set (v4 := v3 / 128).
  pose proof (Z.div_mod v 128 ltac:(lia)) as D0.
  pose proof (Z.div_mod v1 128 ltac:(lia)) as D1.
  pose proof (Z.div_mod v2 128 ltac:(lia)) as D2.
  pose proof (Z.div_mod v3 128 ltac:(lia)) as D3.
  pose proof (Z.mod_pos_bound v 128 ltac:(lia)) as B0.
  pose proof (Z.mod_pos_bound v1 128 ltac:(lia)) as B1.
  pose proof (Z.mod_pos_bound v2 128 ltac:(lia)) as B2.
  pose proof (Z.mod_pos_bound v3 128 ltac:(lia)) as B3.
  fold v1 in D0. fold v2 in D1. fold v3 in D2. fold v4 in D3.
  destruct (Z.ltb_spec v 128) as [H1 | H1]; cbn [fst snd].
  { intros Hl. split; [| split; [lia | last_byte dst]]. decode_term v.
    join_group 0. f_equal. lia. }
  destruct (Z.ltb_spec v (128 * 128)) as [H2 | H2]; cbn [fst snd].
  { intros Hl. split; [| split; [lia | last_byte (dst + 1)]].
    decode_cont v. decode_term v1.
    join_group 0. join_group (0 + 7). f_equal. lia. }
  destruct (Z.ltb_spec v (128 * 128 * 128)) as [H3 | H3]; cbn [fst snd].
  { intros Hl. split; [| split; [lia | last_byte (dst + 1 + 1)]].
    decode_cont v. decode_cont v1. decode_term v2.
    join_group 0. join_group (0 + 7). join_group (0 + 7 + 7). f_equal. lia. }
  destruct (Z.ltb_spec v (128 * 128 * 128 * 128)) as [H4 | H4]; cbn [fst snd].
  { intros Hl. split; [| split; [lia | last_byte (dst + 1 + 1 + 1)]].
    decode_cont v. decode_cont v1. decode_cont v2. decode_term v3.
    join_group 0. join_group (0 + 7). join_group (0 + 7 + 7).
    join_group (0 + 7 + 7 + 7). f_equal. lia. }
  intros Hl. split; [| split; [lia | last_byte (dst + 1 + 1 + 1 + 1)]].
  decode_cont v. decode_cont v1. decode_cont v2. decode_cont v3. decode_term v4.
  join_group 0. join_group (0 + 7). join_group (0 + 7 + 7).
  join_group (0 + 7 + 7 + 7). join_group (0 + 7 + 7 + 7 + 7). f_equal. lia.
Qed.

Lemma varint32_roundtrip_witness :
  0 <= 300 < 2 ^ 32 /\
  (Coding.GetVarint32PtrFallback
     (fst (Coding.EncodeVarint32 (fun _ => Byte.x00) 10 300)) 10 12 0
   = (Some (snd (Coding.EncodeVarint32 (fun _ => Byte.x00) 10 300)), 300)
   /\ 1 <= snd (Coding.EncodeVarint32 (fun _ => Byte.x00) 10 300) - 10 <= 5
   /\ Z.land (load8 (fst (Coding.EncodeVarint32 (fun _ => Byte.x00) 10 300))
                    (snd (Coding.EncodeVarint32 (fun _ => Byte.x00) 10 300) - 1))
             128 = 0).
Proof.
  split; [lia |].
  apply (varint32_roundtrip (fun _ => Byte.x00) 10 300 12 0); [lia |].
  vm_compute. discriminate.
Defined.

(** ** util/coding.cc: the two encoders agree on 32-bit values *)

Lemma EncodeVarint64_loop_more (m : Mem) (ptr v : Z) :
  128 <= v ->
  Coding.EncodeVarint64_loop m ptr v =
  Coding.EncodeVarint64_loop (store8 m ptr (Z.lor v 128)) (ptr + 1) (Z.shiftr v 7).
Proof.
  intros Hv. rewrite Coding.EncodeVarint64_loop_equation_1.
  destruct (Z_ge_dec v 128); [reflexivity | lia].
Qed.

Lemma EncodeVarint64_loop_last (m : Mem) (ptr v : Z) :
  v < 128 ->
  Coding.EncodeVarint64_loop m ptr v = (store8 m ptr v, ptr + 1).
Proof.
  intros Hv. rewrite Coding.EncodeVarint64_loop_equation_1.
  destruct (Z_ge_dec v 128); [lia | reflexivity].
Qed.

(** C10. For every [v] in [[0, 2^32)], the unrolled encoder [EncodeVarint32]
    and the loop encoder [EncodeVarint64] leave the same memory behind and
    return the same end pointer: the same bytes, in the same number. *)
Theorem EncodeVarint32_EncodeVarint64 (m : Mem) (dst v : Z) :
  0 <= v < 2 ^ 32 ->
  Coding.EncodeVarint32 m dst v = Coding.EncodeVarint64 m dst v.
Proof.
  intros Hv.
  assert (E7 : Z.shiftr v 7 = v / 128) by (apply Z.shiftr_div_pow2; lia).
  assert (E14 : Z.shiftr v 14 = v / 128 / 128)
    by (rewrite Z.div_div by lia; apply Z.shiftr_div_pow2; lia).
  assert (E21 : Z.shiftr v 21 = v / 128 / 128 / 128)
    by (rewrite !Z.div_div by lia; apply Z.shiftr_div_pow2; lia).
  assert (E28 : Z.shiftr v 28 = v / 128 / 128 / 128 / 128)
    by (rewrite !Z.div_div by lia; apply Z.shiftr_div_pow2; lia).
  assert (S7 : forall x, Z.shiftr x 7 = x / 128)
    by (intros x; apply Z.shiftr_div_pow2; lia).
  unfold Coding.EncodeVarint32, Coding.EncodeVarint64.
  change (Z.shiftl 1 7) with 128. change (Z.shiftl 1 14) with (128 * 128).
  change (Z.shiftl 1 21) with (128 * 128 * 128).
  change (Z.shiftl 1 28) with (128 * 128 * 128 * 128).
  change (2 ^ 32) with (128 * 128 * 128 * 128 * 16) in Hv.
  cbv zeta. rewrite E7, E14, E21, E28.
  set (v1 := v / 128). set (v2 := v1 / 128). set (v3 := v2 / 128).
  set (v4 := v3 / 128).
  pose proof (Z.div_mod v 128 ltac:(lia)) as D0.
  pose proof (Z.div_mod v1 128 ltac:(lia)) as D1.
  pose proof (Z.div_mod v2 128 ltac:(lia)) as D2.
  pose proof (Z.div_mod v3 128 ltac:(lia)) as D3.
  pose proof (Z.mod_pos_bound v 128 ltac:(lia)) as B0.
  pose proof (Z.mod_pos_bound v1 128 ltac:(lia)) as B1.
  pose proof (Z.mod_pos_bound v2 128 ltac:(lia)) as B2.
  pose proof (Z.mod_pos_bound v3 128 ltac:(lia)) as B3.
  fold v1 in D0. fold v2 in D1. fold v3 in D2. fold v4 in D3.
  destruct (Z.ltb_spec v 128) as [H1 | H1].
  { rewrite EncodeVarint64_loop_last by lia. reflexivity. }
  rewrite EncodeVarint64_loop_more, S7 by lia. fold v1.
  destruct (Z.ltb_spec v (128 * 128)) as [H2 | H2].
  { rewrite EncodeVarint64_loop_last by lia. reflexivity. }
  rewrite EncodeVarint64_loop_more, S7 by lia. fold v2.
  destruct (Z.ltb_spec v (128 * 128 * 128)) as [H3 | H3].
  { rewrite EncodeVarint64_loop_last by lia. reflexivity. }
  rewrite EncodeVarint64_loop_more, S7 by lia. fold v3.
  destruct (Z.ltb_spec v (128 * 128 * 128 * 128)) as [H4 | H4].
  { rewrite EncodeVarint64_loop_last by lia. reflexivity. }
  rewrite EncodeVarint64_loop_more, S7 by lia. fold v4.
  rewrite EncodeVarint64_loop_last by lia. reflexivity.
Qed.

Lemma EncodeVarint32_EncodeVarint64_witness :
  0 <= 70000 < 2 ^ 32 /\
  Coding.EncodeVarint32 (fun _ => Byte.x00) 10 70000
  = Coding.EncodeVarint64 (fun _ => Byte.x00) 10 70000.
Proof.
  split; [lia |].
  apply (EncodeVarint32_EncodeVarint64 (fun _ => Byte.x00) 10 70000). lia.
Defined.

(** ** util/coding.cc: failed decodes *)

(** C5. [GetVarint32PtrFallback] returns [nullptr] whenever each of the first
    five bytes below [limit] carries the continuation bit, and
    [GetVarint64Ptr] whenever each of the first ten does: that covers both
    the exhausted byte budget and a limit reached before a terminator byte.
    In all these cases [*value] is not written. *)
Theorem varint_decode_rejects (m : Mem) (p limit value : Z) :
  ((forall i, 0 <= i < 5 -> p + i < limit -> Z.land (load8 m (p + i)) 128 <> 0) ->
   Coding.GetVarint32PtrFallback m p limit value = (None, value))
  /\
  ((forall i, 0 <= i < 10 -> p + i < limit -> Z.land (load8 m (p + i)) 128 <> 0) ->
   Coding.GetVarint64Ptr m p limit value = (None, value)).
Proof.
  split; intros H.
  - apply (dec32_no_terminator m limit value 5); [lia | exact H].
  - apply (dec64_no_terminator m limit value 10); [lia | exact H].
Qed.

Lemma all_ff_flagged (p : Z) : Z.land (load8 (fun _ => Byte.xff) p) 128 <> 0.
Proof. vm_compute. discriminate. Qed.

Lemma varint_decode_rejects_witness :
  Coding.GetVarint32PtrFallback (fun _ => Byte.xff) 0 20 7 = (None, 7)
  /\ Coding.GetVarint64Ptr (fun _ => Byte.xff) 0 3 7 = (None, 7).
Proof.
  split.
  - apply (proj1 (varint_decode_rejects (fun _ => Byte.xff) 0 20 7)).
    intros i _ _. apply all_ff_flagged.
  - apply (proj2 (varint_decode_rejects (fun _ => Byte.xff) 0 3 7)).
    intros i _ _. apply all_ff_flagged.
Defined.

(** C9. When [GetVarint32] or [GetVarint64] returns [false], the input
    slice (pointer and length) and the output location are as they were. *)
Theorem GetVarint_failure_frame (m : Mem) (input : Slice.t) (value : Z) :
  (fst (fst (Coding.GetVarint32 m input value)) = false ->
   Coding.GetVarint32 m input value = (false, input, value))
  /\
  (fst (fst (Coding.GetVarint64 m input value)) = false ->
   Coding.GetVarint64 m input value = (false, input, value)).
Proof.
  split.
  - unfold Coding.GetVarint32, Coding.GetVarint32Ptr, Coding.GetVarint32PtrFallback.
    pose proof (dec32_none_value m (Slice.data input + Slice.size input) value
                  5 0 (Slice.data input) 0 ltac:(lia)) as Hv.
    destruct (Coding.GetVarint32PtrFallback_loop _ _ _ _ _ _) as [[q|] v']; cbn in *.
    + discriminate.
    + intros _. rewrite Hv; reflexivity.
  - unfold Coding.GetVarint64, Coding.GetVarint64Ptr.
    pose proof (dec64_none_value m (Slice.data input + Slice.size input) value
                  10 0 (Slice.data input) 0 ltac:(lia)) as Hv.
    destruct (Coding.GetVarint64Ptr_loop _ _ _ _ _ _) as [[q|] v']; cbn in *.
    + discriminate.
    + intros _. rewrite Hv; reflexivity.
Qed.

Lemma GetVarint_failure_frame_witness :
  Coding.GetVarint32 (fun _ => Byte.xff) (Slice.mk 0 3) 7 = (false, Slice.mk 0 3, 7)
  /\ Coding.GetVarint64 (fun _ => Byte.xff) (Slice.mk 0 20) 7 = (false, Slice.mk 0 20, 7).
Proof.
  split.
  - apply (proj1 (GetVarint_failure_frame (fun _ => Byte.xff) (Slice.mk 0 3) 7)).
    vm_compute. reflexivity.
  - apply (proj2 (GetVarint_failure_frame (fun _ => Byte.xff) (Slice.mk 0 20) 7)).
    vm_compute. reflexivity.
Defined.

(** ** util/coding.cc: [GetLengthPrefixedSlice] on failure *)

(** C3, as stated, fails: one byte [0x05] announces five bytes that are not
    there.  The length is decoded, [*input] is advanced past it, and only
    then is the call found to fail. *)
Lemma GetLengthPrefixedSlice_short_input_advanced :
  Coding.GetLengthPrefixedSlice (fun _ => Byte.x05) (Slice.mk 100 1) (Slice.mk 0 0) 0
  = (false, Slice.mk 101 0, Slice.mk 0 0)
  /\ Slice.mk 101 0 <> Slice.mk 100 1.
Proof. split; [vm_compute; reflexivity | discriminate]. Qed.

(** C3, amended.  When [GetLengthPrefixedSlice] returns [false], [*result]
    is untouched, and
    - if the leading varint32 is malformed, [*input] is exactly as it was;
    - if the varint32 decodes to a length [L] and ends at [q], fewer than [L]
      bytes remain and [*input] is the range from [q] to the old end. *)
Theorem GetLengthPrefixedSlice_failure
  (m : Mem) (input result : Slice.t) (len : Z) :
  fst (fst (Coding.GetLengthPrefixedSlice m input result len)) = false ->
  snd (Coding.GetLengthPrefixedSlice m input result len) = result
  /\ let limit := Slice.data input + Slice.size input in
     match Coding.GetVarint32Ptr m (Slice.data input) limit len with
     | (None, _) =>
       snd (fst (Coding.GetLengthPrefixedSlice m input result len)) = input
     | (Some q, L) =>
       snd (fst (Coding.GetLengthPrefixedSlice m input result len))
       = Slice.mk q (limit - q)
       /\ limit - q < L
     end.
Proof.
  unfold Coding.GetLengthPrefixedSlice, Coding.GetVarint32. cbv zeta.
  destruct (Coding.GetVarint32Ptr m _ _ len) as [[q|] L]; cbn.
  - destruct (Z.geb_spec (Slice.data input + Slice.size input - q) L);
      cbn; [discriminate |].
    intros _. repeat split. lia.
  - intros _. split; reflexivity.
Qed.

Lemma GetLengthPrefixedSlice_failure_witness :
  snd (Coding.GetLengthPrefixedSlice (fun _ => Byte.x05) (Slice.mk 100 1) (Slice.mk 0 0) 0)
  = Slice.mk 0 0
  /\ (snd (fst (Coding.GetLengthPrefixedSlice
                  (fun _ => Byte.x05) (Slice.mk 100 1) (Slice.mk 0 0) 0))
      = Slice.mk 101 (100 + 1 - 101)
      /\ 100 + 1 - 101 < 5).
Proof.
  apply (GetLengthPrefixedSlice_failure
           (fun _ => Byte.x05) (Slice.mk 100 1) (Slice.mk 0 0) 0).
  vm_compute. reflexivity.
Defined.

(** ** include/leveldb/slice.h: [Slice::compare] is the lexicographic order *)

Lemma lex_lt_irrefl (l : list Z) : ~ lex_lt l l.
Proof.
  induction l as [| x l IH]; intros H; inversion H; subst; [lia | auto].
Qed.

Lemma lex_lt_asym (l1 l2 : list Z) : lex_lt l1 l2 -> ~ lex_lt l2 l1.
Proof.
  induction 1 as [y ys | x xs y ys Hxy | x xs ys _ IH]; intros H;
    inversion H; subst; try lia; auto.
Qed.

Lemma lex_lt_prefix (l r : list Z) : r <> [] -> lex_lt l (l ++ r).
Proof.
  intros Hr. induction l as [| x l IH]; cbn.
  - destruct r; [contradiction | constructor].
  - apply lex_lt_tail, IH.
Qed.

Lemma bytes_at_S (m : Mem) (p : Z) (n : nat) :
  bytes_at m p (S n) = load8 m p :: bytes_at m (p + 1) n.
Proof.
  unfold bytes_at. cbn [seq map]. rewrite Z.add_0_r. f_equal.
  rewrite <- seq_shift, map_map. apply map_ext. intros i. f_equal. lia.
Qed.

Lemma bytes_at_app (m : Mem) (p : Z) (n k : nat) :
  bytes_at m p (n + k) = bytes_at m p n ++ bytes_at m (p + Z.of_nat n) k.
Proof.
  revert p. induction n as [| n IH]; intros p.
  - cbn [Nat.add]. change (bytes_at m p 0) with (@nil Z). cbn [app].
    f_equal. lia.
  - cbn [Nat.add]. rewrite !bytes_at_S, IH. cbn [app]. do 3 f_equal. lia.
Qed.

Lemma bytes_at_length (m : Mem) (p : Z) (n : nat) : length (bytes_at m p n) = n.
Proof. unfold bytes_at. rewrite length_map, length_seq. reflexivity. Qed.

Lemma bytes_is_bytes_at (m : Mem) (s : Slice.t) :
  Slice.bytes m s = bytes_at m (Slice.data_ s) (Z.to_nat (Slice.size_ s)).
Proof. reflexivity. Qed.

(** What the sign of [memcmp] says about the two blocks, whatever follows
    them. *)
Lemma memcmp_loop_sign (m : Mem) (n : nat) : forall s1 s2 t1 t2,
  let r := Slice.memcmp_loop m s1 s2 n in
  (r < 0 -> lex_lt (bytes_at m s1 n ++ t1) (bytes_at m s2 n ++ t2))
  /\ (r = 0 -> bytes_at m s1 n = bytes_at m s2 n)
  /\ (0 < r -> lex_lt (bytes_at m s2 n ++ t2) (bytes_at m s1 n ++ t1)).
Proof.
  induction n as [| n IH]; intros s1 s2 t1 t2; cbn [Slice.memcmp_loop]; cbv zeta.
  - repeat split; try lia.
  - rewrite !bytes_at_S. cbn [app].
    destruct (Z.eqb_spec (load8 m s1) (load8 m s2)) as [E | NE].
    + rewrite E. destruct (IH (s1 + 1) (s2 + 1) t1 t2) as (Hlt & Heq & Hgt).
      repeat split; intros Hr.
      * apply lex_lt_tail, Hlt, Hr.
      * f_equal. apply Heq, Hr.
      * apply lex_lt_tail, Hgt, Hr.
    + repeat split; intros Hr; try lia; apply lex_lt_head; lia.
Qed.

Lemma compare_sign (m : Mem) (a b : Slice.t) :
  0 <= Slice.size_ a -> 0 <= Slice.size_ b ->
  (Slice.compare m a b < 0 -> lex_lt (Slice.bytes m a) (Slice.bytes m b))
  /\ (Slice.compare m a b = 0 ->
      Slice.size_ a = Slice.size_ b /\ Slice.bytes m a = Slice.bytes m b)
  /\ (0 < Slice.compare m a b -> lex_lt (Slice.bytes m b) (Slice.bytes m a)).
Proof.
  intros Ha Hb. rewrite !bytes_is_bytes_at.
  unfold Slice.compare, Slice.memcmp. cbv zeta.
  set (na := Z.to_nat (Slice.size_ a)). set (nb := Z.to_nat (Slice.size_ b)).
  destruct (Z.ltb_spec (Slice.size_ a) (Slice.size_ b)) as [Hlt | Hge].
  - (* a is the shorter one *)
    fold na. assert (Hnb : nb = (na + (nb - na))%nat) by lia.
    rewrite Hnb. rewrite (bytes_at_app m (Slice.data_ b)).
    set (rest := bytes_at m (Slice.data_ b + Z.of_nat na) (nb - na)).
    assert (Hrest : rest <> []).
    { intros E. apply (f_equal length) in E. unfold rest in E.
      rewrite bytes_at_length in E. cbn in E. lia. }
    destruct (memcmp_loop_sign m na (Slice.data_ a) (Slice.data_ b) [] rest)
      as (Hneg & Hzero & Hpos).
    rewrite app_nil_r in Hneg, Hpos.
    destruct (Z.eqb_spec (Slice.memcmp_loop m (Slice.data_ a) (Slice.data_ b) na) 0)
      as [E | NE].
    + (split; [| split]); intros H; try lia.
      rewrite (Hzero E). apply lex_lt_prefix, Hrest.
    + (split; [| split]); intros H; try lia; auto.
  - destruct (Z.gtb_spec (Slice.size_ a) (Slice.size_ b)) as [Hgt | Hle].
    + (* b is the shorter one *)
      fold nb. assert (Hna : na = (nb + (na - nb))%nat) by lia.
      rewrite Hna. rewrite (bytes_at_app m (Slice.data_ a)).
      set (rest := bytes_at m (Slice.data_ a + Z.of_nat nb) (na - nb)).
      assert (Hrest : rest <> []).
      { intros E. apply (f_equal length) in E. unfold rest in E.
        rewrite bytes_at_length in E. cbn in E. lia. }
      destruct (memcmp_loop_sign m nb (Slice.data_ a) (Slice.data_ b) rest [])
        as (Hneg & Hzero & Hpos).
      rewrite app_nil_r in Hneg, Hpos.
      destruct (Z.eqb_spec (Slice.memcmp_loop m (Slice.data_ a) (Slice.data_ b) nb) 0)
        as [E | NE].
      * (split; [| split]); intros H; try lia.
        rewrite (Hzero E). apply lex_lt_prefix, Hrest.
      * (split; [| split]); intros H; try lia; auto.
    + (* equal lengths *)
      assert (Hsz : Slice.size_ a = Slice.size_ b) by lia.
      fold nb. assert (Hn : na = nb) by (unfold na, nb; rewrite Hsz; reflexivity).
      rewrite Hn.
      destruct (memcmp_loop_sign m nb (Slice.data_ a) (Slice.data_ b) [] [])
        as (Hneg & Hzero & Hpos).
      rewrite !app_nil_r in Hneg, Hpos.
      destruct (Z.eqb_spec (Slice.memcmp_loop m (Slice.data_ a) (Slice.data_ b) nb) 0)
        as [E | NE]; (split; [| split]); intros H; try lia; auto.
Qed.

Lemma operator_eq_compare (m : Mem) (a b : Slice.t) :
  Slice.operator_eq m a b = true <-> Slice.compare m a b = 0.
Proof.
  unfold Slice.operator_eq, Slice.compare, Slice.size, Slice.data. cbv zeta.
  destruct (Z.eqb_spec (Slice.size_ a) (Slice.size_ b)) as [E | NE]; cbn [andb].
  - rewrite <- E, Z.ltb_irrefl.
    destruct (Z.gtb_spec (Slice.size_ a) (Slice.size_ a)); [lia |].
    destruct (Z.eqb_spec (Slice.memcmp m (Slice.data_ a) (Slice.data_ b)
                            (Slice.size_ a)) 0); split; congruence.
  - split; [discriminate |].
    destruct (Z.ltb_spec (Slice.size_ a) (Slice.size_ b)).
    + destruct (Z.eqb_spec (Slice.memcmp m (Slice.data_ a) (Slice.data_ b)
                              (Slice.size_ a)) 0); lia.
    + destruct (Z.gtb_spec (Slice.size_ a) (Slice.size_ b)); [| lia].
      destruct (Z.eqb_spec (Slice.memcmp m (Slice.data_ a) (Slice.data_ b)
                              (Slice.size_ b)) 0); lia.
Qed.

(** C8. [a.compare(b)] is negative iff [a] precedes [b] in lexicographic
    byte order (a proper prefix being less), zero iff the two ranges have
    the same length and the same bytes (which is also when [a == b]), and
    positive iff [b] precedes [a], that is, in every other case. *)
Theorem Slice_compare_lexicographic (m : Mem) (a b : Slice.t) :
  0 <= Slice.size_ a -> 0 <= Slice.size_ b ->
  (Slice.compare m a b < 0 <-> lex_lt (Slice.bytes m a) (Slice.bytes m b))
  /\ (Slice.compare m a b = 0 <->
      Slice.size_ a = Slice.size_ b /\ Slice.bytes m a = Slice.bytes m b)
  /\ (0 < Slice.compare m a b <-> lex_lt (Slice.bytes m b) (Slice.bytes m a))
  /\ (0 < Slice.compare m a b <->
      ~ Slice.compare m a b < 0 /\ Slice.compare m a b <> 0)
  /\ (Slice.operator_eq m a b = true <-> Slice.compare m a b = 0).
Proof.
  intros Ha Hb.
  destruct (compare_sign m a b Ha Hb) as (Hneg & Hzero & Hpos).
  pose proof (@lex_lt_irrefl (Slice.bytes m a)) as Hirr.
  pose proof (lex_lt_asym (Slice.bytes m a) (Slice.bytes m b)) as Hasym.
  split; [| split; [| split; [| split]]].
  - split; [exact Hneg |]. intros Hlex.
    destruct (Z.lt_trichotomy (Slice.compare m a b) 0) as [H | [H | H]]; [exact H | |].
    + destruct (Hzero H) as [_ E]. rewrite E in *. contradiction.
    + exfalso. apply (Hasym Hlex), Hpos, H.
  - split; [exact Hzero |]. intros [Hsz E].
    destruct (Z.lt_trichotomy (Slice.compare m a b) 0) as [H | [H | H]]; [| exact H |].
    + apply Hneg in H. rewrite E in *. contradiction.
    + apply Hpos in H. rewrite E in *. contradiction.
  - split; [exact Hpos |]. intros Hlex.
    destruct (Z.lt_trichotomy (Slice.compare m a b) 0) as [H | [H | H]]; [| | exact H].
    + exfalso. apply (Hasym (Hneg H)), Hlex.
    + destruct (Hzero H) as [_ E]. rewrite E in *. contradiction.
  - lia.
  - apply operator_eq_compare.
Qed.

Lemma Slice_compare_lexicographic_witness :
  Slice.compare (fun p => u8 p) (Slice.mk 0 2) (Slice.mk 256 3) < 0 <->
  lex_lt (Slice.bytes (fun p => u8 p) (Slice.mk 0 2))
         (Slice.bytes (fun p => u8 p) (Slice.mk 256 3)).
Proof.
  exact (proj1 (Slice_compare_lexicographic
                  (fun p => u8 p) (Slice.mk 0 2) (Slice.mk 256 3)
                  ltac:(cbn; lia) ltac:(cbn; lia))).
Defined.

Example Slice_compare_prefix :
  Slice.bytes (fun p => u8 p) (Slice.mk 0 2) = [0; 1]
  /\ Slice.bytes (fun p => u8 p) (Slice.mk 256 3) = [0; 1; 2]
  /\ Slice.compare (fun p => u8 p) (Slice.mk 0 2) (Slice.mk 256 3) = -1
  /\ Slice.compare (fun p => u8 p) (Slice.mk 256 3) (Slice.mk 0 2) = 1
  /\ Slice.compare (fun p => u8 p) (Slice.mk 0 2) (Slice.mk 256 2) = 0
  /\ Slice.compare (fun p => u8 p) (Slice.mk 1 2) (Slice.mk 256 3) = 1.
Proof. vm_compute. repeat split; reflexivity. Qed.

(** ** util/arena.cc: large allocations *)

(** C6, as stated, fails: a request of more than [kBlockSize / 4] bytes that
    still fits the current block is served from that block, moving the bump
    pointer and appending no slab.  Here [Allocate(1)] on a new arena opens
    a block at 4096, and [Allocate(2000)] then returns 4097. *)
Lemma Allocate_large_bumps_when_it_fits :
  Arena.Allocate sample_new_char 8 Arena.Arena [] 1
  = (4096, Arena.mk 4097 4095 [4096] 4104, [(4096, 4096)])
  /\ Arena.Allocate sample_new_char 8
       (Arena.mk 4097 4095 [4096] 4104) [(4096, 4096)] 2000
     = (4097, Arena.mk 6097 2095 [4096] 4104, [(4096, 4096)])
  /\ 2000 > Arena.kBlockSize / 4.
Proof. vm_compute. repeat split; reflexivity. Qed.

(** C6, amended.  For every [n > kBlockSize / 4] that does not fit what is
    left of the current block, [Allocate(n)] obtains one new array of exactly
    [n] bytes from the host, appends it to [blocks_] and returns it; the bump
    pointer [alloc_ptr_] and [alloc_bytes_remaining_] are unchanged. *)
Theorem Allocate_large_dedicated_slab
  (new_char : Arena.Heap -> Z -> Z) (sizeof_ptr : Z)
  (a : Arena.t) (heap : Arena.Heap) (n : Z) :
  n > Arena.kBlockSize / 4 ->
  Arena.alloc_bytes_remaining_ a < n ->
  Arena.Allocate new_char sizeof_ptr a heap n
  = (new_char heap n,
     Arena.mk (Arena.alloc_ptr_ a) (Arena.alloc_bytes_remaining_ a)
              (Arena.blocks_ a ++ [new_char heap n])
              (u64 (Arena.memory_usage_ a + u64 (n + sizeof_ptr))),
     heap ++ [(new_char heap n, n)]).
Proof.
  intros Hbig Hfit. unfold Arena.Allocate.
  change (Arena.kBlockSize / 4) with 1024 in Hbig.
  destruct (Z.leb_spec n (Arena.alloc_bytes_remaining_ a)); [lia |].
  unfold Arena.AllocateFallback.
  change (Arena.kBlockSize / 4) with 1024.
  destruct (Z.gtb_spec n 1024); [| lia].
  reflexivity.
Qed.

Lemma Allocate_large_dedicated_slab_witness :
  Arena.Allocate sample_new_char 8
    (Arena.mk 4097 4095 [4096] 4104) [(4096, 4096)] 5000
  = (8192, Arena.mk 4097 4095 [4096; 8192] 9112, [(4096, 4096); (8192, 5000)]).
Proof.
  exact (Allocate_large_dedicated_slab sample_new_char 8
           (Arena.mk 4097 4095 [4096] 4104) [(4096, 4096)] 5000
           ltac:(vm_compute; reflexivity) ltac:(vm_compute; reflexivity)).
Defined.

(** ** util/coding.cc: the encoding as a byte string *)

Lemma store8_ne (m : Mem) (p z q : Z) : q <> p -> store8 m p z q = m q.
Proof.
  intros Hne. unfold store8. destruct (Z.eqb_spec q p); [contradiction | reflexivity].
Qed.

Lemma load8_ext (m m' : Mem) (p q : Z) : m' q = m p -> load8 m' q = load8 m p.
Proof. intros E. unfold load8. rewrite E. reflexivity. Qed.

Lemma varint_more (v : Z) :
  128 <= v -> varint v = (v mod 128 + 128) :: varint (v / 128).
Proof.
  intros Hv. rewrite varint_equation_1.
  destruct (Z_ge_dec v 128); [reflexivity | lia].
Qed.

Lemma varint_last (v : Z) : v < 128 -> varint v = [v].
Proof.
  intros Hv. rewrite varint_equation_1.
  destruct (Z_ge_dec v 128); [lia | reflexivity].
Qed.

Lemma pow128_S (k : nat) : 128 ^ Z.of_nat (S k) = 128 * 128 ^ Z.of_nat k.
Proof. rewrite Nat2Z.inj_succ, Z.pow_succ_r by lia. reflexivity. Qed.

(** A value below [128^k] takes at most [k] bytes, and at least one. *)
Lemma varint_length (k : nat) : forall v,
  v < 128 ^ Z.of_nat k -> (1 <= length (varint v) <= Nat.max 1 k)%nat.
Proof.
  induction k as [| k IH]; intros v Hv.
  - rewrite varint_last by (cbn in Hv; lia). cbn. lia.
  - destruct (Z_lt_dec v 128) as [Hlt | Hge].
    + rewrite varint_last by exact Hlt. cbn. lia.
    + rewrite varint_more by lia. cbn [length].
      rewrite pow128_S in Hv.
      assert (v / 128 < 128 ^ Z.of_nat k)
        by (apply Z.div_lt_upper_bound; lia).
      specialize (IH _ H).
      destruct k as [| k]; [cbn in H; lia | lia].
Qed.

Lemma varint_nonempty (v : Z) : varint v <> [].
Proof.
  destruct (Z_lt_dec v 128).
  - rewrite varint_last by assumption. discriminate.
  - rewrite varint_more by lia. discriminate.
Qed.

(** A value that takes [n] bytes is below [128^n]. *)
Lemma varint_value_bound (v : Z) :
  0 <= v -> v < 128 ^ Z.of_nat (length (varint v)).
Proof.
  intros Hv.
  assert (G : forall k : nat, forall v, 0 <= v < 128 ^ Z.of_nat k ->
            v < 128 ^ Z.of_nat (length (varint v))).
  { clear v Hv. induction k as [| k IH]; intros v Hv.
    - rewrite varint_last by (cbn in Hv; lia). cbn in *. lia.
    - destruct (Z_lt_dec v 128) as [Hlt | Hge].
      + rewrite varint_last by exact Hlt. cbn. lia.
      + rewrite varint_more by lia. cbn [length].
        rewrite pow128_S in Hv |- *.
        assert (Hd : 0 <= v / 128 < 128 ^ Z.of_nat k).
        { split; [apply Z.div_pos; lia | apply Z.div_lt_upper_bound; lia]. }
        specialize (IH _ Hd).
        pose proof (Z.div_mod v 128 ltac:(lia)).
        pose proof (Z.mod_pos_bound v 128 ltac:(lia)). lia. }
  apply (G (Z.to_nat v + 1)%nat). split; [exact Hv |].
  pose proof (Z.pow_gt_lin_r 128 (Z.of_nat (Z.to_nat v + 1)) ltac:(lia)). lia.
Qed.

(** *** The encoders write the byte string, and nothing else *)

Lemma EncodeVarint64_loop_spec (k : nat) : forall v m ptr,
  0 <= v < 128 ^ Z.of_nat k ->
  snd (Coding.EncodeVarint64_loop m ptr v) = ptr + Z.of_nat (length (varint v))
  /\ bytes_at (fst (Coding.EncodeVarint64_loop m ptr v)) ptr (length (varint v))
     = varint v
  /\ forall q, q < ptr \/ ptr + Z.of_nat (length (varint v)) <= q ->
       fst (Coding.EncodeVarint64_loop m ptr v) q = m q.
Proof.
  induction k as [| k IH]; intros v m ptr Hv.
  - assert (v = 0) by (cbn in Hv; lia). subst v.
    rewrite EncodeVarint64_loop_last, varint_last by lia. cbn [fst snd length].
    split; [lia |]. split.
    + cbn. rewrite Z.add_0_r, load8_store8_eq. reflexivity.
    + intros q Hq. apply store8_ne. lia.
  - destruct (Z_lt_dec v 128) as [Hlt | Hge].
    + rewrite EncodeVarint64_loop_last, varint_last by lia. cbn [fst snd length].
      split; [lia |]. split.
      * cbn. rewrite Z.add_0_r, load8_store8_eq, Z.mod_small by lia. reflexivity.
      * intros q Hq. apply store8_ne. lia.
    + rewrite EncodeVarint64_loop_more, varint_more by lia.
      rewrite Z.shiftr_div_pow2 by lia. change (2 ^ 7) with 128.
      rewrite pow128_S in Hv.
      assert (Hd : 0 <= v / 128 < 128 ^ Z.of_nat k).
      { split; [apply Z.div_pos; lia | apply Z.div_lt_upper_bound; lia]. }
      destruct (IH (v / 128) (store8 m ptr (Z.lor v 128)) (ptr + 1) Hd)
        as (He & Hb & Hf).
      cbn [length]. split; [rewrite He; lia |]. split.
      * rewrite bytes_at_S, Hb. f_equal.
        rewrite (load8_ext (store8 m ptr (Z.lor v 128)) _ ptr ptr)
          by (apply Hf; lia).
        rewrite load8_store8_eq. apply lor_128_byte. lia.
      * intros q Hq. rewrite Hf by lia. apply store8_ne. lia.
Qed.

Lemma EncodeVarint64_spec (m : Mem) (dst v : Z) :
  0 <= v ->
  snd (Coding.EncodeVarint64 m dst v) = dst + Z.of_nat (length (varint v))
  /\ bytes_at (fst (Coding.EncodeVarint64 m dst v)) dst (length (varint v))
     = varint v
  /\ forall q, q < dst \/ dst + Z.of_nat (length (varint v)) <= q ->
       fst (Coding.EncodeVarint64 m dst v) q = m q.
Proof.
  intros Hv. apply (EncodeVarint64_loop_spec (Z.to_nat v + 1)).
  split; [exact Hv |].
  pose proof (Z.pow_gt_lin_r 128 (Z.of_nat (Z.to_nat v + 1)) ltac:(lia)). lia.
Qed.

(** Reads the byte at [q] back from the stores of an encoder. *)
Ltac stored_byte :=
  repeat match goal with
         | |- load8 (store8 _ ?p _) ?q = _ =>
           first [ replace q with p by lia; rewrite load8_store8_eq
                 | rewrite (load8_store8_ne _ p q) by lia ]
         end;
  first [ apply lor_128_byte; lia | apply Z.mod_small; lia ].

Ltac stored_bytes :=
  cbn [length bytes_at seq map Z.of_nat Pos.of_succ_nat Pos.succ];
  repeat (apply (f_equal2 cons); [stored_byte |]); reflexivity.

Lemma EncodeVarint32_spec (m : Mem) (dst v : Z) :
  0 <= v < 2 ^ 32 ->
  snd (Coding.EncodeVarint32 m dst v) = dst + Z.of_nat (length (varint v))
  /\ bytes_at (fst (Coding.EncodeVarint32 m dst v)) dst (length (varint v))
     = varint v
  /\ forall q, q < dst \/ dst + Z.of_nat (length (varint v)) <= q ->
       fst (Coding.EncodeVarint32 m dst v) q = m q.
Proof.
  intros Hv.
  assert (E7 : Z.shiftr v 7 = v / 128) by (apply Z.shiftr_div_pow2; lia).
  assert (E14 : Z.shiftr v 14 = v / 128 / 128)
    by (rewrite Z.div_div by lia; apply Z.shiftr_div_pow2; lia).
  assert (E21 : Z.shiftr v 21 = v / 128 / 128 / 128)
    by (rewrite !Z.div_div by lia; apply Z.shiftr_div_pow2; lia).
  assert (E28 : Z.shiftr v 28 = v / 128 / 128 / 128 / 128)
    by (rewrite !Z.div_div by lia; apply Z.shiftr_div_pow2; lia).
  unfold Coding.EncodeVarint32.
  change (Z.shiftl 1 7) with 128. change (Z.shiftl 1 14) with (128 * 128).
  change (Z.shiftl 1 21) with (128 * 128 * 128).
  change (Z.shiftl 1 28) with (128 * 128 * 128 * 128).
  change (2 ^ 32) with (128 * 128 * 128 * 128 * 16) in Hv.
  cbv zeta. rewrite E7, E14, E21, E28.
  pose proof (Z.div_mod v 128 ltac:(lia)) as D0.
  pose proof (Z.div_mod (v / 128) 128 ltac:(lia)) as D1.
  pose proof (Z.div_mod (v / 128 / 128) 128 ltac:(lia)) as D2.
  pose proof (Z.div_mod (v / 128 / 128 / 128) 128 ltac:(lia)) as D3.
  pose proof (Z.mod_pos_bound v 128 ltac:(lia)) as B0.
  pose proof (Z.mod_pos_bound (v / 128) 128 ltac:(lia)) as B1.
  pose proof (Z.mod_pos_bound (v / 128 / 128) 128 ltac:(lia)) as B2.
  pose proof (Z.mod_pos_bound (v / 128 / 128 / 128) 128 ltac:(lia)) as B3.
  destruct (Z.ltb_spec v 128) as [H1 | H1]; cbn [fst snd].
  { rewrite (varint_last v) by lia.
    split; [cbn; lia |]. split; [stored_bytes |].
    intros q Hq. cbn [length] in Hq. rewrite !store8_ne by lia. reflexivity. }
  rewrite (varint_more v) by lia.
  destruct (Z.ltb_spec v (128 * 128)) as [H2 | H2]; cbn [fst snd].
  { rewrite (varint_last (v / 128)) by lia.
    split; [cbn; lia |]. split; [stored_bytes |].
    intros q Hq. cbn [length] in Hq. rewrite !store8_ne by lia. reflexivity. }
  rewrite (varint_more (v / 128)) by lia.
  destruct (Z.ltb_spec v (128 * 128 * 128)) as [H3 | H3]; cbn [fst snd].
  { rewrite (varint_last (v / 128 / 128)) by lia.
    split; [cbn; lia |]. split; [stored_bytes |].
    intros q Hq. cbn [length] in Hq. rewrite !store8_ne by lia. reflexivity. }
  rewrite (varint_more (v / 128 / 128)) by lia.
  destruct (Z.ltb_spec v (128 * 128 * 128 * 128)) as [H4 | H4]; cbn [fst snd].
  { rewrite (varint_last (v / 128 / 128 / 128)) by lia.
    split; [cbn; lia |]. split; [stored_bytes |].
    intros q Hq. cbn [length] in Hq. rewrite !store8_ne by lia. reflexivity. }
  rewrite (varint_more (v / 128 / 128 / 128)) by lia.
  rewrite (varint_last (v / 128 / 128 / 128 / 128)) by lia.
  split; [cbn; lia |]. split; [stored_bytes |].
  intros q Hq. cbn [length] in Hq. rewrite !store8_ne by lia. reflexivity.
Qed.

(** *** The decoders read the byte string back *)

Section DecodeString.
Import Coding.
Variables (m : Mem) (limit value : Z).

Lemma dec64_cont (shift p result y : Z) :
  shift <= 63 -> p < limit -> load8 m p = y + 128 -> 0 <= y < 128 ->
  GetVarint64Ptr_loop m shift p limit result value =
  GetVarint64Ptr_loop m (shift + 7) (p + 1) limit
    (Z.lor result (u64 (Z.shiftl y shift))) value.
Proof.
  intros Hs Hp Hb Hy. rewrite GetVarint64Ptr_loop_equation_1.
  destruct (Z_le_dec shift 63); [| lia].
  destruct (Z.ltb_spec p limit); [| lia].
  cbv zeta. rewrite Hb, byte_cont_flag, byte_cont_payload by exact Hy.
  reflexivity.
Qed.

Lemma dec64_term (shift p result y : Z) :
  shift <= 63 -> p < limit -> load8 m p = y -> 0 <= y < 128 ->
  GetVarint64Ptr_loop m shift p limit result value =
  (Some (p + 1), Z.lor result (u64 (Z.shiftl y shift))).
Proof.
  intros Hs Hp Hb Hy. rewrite GetVarint64Ptr_loop_equation_1.
  destruct (Z_le_dec shift 63); [| lia].
  destruct (Z.ltb_spec p limit); [| lia].
  cbv zeta. rewrite Hb, byte_term_flag by exact Hy. reflexivity.
Qed.

Lemma shift_in_word (w s v r : Z) :
  0 <= w -> 0 <= s -> 0 <= r -> 1 <= v -> r + v * 2 ^ s < 2 ^ w -> s < w.
Proof.
  intros Hw Hs Hr Hv Hlt.
  apply (Z.pow_lt_mono_r_iff 2); [lia | lia |].
  pose proof (Z.pow_pos_nonneg 2 s ltac:(lia) Hs). nia.
Qed.

(** From [shift] on, with [result] holding the bits below [shift], the
    loop of [GetVarint64Ptr] reads the byte string of [v] and returns the
    bits of [v] placed at [shift], joined to [result]. *)
Lemma dec64_varint (k : nat) : forall v shift result p,
  0 <= v < 128 ^ Z.of_nat k ->
  0 <= shift -> 0 <= result < 2 ^ shift ->
  result + v * 2 ^ shift < 2 ^ 64 ->
  shift = 0 \/ 1 <= v ->
  bytes_at m p (length (varint v)) = varint v ->
  p + Z.of_nat (length (varint v)) <= limit ->
  GetVarint64Ptr_loop m shift p limit result value
  = (Some (p + Z.of_nat (length (varint v))), result + v * 2 ^ shift).
Proof.
  induction k as [| k IH]; intros v s r p Hv Hs Hr Hlt Hpos Hb Hl.
  - assert (v = 0) by (cbn in Hv; lia). subst v.
    destruct Hpos as [-> | ?]; [| lia].
    rewrite varint_last in * by lia. cbn [length] in *.
    rewrite bytes_at_S in Hb. injection Hb as Hb.
    rewrite (dec64_term _ _ _ 0) by lia.
    unfold u64. rewrite (lor_group 64) by lia. repeat f_equal; lia.
  - assert (Hs63 : s <= 63).
    { destruct Hpos as [-> | Hpos]; [lia |].
      pose proof (shift_in_word 64 s v r). lia. }
    destruct (Z_lt_dec v 128) as [Hlt128 | Hge].
    + rewrite varint_last in * by lia. cbn [length] in *.
      rewrite bytes_at_S in Hb. injection Hb as Hb.
      rewrite (dec64_term _ _ _ v) by lia.
      unfold u64. rewrite (lor_group 64) by lia. repeat f_equal; lia.
    + rewrite varint_more in * by lia. cbn [length] in *.
      rewrite bytes_at_S in Hb. injection Hb as Hb0 Hb.
      rewrite pow128_S in Hv.
      pose proof (Z.div_mod v 128 ltac:(lia)) as D.
      pose proof (Z.mod_pos_bound v 128 ltac:(lia)) as B.
      assert (Hd : 0 <= v / 128 < 128 ^ Z.of_nat k).
      { split; [apply Z.div_pos; lia | apply Z.div_lt_upper_bound; lia]. }
      assert (H1 : 1 <= v / 128) by (apply Z.div_le_lower_bound; lia).
      pose proof (Z.pow_pos_nonneg 2 s ltac:(lia) Hs) as Hp2.
      assert (E2 : 2 ^ (s + 7) = 128 * 2 ^ s)
        by (rewrite Z.pow_add_r by lia; change (2 ^ 7) with 128; lia).
      rewrite (dec64_cont _ _ _ (v mod 128)) by lia.
      unfold u64. rewrite (lor_group 64) by nia.
      rewrite (IH (v / 128) (s + 7) _ (p + 1));
        try assumption; try lia; try (rewrite E2; nia).
      apply (f_equal2 pair); [f_equal; lia |]. rewrite E2. nia.
Qed.

(** The loop of [GetVarint32PtrFallback] does the same within 32 bits: what
    the last byte holds above bit 31 is dropped. *)
Lemma dec32_varint (k : nat) : forall v shift result p,
  0 <= v < 128 ^ Z.of_nat k ->
  0 <= shift -> shift mod 7 = 0 -> 0 <= result < 2 ^ shift ->
  v * 2 ^ shift < 2 ^ 35 ->
  shift = 0 \/ 1 <= v ->
  bytes_at m p (length (varint v)) = varint v ->
  p + Z.of_nat (length (varint v)) <= limit ->
  GetVarint32PtrFallback_loop m shift p limit result value
  = (Some (p + Z.of_nat (length (varint v))), (result + v * 2 ^ shift) mod 2 ^ 32).
Proof.
  assert (Hterm : forall v s r p,
    0 <= v < 128 -> 0 <= s -> s mod 7 = 0 -> 0 <= r < 2 ^ s ->
    v * 2 ^ s < 2 ^ 35 -> s = 0 \/ 1 <= v ->
    bytes_at m p (length (varint v)) = varint v ->
    p + Z.of_nat (length (varint v)) <= limit ->
    GetVarint32PtrFallback_loop m s p limit r value
    = (Some (p + Z.of_nat (length (varint v))), (r + v * 2 ^ s) mod 2 ^ 32)).
  { intros v s r p Hv Hs Hm Hr Hlt Hpos Hb Hl.
    pose proof (Z.div_mod s 7 ltac:(lia)) as Hs7. rewrite Hm in Hs7.
    rewrite varint_last in * by lia. cbn [length] in *.
    rewrite bytes_at_S in Hb. injection Hb as Hb.
    assert (Hs28 : s <= 28).
    { destruct Hpos as [-> | Hpos]; [lia |].
      assert (s < 35)
        by (apply (shift_in_word 35 s v 0);
            [lia | lia | lia | lia | rewrite Z.add_0_l; exact Hlt]).
      lia. }
    rewrite (dec32_term _ _ _ _ _ _ v) by lia.
    apply (f_equal2 pair); [f_equal; lia |].
    assert (Hcase : s = 0 \/ s = 7 \/ s = 14 \/ s = 21 \/ s = 28) by lia.
    unfold u32.
    destruct Hcase as [-> | [-> | [-> | [-> | ->]]]].
    - change (2 ^ 0) with 1 in *. assert (r = 0) by lia. subst r.
      rewrite Z.lor_0_l, Z.shiftl_mul_pow2 by lia. reflexivity.
    - change (2 ^ 7) with 128 in *. change (2 ^ 35) with 34359738368 in *.
      rewrite (lor_group 32), Z.mod_small;
        change (2 ^ 7) with 128; change (2 ^ 32) with 4294967296; lia.
    - change (2 ^ 14) with 16384 in *. change (2 ^ 35) with 34359738368 in *.
      rewrite (lor_group 32), Z.mod_small;
        change (2 ^ 14) with 16384; change (2 ^ 32) with 4294967296; lia.
    - change (2 ^ 21) with 2097152 in *. change (2 ^ 35) with 34359738368 in *.
      rewrite (lor_group 32), Z.mod_small;
        change (2 ^ 21) with 2097152; change (2 ^ 32) with 4294967296; lia.
    - rewrite Z.shiftl_mul_pow2 by lia.
      change (2 ^ 28) with 268435456 in *. change (2 ^ 32) with 4294967296.
      assert (E : (v * 268435456) mod 4294967296 = (v mod 16) * 268435456)
        by (change 4294967296 with (16 * 268435456);
            apply Z.mul_mod_distr_r; lia).
      pose proof (Z.div_mod v 16 ltac:(lia)) as D16.
      pose proof (Z.mod_pos_bound v 16 ltac:(lia)) as B16.
      rewrite E. change 268435456 with (2 ^ 28) at 1.
      rewrite <- Z.shiftl_mul_pow2 by lia. rewrite lor_low_high.
      + change (2 ^ 28) with 268435456.
        apply (Z.mod_unique_pos _ _ (v / 16)); lia.
      + lia.
      + change (2 ^ 28) with 268435456. lia. }
  induction k as [| k IH]; intros v s r p Hv Hs Hm Hr Hlt Hpos Hb Hl.
  - apply Hterm; try assumption. cbn in Hv. lia.
  - destruct (Z_lt_dec v 128) as [Hlt128 | Hge].
    + apply Hterm; try assumption. lia.
    + rewrite varint_more in * by lia. cbn [length] in *.
      rewrite bytes_at_S in Hb. injection Hb as Hb0 Hb.
      rewrite pow128_S in Hv.
      pose proof (Z.div_mod v 128 ltac:(lia)) as D.
      pose proof (Z.mod_pos_bound v 128 ltac:(lia)) as B.
      assert (Hd : 0 <= v / 128 < 128 ^ Z.of_nat k).
      { split; [apply Z.div_pos; lia | apply Z.div_lt_upper_bound; lia]. }
      assert (H1 : 1 <= v / 128) by (apply Z.div_le_lower_bound; lia).
      pose proof (Z.pow_pos_nonneg 2 s ltac:(lia) Hs) as Hp2.
      assert (E2 : 2 ^ (s + 7) = 128 * 2 ^ s)
        by (rewrite Z.pow_add_r by lia; change (2 ^ 7) with 128; lia).
      pose proof (Z.div_mod s 7 ltac:(lia)) as Hs7. rewrite Hm in Hs7.
      assert (Hm7 : (s + 7) mod 7 = 0)
        by (replace (s + 7) with (s + 1 * 7) by lia;
            rewrite Z.mod_add by lia; exact Hm).
      assert (Hs21 : s <= 21).
      { assert (128 * 2 ^ s < 2 ^ 35) by nia. rewrite <- E2 in H.
        apply (Z.pow_lt_mono_r_iff 2) in H; lia. }
      assert (Hlow : 2 ^ (s + 7) <= 2 ^ 28) by (apply Z.pow_le_mono_r; lia).
      change (2 ^ 28) with 268435456 in Hlow.
      rewrite (dec32_cont _ _ _ _ _ _ (v mod 128)) by lia.
      unfold u32. rewrite (lor_group 32) by (change (2 ^ 32) with 4294967296; nia).
      rewrite (IH (v / 128) (s + 7) _ (p + 1));
        try assumption; try lia; try (rewrite E2; nia).
      apply (f_equal2 pair); [f_equal; lia |]. f_equal. rewrite E2. nia.
Qed.

End DecodeString.

Lemma pow128_large (v : Z) : 0 <= v -> v < 128 ^ Z.of_nat (Z.to_nat v + 1).
Proof.
  intros Hv.
  pose proof (Z.pow_gt_lin_r 128 (Z.of_nat (Z.to_nat v + 1)) ltac:(lia)). lia.
Qed.

Lemma GetVarint64Ptr_varint (m : Mem) (p limit value v : Z) :
  0 <= v < 2 ^ 64 ->
  bytes_at m p (length (varint v)) = varint v ->
  p + Z.of_nat (length (varint v)) <= limit ->
  Coding.GetVarint64Ptr m p limit value
  = (Some (p + Z.of_nat (length (varint v))), v).
Proof.
  intros Hv Hb Hl. unfold Coding.GetVarint64Ptr. cbv zeta.
  rewrite (dec64_varint m limit value (Z.to_nat v + 1) v 0 0 p);
    try assumption; try (change (2 ^ 0) with 1; lia).
  - f_equal. lia.
  - split; [lia | apply pow128_large; lia].
Qed.

Lemma GetVarint32PtrFallback_varint (m : Mem) (p limit value v : Z) :
  0 <= v < 2 ^ 35 ->
  bytes_at m p (length (varint v)) = varint v ->
  p + Z.of_nat (length (varint v)) <= limit ->
  Coding.GetVarint32PtrFallback m p limit value
  = (Some (p + Z.of_nat (length (varint v))), v mod 2 ^ 32).
Proof.
  intros Hv Hb Hl. unfold Coding.GetVarint32PtrFallback. cbv zeta.
  rewrite (dec32_varint m limit value (Z.to_nat v + 1) v 0 0 p);
    try assumption; try (change (2 ^ 0) with 1; lia).
  - do 2 f_equal. lia.
  - split; [lia | apply pow128_large; lia].
  - reflexivity.
Qed.

(** *** [VarintLength] counts the bytes of the string *)

Lemma VarintLength_loop_varint (k : nat) : forall v len,
  0 <= v < 128 ^ Z.of_nat k ->
  Coding.VarintLength_loop v len = len + Z.of_nat (length (varint v)) - 1.
Proof.
  induction k as [| k IH]; intros v len Hv;
    rewrite Coding.VarintLength_loop_equation_1;
    destruct (Z_ge_dec v 128) as [Hge | Hlt].
  - cbn in Hv. lia.
  - rewrite varint_last by lia. cbn. lia.
  - rewrite varint_more by lia. cbn [length].
    rewrite Z.shiftr_div_pow2 by lia. change (2 ^ 7) with 128.
    rewrite pow128_S in Hv.
    rewrite IH by (split; [apply Z.div_pos; lia | apply Z.div_lt_upper_bound; lia]).
    lia.
  - rewrite varint_last by lia. cbn. lia.
Qed.

Lemma VarintLength_varint (v : Z) :
  0 <= v -> Coding.VarintLength v = Z.of_nat (length (varint v)).
Proof.
  intros Hv. unfold Coding.VarintLength. cbv zeta.
  rewrite (VarintLength_loop_varint (Z.to_nat v + 1))
    by (split; [lia | apply pow128_large; lia]).
  lia.
Qed.

Lemma pow2_7 (n : Z) : 0 <= n -> 2 ^ (7 * n) = 128 ^ n.
Proof. intros Hn. rewrite Z.pow_mul_r by lia. reflexivity. Qed.

Lemma varint_length_le (v : Z) (n : nat) :
  0 <= v -> (1 <= n)%nat ->
  (length (varint v) <= n)%nat <-> v < 128 ^ Z.of_nat n.
Proof.
  intros Hv Hn. split.
  - intros Hl. eapply Z.lt_le_trans; [apply varint_value_bound; exact Hv |].
    apply Z.pow_le_mono_r; lia.
  - intros Hlt. pose proof (varint_length n v Hlt). lia.
Qed.

(** ** util/coding.cc: the 64-bit codec *)

(** [EncodeVarint64] followed by [GetVarint64Ptr]: for every [v] below
    [2^64], decoding the bytes the encoder wrote, with a limit at or past
    their end, succeeds, yields [v] and returns the position the encoder
    returned; the encoding is between one and ten bytes long. *)
Theorem varint64_roundtrip (m : Mem) (dst v limit value : Z) :
  0 <= v < 2 ^ 64 ->
  snd (Coding.EncodeVarint64 m dst v) <= limit ->
  Coding.GetVarint64Ptr (fst (Coding.EncodeVarint64 m dst v)) dst limit value
  = (Some (snd (Coding.EncodeVarint64 m dst v)), v)
  /\ 1 <= snd (Coding.EncodeVarint64 m dst v) - dst <= 10.
Proof.
  intros Hv Hl.
  destruct (EncodeVarint64_spec m dst v ltac:(lia)) as (He & Hb & _).
  rewrite He in *. split.
  - apply GetVarint64Ptr_varint; assumption.
  - pose proof (varint_length 10 v ltac:(change (128 ^ Z.of_nat 10) with (2 ^ 70); lia)).
    lia.
Qed.

Lemma varint64_roundtrip_witness :
  Coding.GetVarint64Ptr
    (fst (Coding.EncodeVarint64 (fun _ => Byte.x00) 10 18446744073709551615))
    10 20 0
  = (Some (snd (Coding.EncodeVarint64 (fun _ => Byte.x00) 10 18446744073709551615)),
     18446744073709551615)
  /\ 1 <= snd (Coding.EncodeVarint64 (fun _ => Byte.x00) 10 18446744073709551615) - 10
     <= 10.
Proof.
  apply (varint64_roundtrip (fun _ => Byte.x00) 10 18446744073709551615 20 0).
  - lia.
  - vm_compute. discriminate.
Defined.

(** [VarintLength(v)] is the number of bytes both encoders write for [v]:
    each returns its destination advanced by that many bytes.  It is
    between 1 and 10, and it is at most [n] exactly when [v] fits in [7 * n]
    bits. *)
Theorem VarintLength_encoded_length (m : Mem) (dst v : Z) :
  0 <= v < 2 ^ 64 ->
  snd (Coding.EncodeVarint64 m dst v) = dst + Coding.VarintLength v
  /\ (v < 2 ^ 32 -> snd (Coding.EncodeVarint32 m dst v) = dst + Coding.VarintLength v)
  /\ 1 <= Coding.VarintLength v <= 10
  /\ (forall n, 1 <= n -> Coding.VarintLength v <= n <-> v < 2 ^ (7 * n)).
Proof.
  intros Hv. rewrite VarintLength_varint by lia.
  destruct (EncodeVarint64_spec m dst v ltac:(lia)) as (He & _ & _).
  split; [exact He |]. split.
  - intros Hv32. apply EncodeVarint32_spec. lia.
  - split.
    + pose proof (varint_length 10 v
                    ltac:(change (128 ^ Z.of_nat 10) with (2 ^ 70); lia)).
      lia.
    + intros n Hn. rewrite pow2_7 by lia.
      rewrite <- (Z2Nat.id n) at 2 by lia.
      rewrite <- (varint_length_le v (Z.to_nat n)) by lia. lia.
Qed.

Lemma VarintLength_encoded_length_witness :
  snd (Coding.EncodeVarint64 (fun _ => Byte.x00) 10 300) = 10 + Coding.VarintLength 300
  /\ (300 < 2 ^ 32 ->
      snd (Coding.EncodeVarint32 (fun _ => Byte.x00) 10 300)
      = 10 + Coding.VarintLength 300)
  /\ 1 <= Coding.VarintLength 300 <= 10
  /\ (forall n, 1 <= n -> Coding.VarintLength 300 <= n <-> 300 < 2 ^ (7 * n)).
Proof.
  apply (VarintLength_encoded_length (fun _ => Byte.x00) 10 300). lia.
Defined.

(** The encoders write the [VarintLength(v)] bytes from [dst] on and no
    other byte of memory. *)
Theorem EncodeVarint_frame (m : Mem) (dst v q : Z) :
  0 <= v < 2 ^ 64 ->
  q < dst \/ dst + Coding.VarintLength v <= q ->
  fst (Coding.EncodeVarint64 m dst v) q = m q
  /\ (v < 2 ^ 32 -> fst (Coding.EncodeVarint32 m dst v) q = m q).
Proof.
  intros Hv Hq. rewrite VarintLength_varint in Hq by lia. split.
  - apply EncodeVarint64_spec; [lia | exact Hq].
  - intros Hv32. apply EncodeVarint32_spec; [lia | exact Hq].
Qed.

Lemma EncodeVarint_frame_witness :
  fst (Coding.EncodeVarint64 (fun _ => Byte.x2a) 10 300) 12 = Byte.x2a
  /\ (300 < 2 ^ 32 -> fst (Coding.EncodeVarint32 (fun _ => Byte.x2a) 10 300) 12 = Byte.x2a).
Proof.
  apply (EncodeVarint_frame (fun _ => Byte.x2a) 10 300 12).
  - lia.
  - right. vm_compute. discriminate.
Defined.

(** [GetVarint32PtrFallback] does not reject a five-byte encoding whose
    value needs more than 32 bits: on the bytes [EncodeVarint64] wrote for
    a [v] in [[2^32, 2^35)] it succeeds, consumes the five bytes and yields
    [v mod 2^32], which is not [v]; the bits of the fifth byte above bit 31
    are dropped. *)
Theorem GetVarint32_truncates (m : Mem) (dst v limit value : Z) :
  2 ^ 32 <= v < 2 ^ 35 ->
  snd (Coding.EncodeVarint64 m dst v) <= limit ->
  Coding.GetVarint32PtrFallback (fst (Coding.EncodeVarint64 m dst v)) dst limit value
  = (Some (dst + 5), v mod 2 ^ 32)
  /\ snd (Coding.EncodeVarint64 m dst v) = dst + 5
  /\ v mod 2 ^ 32 < v.
Proof.
  intros Hv Hl.
  destruct (EncodeVarint64_spec m dst v ltac:(lia)) as (He & Hb & _).
  assert (Hlen : length (varint v) = 5%nat).
  { pose proof (varint_length 5 v ltac:(change (128 ^ Z.of_nat 5) with (2 ^ 35); lia)).
    pose proof (varint_value_bound v ltac:(lia)) as Hub.
    destruct (length (varint v)) as [| [| [| [| [| n]]]]] eqn:E; try lia.
    all: exfalso; revert Hub;
      match goal with
      | |- context [128 ^ Z.of_nat ?k] =>
        let c := eval vm_compute in (128 ^ Z.of_nat k) in
        change (128 ^ Z.of_nat k) with c
      end; change (2 ^ 32) with 4294967296 in Hv; lia. }
  rewrite He in Hl. rewrite Hlen in *.
  rewrite (GetVarint32PtrFallback_varint _ dst limit value v);
    [| lia | rewrite Hlen; exact Hb | rewrite Hlen; exact Hl].
  rewrite Hlen.
  split; [reflexivity |]. split; [exact He |].
  pose proof (Z.mod_pos_bound v (2 ^ 32) ltac:(lia)). lia.
Qed.

Lemma GetVarint32_truncates_witness :
  Coding.GetVarint32PtrFallback
    (fst (Coding.EncodeVarint64 (fun _ => Byte.x00) 10 4294967301)) 10 15 0
  = (Some (10 + 5), 4294967301 mod 2 ^ 32)
  /\ snd (Coding.EncodeVarint64 (fun _ => Byte.x00) 10 4294967301) = 10 + 5
  /\ 4294967301 mod 2 ^ 32 < 4294967301.
Proof.
  apply (GetVarint32_truncates (fun _ => Byte.x00) 10 4294967301 15 0).
  - lia.
  - vm_compute. discriminate.
Defined.

(** ** util/coding.cc: what a decoder reads *)

Lemma lor_range (a b n : Z) :
  0 <= n -> 0 <= a < 2 ^ n -> 0 <= b < 2 ^ n -> 0 <= Z.lor a b < 2 ^ n.
Proof.
  intros Hn Ha Hb. split; [apply Z.lor_nonneg; lia |].
  destruct (Z.eq_dec (Z.lor a b) 0) as [-> | Hne]; [lia |].
  assert (Hpos : 0 < Z.lor a b)
    by (pose proof (proj2 (Z.lor_nonneg a b) ltac:(lia)); lia).
  apply Z.log2_lt_pow2; [exact Hpos |].
  rewrite Z.log2_lor by lia.
  assert (Hn0 : 0 < n).
  { destruct (Z.eq_dec n 0) as [-> |]; [| lia].
    change (2 ^ 0) with 1 in *. assert (a = 0) by lia. assert (b = 0) by lia.
    subst. cbn in Hne. contradiction. }
  assert (La : Z.log2 a < n).
  { destruct (Z.eq_dec a 0) as [-> |]; [cbn; lia |].
    apply Z.log2_lt_pow2; lia. }
  assert (Lb : Z.log2 b < n).
  { destruct (Z.eq_dec b 0) as [-> |]; [cbn; lia |].
    apply Z.log2_lt_pow2; lia. }
  lia.
Qed.

Section DecodeReads.
Import Coding.
Variables (m : Mem) (limit value : Z).

(** A successful decode ends after the start and not after [limit], within
    the byte budget, with a value of the word's width. *)
Lemma dec32_bounds (k : nat) : forall shift p result q v,
  35 - 7 * Z.of_nat k <= shift -> 0 <= result < 2 ^ 32 ->
  GetVarint32PtrFallback_loop m shift p limit result value = (Some q, v) ->
  p < q <= limit /\ q - p <= Z.of_nat k /\ 0 <= v < 2 ^ 32.
Proof.
  induction k as [| k IH]; intros s p r q v Hs Hr.
  - rewrite dec32_stop by lia. discriminate.
  - rewrite GetVarint32PtrFallback_loop_equation_1.
    destruct (Z_le_dec s 28); [| discriminate].
    destruct (Z.ltb_spec p limit) as [Hp | Hp]; [| discriminate].
    cbv zeta.
    assert (Hu : forall x, 0 <= u32 x < 2 ^ 32)
      by (intros x; apply Z.mod_pos_bound; lia).
    destruct (negb _).
    + intros Hloop. apply IH in Hloop; [lia | lia |].
      apply lor_range; [lia | exact Hr | apply Hu].
    + intros Hloop. injection Hloop as <- <-.
      split; [lia |]. split; [lia |].
      apply lor_range; [lia | exact Hr | apply Hu].
Qed.

Lemma dec64_bounds (k : nat) : forall shift p result q v,
  70 - 7 * Z.of_nat k <= shift -> 0 <= result < 2 ^ 64 ->
  GetVarint64Ptr_loop m shift p limit result value = (Some q, v) ->
  p < q <= limit /\ q - p <= Z.of_nat k /\ 0 <= v < 2 ^ 64.
Proof.
  induction k as [| k IH]; intros s p r q v Hs Hr.
  - rewrite dec64_stop by lia. discriminate.
  - rewrite GetVarint64Ptr_loop_equation_1.
    destruct (Z_le_dec s 63); [| discriminate].
    destruct (Z.ltb_spec p limit) as [Hp | Hp]; [| discriminate].
    cbv zeta.
    assert (Hu : forall x, 0 <= u64 x < 2 ^ 64)
      by (intros x; apply Z.mod_pos_bound; lia).
    destruct (negb _).
    + intros Hloop. apply IH in Hloop; [lia | lia |].
      apply lor_range; [lia | exact Hr | apply Hu].
    + intros Hloop. injection Hloop as <- <-.
      split; [lia |]. split; [lia |].
      apply lor_range; [lia | exact Hr | apply Hu].
Qed.

Variable m' : Mem.

(** The loops read no byte outside [[p, limit)]. *)
Lemma dec32_local (k : nat) : forall shift p result,
  35 - 7 * Z.of_nat k <= shift ->
  (forall a, p <= a < limit -> load8 m' a = load8 m a) ->
  GetVarint32PtrFallback_loop m' shift p limit result value
  = GetVarint32PtrFallback_loop m shift p limit result value.
Proof.
  induction k as [| k IH]; intros s p r Hs Hm.
  - rewrite !dec32_stop by lia. reflexivity.
  - rewrite (GetVarint32PtrFallback_loop_equation_1 m'),
            (GetVarint32PtrFallback_loop_equation_1 m).
    destruct (Z_le_dec s 28); [| reflexivity].
    destruct (Z.ltb_spec p limit) as [Hp | Hp]; [| reflexivity].
    cbv zeta. rewrite Hm by lia.
    destruct (negb _); [| reflexivity].
    apply IH; [lia |]. intros a Ha. apply Hm. lia.
Qed.

Lemma dec64_local (k : nat) : forall shift p result,
  70 - 7 * Z.of_nat k <= shift ->
  (forall a, p <= a < limit -> load8 m' a = load8 m a) ->
  GetVarint64Ptr_loop m' shift p limit result value
  = GetVarint64Ptr_loop m shift p limit result value.
Proof.
  induction k as [| k IH]; intros s p r Hs Hm.
  - rewrite !dec64_stop by lia. reflexivity.
  - rewrite (GetVarint64Ptr_loop_equation_1 m'),
            (GetVarint64Ptr_loop_equation_1 m).
    destruct (Z_le_dec s 63); [| reflexivity].
    destruct (Z.ltb_spec p limit) as [Hp | Hp]; [| reflexivity].
    cbv zeta. rewrite Hm by lia.
    destruct (negb _); [| reflexivity].
    apply IH; [lia |]. intros a Ha. apply Hm. lia.
Qed.

End DecodeReads.

Lemma GetVarint32PtrFallback_bounds (m : Mem) (p limit value q v : Z) :
  Coding.GetVarint32PtrFallback m p limit value = (Some q, v) ->
  p < q <= limit /\ q - p <= 5 /\ 0 <= v < 2 ^ 32.
Proof.
  intros H. apply (dec32_bounds m limit value 5 0 p 0 q v); [lia | lia | exact H].
Qed.

Lemma GetVarint64Ptr_bounds (m : Mem) (p limit value q v : Z) :
  Coding.GetVarint64Ptr m p limit value = (Some q, v) ->
  p < q <= limit /\ q - p <= 10 /\ 0 <= v < 2 ^ 64.
Proof.
  intros H. apply (dec64_bounds m limit value 10 0 p 0 q v); [lia | lia | exact H].
Qed.

(** The two decoders stay within [[p, limit)]: their outcome is the same in
    any memory that holds the same bytes there, and when they succeed the
    returned position [q] satisfies [p < q <= limit], at most 5 (resp. 10)
    bytes were consumed and the value fits in 32 (resp. 64) bits. *)
Theorem GetVarint_within_limit (m m' : Mem) (p limit value : Z) :
  (forall a, p <= a < limit -> load8 m' a = load8 m a) ->
  Coding.GetVarint32PtrFallback m' p limit value
  = Coding.GetVarint32PtrFallback m p limit value
  /\ Coding.GetVarint64Ptr m' p limit value = Coding.GetVarint64Ptr m p limit value
  /\ (forall q v, Coding.GetVarint32PtrFallback m p limit value = (Some q, v) ->
        p < q <= limit /\ q - p <= 5 /\ 0 <= v < 2 ^ 32)
  /\ (forall q v, Coding.GetVarint64Ptr m p limit value = (Some q, v) ->
        p < q <= limit /\ q - p <= 10 /\ 0 <= v < 2 ^ 64).
Proof.
  intros Hm. split; [| split; [| split]].
  - apply (dec32_local m limit value m' 5); [lia | exact Hm].
  - apply (dec64_local m limit value m' 10); [lia | exact Hm].
  - intros q v. apply GetVarint32PtrFallback_bounds.
  - intros q v. apply GetVarint64Ptr_bounds.
Qed.

Lemma GetVarint_within_limit_witness :
  Coding.GetVarint32PtrFallback
    (store8 (store8 (fun _ => Byte.x85) 11 5) 13 0) 10 13 0
  = Coding.GetVarint32PtrFallback (store8 (fun _ => Byte.x85) 11 5) 10 13 0
  /\ Coding.GetVarint64Ptr (store8 (store8 (fun _ => Byte.x85) 11 5) 13 0) 10 13 0
     = Coding.GetVarint64Ptr (store8 (fun _ => Byte.x85) 11 5) 10 13 0
  /\ (forall q v,
        Coding.GetVarint32PtrFallback (store8 (fun _ => Byte.x85) 11 5) 10 13 0
        = (Some q, v) ->
        10 < q <= 13 /\ q - 10 <= 5 /\ 0 <= v < 2 ^ 32)
  /\ (forall q v,
        Coding.GetVarint64Ptr (store8 (fun _ => Byte.x85) 11 5) 10 13 0
        = (Some q, v) ->
        10 < q <= 13 /\ q - 10 <= 10 /\ 0 <= v < 2 ^ 64).
Proof.
  apply (GetVarint_within_limit (store8 (fun _ => Byte.x85) 11 5)
           (store8 (store8 (fun _ => Byte.x85) 11 5) 13 0) 10 13 0).
  intros a Ha. apply load8_store8_ne. lia.
Defined.

(** ** util/coding.cc: strings written by [Put...] and read by [Get...] *)

Lemma bytes_at_split (m : Mem) (p : Z) (n : nat) (l1 l2 : list Z) :
  bytes_at m p n = l1 ++ l2 ->
  bytes_at m p (length l1) = l1
  /\ bytes_at m (p + Z.of_nat (length l1)) (length l2) = l2
  /\ n = (length l1 + length l2)%nat.
Proof.
  intros H.
  assert (Hn : n = (length l1 + length l2)%nat)
    by (rewrite <- length_app, <- H, bytes_at_length; reflexivity).
  subst n. rewrite bytes_at_app in H.
  apply app_inj_1 in H; [| apply bytes_at_length].
  destruct H as [H1 H2]. auto.
Qed.

Lemma PutVarint64_varint (m : Mem) (buf : Z) (dst : list Z) (v : Z) :
  0 <= v -> Coding.PutVarint64 m buf dst v = dst ++ varint v.
Proof.
  intros Hv. unfold Coding.PutVarint64, Coding.string_append.
  destruct (EncodeVarint64_spec m buf v Hv) as (He & Hb & _).
  destruct (Coding.EncodeVarint64 m buf v) as [m1 e]. cbn [fst snd] in *.
  subst e. replace (buf + Z.of_nat (length (varint v)) - buf)
    with (Z.of_nat (length (varint v))) by lia.
  rewrite Nat2Z.id, Hb. reflexivity.
Qed.

Lemma PutVarint32_varint (m : Mem) (buf : Z) (dst : list Z) (v : Z) :
  0 <= v < 2 ^ 32 -> Coding.PutVarint32 m buf dst v = dst ++ varint v.
Proof.
  intros Hv. unfold Coding.PutVarint32, Coding.string_append.
  destruct (EncodeVarint32_spec m buf v Hv) as (He & Hb & _).
  destruct (Coding.EncodeVarint32 m buf v) as [m1 e]. cbn [fst snd] in *.
  subst e. replace (buf + Z.of_nat (length (varint v)) - buf)
    with (Z.of_nat (length (varint v))) by lia.
  rewrite Nat2Z.id, Hb. reflexivity.
Qed.

(** A slice whose bytes start with the string of [v] holds that string at
    its start and has room for it. *)
Lemma slice_holds_varint (m : Mem) (s : Slice.t) (v : Z) (rest : list Z) :
  Slice.bytes m s = varint v ++ rest ->
  bytes_at m (Slice.data_ s) (length (varint v)) = varint v
  /\ Z.of_nat (length (varint v)) <= Slice.size_ s
  /\ Slice.bytes m (Slice.mk (Slice.data_ s + Z.of_nat (length (varint v)))
                              (Slice.size_ s - Z.of_nat (length (varint v))))
     = rest.
Proof.
  intros H. unfold Slice.bytes in *.
  apply bytes_at_split in H as (H1 & H2 & Hn).
  assert (Hne : (1 <= length (varint v))%nat).
  { destruct (varint v) eqn:E; [exfalso; exact (varint_nonempty v E) | cbn; lia]. }
  split; [exact H1 |]. split; [lia |].
  cbn [Slice.data_ Slice.size_].
  replace (Z.to_nat (Slice.size_ s - Z.of_nat (length (varint v))))
    with (length rest) by lia.
  exact H2.
Qed.

(** [PutVarint64] then [GetVarint64]: [PutVarint64] appends the
    [VarintLength(v)] bytes of [v] to the string and keeps what was there;
    [GetVarint64] on a slice whose bytes start with those bytes returns
    [true], stores [v], and advances the slice past them, to the bytes that
    follow. *)
Theorem PutVarint64_GetVarint64
  (m0 : Mem) (buf : Z) (dst : list Z) (v : Z)
  (m : Mem) (s : Slice.t) (rest : list Z) (value : Z) :
  0 <= v < 2 ^ 64 ->
  Slice.bytes m s = Coding.PutVarint64 m0 buf [] v ++ rest ->
  Coding.PutVarint64 m0 buf dst v = dst ++ Coding.PutVarint64 m0 buf [] v
  /\ Z.of_nat (length (Coding.PutVarint64 m0 buf [] v)) = Coding.VarintLength v
  /\ exists s',
       Coding.GetVarint64 m s value = (true, s', v)
       /\ Slice.data s' = Slice.data s + Coding.VarintLength v
       /\ Slice.size s' = Slice.size s - Coding.VarintLength v
       /\ Slice.bytes m s' = rest.
Proof.
  intros Hv Hs. rewrite !PutVarint64_varint in * by lia. cbn [app] in *.
  rewrite VarintLength_varint by lia.
  split; [reflexivity |]. split; [reflexivity |].
  destruct (slice_holds_varint m s v rest Hs) as (Hb & Hl & Hr).
  unfold Coding.GetVarint64, Slice.data, Slice.size.
  rewrite (GetVarint64Ptr_varint m _ _ value v Hv Hb) by lia.
  eexists. split; [reflexivity |]. cbn [Slice.data_ Slice.size_].
  split; [reflexivity |]. split; [lia |].
  rewrite <- Hr. f_equal. f_equal. lia.
Qed.

Lemma PutVarint64_GetVarint64_witness :
  Coding.PutVarint64 (fun _ => Byte.x00) 0 [7] 300
  = [7] ++ Coding.PutVarint64 (fun _ => Byte.x00) 0 [] 300
  /\ Z.of_nat (length (Coding.PutVarint64 (fun _ => Byte.x00) 0 [] 300))
     = Coding.VarintLength 300
  /\ exists s',
       Coding.GetVarint64 (fst (Coding.EncodeVarint64 (fun _ => Byte.x09) 100 300))
         (Slice.mk 100 3) 0 = (true, s', 300)
       /\ Slice.data s' = Slice.data (Slice.mk 100 3) + Coding.VarintLength 300
       /\ Slice.size s' = Slice.size (Slice.mk 100 3) - Coding.VarintLength 300
       /\ Slice.bytes (fst (Coding.EncodeVarint64 (fun _ => Byte.x09) 100 300)) s'
          = [9].
Proof.
  apply (PutVarint64_GetVarint64 (fun _ => Byte.x00) 0 [7] 300
           (fst (Coding.EncodeVarint64 (fun _ => Byte.x09) 100 300))
           (Slice.mk 100 3) [9] 0).
  - lia.
  - vm_compute. reflexivity.
Defined.

(** [PutVarint32] then [GetVarint32], likewise, for [v] below [2^32]. *)
Theorem PutVarint32_GetVarint32
  (m0 : Mem) (buf : Z) (dst : list Z) (v : Z)
  (m : Mem) (s : Slice.t) (rest : list Z) (value : Z) :
  0 <= v < 2 ^ 32 ->
  Slice.bytes m s = Coding.PutVarint32 m0 buf [] v ++ rest ->
  Coding.PutVarint32 m0 buf dst v = dst ++ Coding.PutVarint32 m0 buf [] v
  /\ Z.of_nat (length (Coding.PutVarint32 m0 buf [] v)) = Coding.VarintLength v
  /\ exists s',
       Coding.GetVarint32 m s value = (true, s', v)
       /\ Slice.data s' = Slice.data s + Coding.VarintLength v
       /\ Slice.size s' = Slice.size s - Coding.VarintLength v
       /\ Slice.bytes m s' = rest.
Proof.
  intros Hv Hs. rewrite !PutVarint32_varint in * by lia. cbn [app] in *.
  rewrite VarintLength_varint by lia.
  split; [reflexivity |]. split; [reflexivity |].
  destruct (slice_holds_varint m s v rest Hs) as (Hb & Hl & Hr).
  unfold Coding.GetVarint32, Coding.GetVarint32Ptr, Slice.data, Slice.size.
  rewrite (GetVarint32PtrFallback_varint m _ _ value v) by (try assumption; lia).
  rewrite Z.mod_small by lia.
  eexists. split; [reflexivity |]. cbn [Slice.data_ Slice.size_].
  split; [reflexivity |]. split; [lia |].
  rewrite <- Hr. f_equal. f_equal. lia.
Qed.

Lemma PutVarint32_GetVarint32_witness :
  Coding.PutVarint32 (fun _ => Byte.x00) 0 [7] 300
  = [7] ++ Coding.PutVarint32 (fun _ => Byte.x00) 0 [] 300
  /\ Z.of_nat (length (Coding.PutVarint32 (fun _ => Byte.x00) 0 [] 300))
     = Coding.VarintLength 300
  /\ exists s',
       Coding.GetVarint32 (fst (Coding.EncodeVarint32 (fun _ => Byte.x09) 100 300))
         (Slice.mk 100 3) 0 = (true, s', 300)
       /\ Slice.data s' = Slice.data (Slice.mk 100 3) + Coding.VarintLength 300
       /\ Slice.size s' = Slice.size (Slice.mk 100 3) - Coding.VarintLength 300
       /\ Slice.bytes (fst (Coding.EncodeVarint32 (fun _ => Byte.x09) 100 300)) s'
          = [9].
Proof.
  apply (PutVarint32_GetVarint32 (fun _ => Byte.x00) 0 [7] 300
           (fst (Coding.EncodeVarint32 (fun _ => Byte.x09) 100 300))
           (Slice.mk 100 3) [9] 0).
  - lia.
  - vm_compute. reflexivity.
Defined.

(** ** util/coding.cc: length-prefixed slices *)

Lemma PutLengthPrefixedSlice_varint (m : Mem) (buf : Z) (dst : list Z)
    (value : Slice.t) :
  0 <= Slice.size value < 2 ^ 32 ->
  Coding.PutLengthPrefixedSlice m buf dst value
  = dst ++ varint (Slice.size value) ++ Slice.bytes m value.
Proof.
  intros Hv. unfold Coding.PutLengthPrefixedSlice, Coding.string_append.
  cbv zeta. unfold u32. rewrite Z.mod_small by lia.
  rewrite PutVarint32_varint by lia. rewrite <- app_assoc. reflexivity.
Qed.

(** [PutLengthPrefixedSlice] then [GetLengthPrefixedSlice]: for a slice
    [value] of fewer than [2^32] bytes, [PutLengthPrefixedSlice] appends the
    varint32 of its size and then its bytes, keeping what the string held;
    [GetLengthPrefixedSlice] on a slice [s] whose bytes start with what was
    appended returns [true], sets the result to the range of [s] that holds
    the bytes of [value], and advances [s] to the bytes that follow. *)
Theorem PutLengthPrefixedSlice_GetLengthPrefixedSlice
  (m0 : Mem) (buf : Z) (dst : list Z) (value : Slice.t)
  (m : Mem) (s : Slice.t) (rest : list Z) (result : Slice.t) (len : Z) :
  0 <= Slice.size value < 2 ^ 32 ->
  Slice.bytes m s = Coding.PutLengthPrefixedSlice m0 buf [] value ++ rest ->
  Coding.PutLengthPrefixedSlice m0 buf dst value
  = dst ++ Coding.PutLengthPrefixedSlice m0 buf [] value
  /\ Z.of_nat (length (Coding.PutLengthPrefixedSlice m0 buf [] value))
     = Coding.VarintLength (Slice.size value) + Slice.size value
  /\ exists s' result',
       Coding.GetLengthPrefixedSlice m s result len = (true, s', result')
       /\ Slice.data result' = Slice.data s + Coding.VarintLength (Slice.size value)
       /\ Slice.size result' = Slice.size value
       /\ Slice.bytes m result' = Slice.bytes m0 value
       /\ Slice.data s' = Slice.data result' + Slice.size result'
       /\ Slice.data s' + Slice.size s' = Slice.data s + Slice.size s
       /\ Slice.bytes m s' = rest.
Proof.
  intros Hv Hs. rewrite !PutLengthPrefixedSlice_varint in * by lia.
  cbn [app] in *. unfold Slice.size, Slice.data in *.
  rewrite VarintLength_varint by lia.
  set (n := Slice.size_ value) in *.
  split; [reflexivity |].
  split; [unfold Slice.bytes; rewrite length_app, bytes_at_length; lia |].
  rewrite <- app_assoc in Hs.
  destruct (slice_holds_varint m s n _ Hs) as (Hb & Hl & Hr).
  unfold Slice.bytes in Hr. cbn [Slice.data_ Slice.size_] in Hr.
  apply bytes_at_split in Hr as (Hr1 & Hr2 & Hn).
  rewrite !bytes_at_length in *. fold n in Hr1, Hr2, Hn.
  unfold Coding.GetLengthPrefixedSlice, Coding.GetVarint32, Coding.GetVarint32Ptr,
    Slice.data, Slice.size.
  rewrite (GetVarint32PtrFallback_varint m _ _ len n) by (try assumption; lia).
  rewrite Z.mod_small by lia. cbn [andb Slice.size_ Slice.data_].
  set (L := Z.of_nat (length (varint n))) in *.
  destruct (Z.geb_spec (Slice.data_ s + Slice.size_ s - (Slice.data_ s + L)) n)
    as [Hge | Hlt]; [| lia].
  eexists _, _. split; [reflexivity |].
  unfold Slice.remove_prefix, Slice.bytes. cbn [Slice.data_ Slice.size_].
  split; [reflexivity |]. split; [reflexivity |]. split; [exact Hr1 |].
  split; [reflexivity |]. split; [lia |].
  rewrite <- Hr2. rewrite Z2Nat.id by lia. f_equal. lia.
Qed.

Lemma PutLengthPrefixedSlice_GetLengthPrefixedSlice_witness :
  Coding.PutLengthPrefixedSlice (fun p => u8 p) 0 [7] (Slice.mk 65 2)
  = [7] ++ Coding.PutLengthPrefixedSlice (fun p => u8 p) 0 [] (Slice.mk 65 2)
  /\ Z.of_nat (length (Coding.PutLengthPrefixedSlice
                         (fun p => u8 p) 0 [] (Slice.mk 65 2)))
     = Coding.VarintLength (Slice.size (Slice.mk 65 2)) + Slice.size (Slice.mk 65 2)
  /\ exists s' result',
       Coding.GetLengthPrefixedSlice (store8 (fun p => u8 (p - 36)) 100 2)
         (Slice.mk 100 4) (Slice.mk 0 0) 0 = (true, s', result')
       /\ Slice.data result'
          = Slice.data (Slice.mk 100 4)
            + Coding.VarintLength (Slice.size (Slice.mk 65 2))
       /\ Slice.size result' = Slice.size (Slice.mk 65 2)
       /\ Slice.bytes (store8 (fun p => u8 (p - 36)) 100 2) result'
          = Slice.bytes (fun p => u8 p) (Slice.mk 65 2)
       /\ Slice.data s' = Slice.data result' + Slice.size result'
       /\ Slice.data s' + Slice.size s'
          = Slice.data (Slice.mk 100 4) + Slice.size (Slice.mk 100 4)
       /\ Slice.bytes (store8 (fun p => u8 (p - 36)) 100 2) s' = [67].
Proof.
  apply (PutLengthPrefixedSlice_GetLengthPrefixedSlice
           (fun p => u8 p) 0 [7] (Slice.mk 65 2)
           (store8 (fun p => u8 (p - 36)) 100 2) (Slice.mk 100 4) [67]
           (Slice.mk 0 0) 0).
  - cbn. lia.
  - vm_compute. reflexivity.
Defined.

(** When [GetLengthPrefixedSlice] on a slice returns [true], the result is
    a range inside the input: it starts after the length prefix, at most 5
    bytes into the input, the advanced input starts where the result ends,
    and the advanced input ends where the input ended. *)
Theorem GetLengthPrefixedSlice_within_input
  (m : Mem) (input result : Slice.t) (len : Z) (input' result' : Slice.t) :
  Coding.GetLengthPrefixedSlice m input result len = (true, input', result') ->
  Slice.data input < Slice.data result' <= Slice.data input + 5
  /\ 0 <= Slice.size result' < 2 ^ 32
  /\ Slice.data input' = Slice.data result' + Slice.size result'
  /\ Slice.data input' + Slice.size input' = Slice.data input + Slice.size input
  /\ 0 <= Slice.size input'.
Proof.
  unfold Coding.GetLengthPrefixedSlice, Coding.GetVarint32, Coding.GetVarint32Ptr,
    Slice.data, Slice.size.
  destruct (Coding.GetVarint32PtrFallback m (Slice.data_ input)
              (Slice.data_ input + Slice.size_ input) len) as [[q |] v] eqn:E;
    [| cbn; discriminate].
  apply GetVarint32PtrFallback_bounds in E as (Hq & Hk & Hv).
  cbn [andb Slice.size_ Slice.data_].
  destruct (Z.geb_spec (Slice.data_ input + Slice.size_ input - q) v)
    as [Hge | Hlt]; [| discriminate].
  intros H. injection H as <- <-.
  unfold Slice.remove_prefix. cbn [Slice.data_ Slice.size_]. lia.
Qed.

Lemma GetLengthPrefixedSlice_within_input_witness :
  Slice.data (Slice.mk 100 4) < Slice.data (Slice.mk 101 2)
    <= Slice.data (Slice.mk 100 4) + 5
  /\ 0 <= Slice.size (Slice.mk 101 2) < 2 ^ 32
  /\ Slice.data (Slice.mk 103 1)
     = Slice.data (Slice.mk 101 2) + Slice.size (Slice.mk 101 2)
  /\ Slice.data (Slice.mk 103 1) + Slice.size (Slice.mk 103 1)
     = Slice.data (Slice.mk 100 4) + Slice.size (Slice.mk 100 4)
  /\ 0 <= Slice.size (Slice.mk 103 1).
Proof.
  apply (GetLengthPrefixedSlice_within_input (fun _ => Byte.x02)
           (Slice.mk 100 4) (Slice.mk 0 0) 0 (Slice.mk 103 1) (Slice.mk 101 2)).
  vm_compute. reflexivity.
Defined.

(** The two overloads of [GetLengthPrefixedSlice] agree: on the range
    [[p, limit)] the one on pointers returns [nullptr] exactly when the one
    on a slice returns [false], both then leave the result alone, and
    otherwise both store the same result and the slice is advanced to the
    position the pointer overload returns. *)
Theorem GetLengthPrefixedSlice_overloads
  (m : Mem) (input result : Slice.t) (len : Z) :
  let limit := Slice.data input + Slice.size input in
  match Coding.GetLengthPrefixedSlice_ptr m (Slice.data input) limit result len with
  | (Some q, result') =>
    fst (fst (Coding.GetLengthPrefixedSlice m input result len)) = true
    /\ snd (Coding.GetLengthPrefixedSlice m input result len) = result'
    /\ Slice.data (snd (fst (Coding.GetLengthPrefixedSlice m input result len))) = q
    /\ Slice.size (snd (fst (Coding.GetLengthPrefixedSlice m input result len)))
       = limit - q
  | (None, result') =>
    fst (fst (Coding.GetLengthPrefixedSlice m input result len)) = false
    /\ snd (Coding.GetLengthPrefixedSlice m input result len) = result
    /\ result' = result
  end.
Proof.
  unfold Coding.GetLengthPrefixedSlice_ptr, Coding.GetLengthPrefixedSlice,
    Coding.GetVarint32, Slice.data, Slice.size. cbv zeta.
  destruct (Coding.GetVarint32Ptr m (Slice.data_ input)
              (Slice.data_ input + Slice.size_ input) len) as [[q |] v];
    [| cbn; auto].
  cbn [andb Slice.size_ Slice.data_].
  destruct (Z.gtb_spec (q + v) (Slice.data_ input + Slice.size_ input)) as [Hgt | Hle];
    destruct (Z.geb_spec (Slice.data_ input + Slice.size_ input - q) v)
      as [Hge | Hlt]; try lia; cbn [fst snd]; auto.
  unfold Slice.remove_prefix. cbn [Slice.data_ Slice.size_].
  repeat split; lia.
Qed.

(** ** include/leveldb/slice.h: prefixes, indexing and the order of [compare] *)

Lemma lex_lt_trans (l1 l2 l3 : list Z) : lex_lt l1 l2 -> lex_lt l2 l3 -> lex_lt l1 l3.
Proof.
  intros H12. revert l3.
  induction H12 as [y ys | x xs y ys Hxy | x xs ys _ IH]; intros l3 H23;
    inversion H23; subst.
  - constructor.
  - constructor.
  - apply lex_lt_head. lia.
  - apply lex_lt_head. exact Hxy.
  - apply lex_lt_head. assumption.
  - apply lex_lt_tail. apply IH. assumption.
Qed.

Lemma compare_cases (m : Mem) (a b : Slice.t) :
  0 <= Slice.size_ a -> 0 <= Slice.size_ b ->
  (Slice.compare m a b < 0 /\ lex_lt (Slice.bytes m a) (Slice.bytes m b))
  \/ (Slice.compare m a b = 0 /\ Slice.bytes m a = Slice.bytes m b)
  \/ (0 < Slice.compare m a b /\ lex_lt (Slice.bytes m b) (Slice.bytes m a)).
Proof.
  intros Ha Hb. destruct (compare_sign m a b Ha Hb) as (Hneg & Hzero & Hpos).
  destruct (Z.lt_trichotomy (Slice.compare m a b) 0) as [H | [H | H]].
  - left. auto.
  - right. left. split; [exact H | apply Hzero, H].
  - right. right. auto.
Qed.

Lemma memcmp_loop_zero (m : Mem) (n : nat) (s1 s2 : Z) :
  Slice.memcmp_loop m s1 s2 n = 0 <-> bytes_at m s1 n = bytes_at m s2 n.
Proof.
  destruct (memcmp_loop_sign m n s1 s2 [] []) as (Hneg & Hzero & Hpos).
  rewrite !app_nil_r in *. split; [exact Hzero |]. intros E.
  destruct (Z.lt_trichotomy (Slice.memcmp_loop m s1 s2 n) 0) as [H | [H | H]].
  - apply Hneg in H. rewrite E in H. exfalso. exact (lex_lt_irrefl _ H).
  - exact H.
  - apply Hpos in H. rewrite E in H. exfalso. exact (lex_lt_irrefl _ H).
Qed.

Lemma bytes_at_lookup (m : Mem) (n : nat) : forall p i,
  (i < n)%nat -> bytes_at m p n !! i = Some (load8 m (p + Z.of_nat i)).
Proof.
  induction n as [| n IH]; intros p i Hi; [lia |].
  rewrite bytes_at_S. destruct i as [| i]; cbn [lookup list_lookup].
  - f_equal. f_equal. lia.
  - change (bytes_at m (p + 1) n !! i = Some (load8 m (p + Z.of_nat (S i)))).
    rewrite IH by lia. f_equal. f_equal. lia.
Qed.

(** [starts_with(x)] is [true] exactly when the bytes of [x] are a prefix of
    the bytes of the slice; [remove_prefix] then leaves what follows the
    prefix. *)
Theorem starts_with_prefix (m : Mem) (s x : Slice.t) :
  0 <= Slice.size_ s -> 0 <= Slice.size_ x ->
  (Slice.starts_with m s x = true <->
   exists rest, Slice.ToString m s = Slice.ToString m x ++ rest)
  /\ (Slice.starts_with m s x = true ->
      Slice.ToString m s
      = Slice.ToString m x ++ Slice.ToString m (Slice.remove_prefix s (Slice.size x))).
Proof.
  intros Hs Hx. unfold Slice.ToString, Slice.bytes, Slice.starts_with, Slice.memcmp,
    Slice.remove_prefix, Slice.size.
  cbn [Slice.data_ Slice.size_].
  set (ns := Z.to_nat (Slice.size_ s)). set (nx := Z.to_nat (Slice.size_ x)).
  assert (Hfwd : (Slice.size_ s >=? Slice.size_ x)
                 && (Slice.memcmp_loop m (Slice.data_ s) (Slice.data_ x) nx =? 0)
                 = true ->
                 bytes_at m (Slice.data_ s) ns
                 = bytes_at m (Slice.data_ x) nx
                   ++ bytes_at m (Slice.data_ s + Slice.size_ x)
                        (Z.to_nat (Slice.size_ s - Slice.size_ x))).
  { intros H. apply andb_true_iff in H as [Hge Hz].
    apply Z.geb_le in Hge. apply Z.eqb_eq in Hz. apply memcmp_loop_zero in Hz.
    replace ns with (nx + (ns - nx))%nat by lia.
    rewrite bytes_at_app, Hz. f_equal. f_equal; lia. }
  split; [split |]; [| | exact Hfwd].
  - intros H. eexists. apply Hfwd, H.
  - intros [rest H]. apply bytes_at_split in H as (H1 & _ & Hn).
    rewrite bytes_at_length in *.
    apply andb_true_iff. split; [apply Z.geb_le; lia |].
    apply Z.eqb_eq, memcmp_loop_zero. exact H1.
Qed.

Lemma starts_with_prefix_witness :
  (Slice.starts_with (fun p => u8 p) (Slice.mk 256 3) (Slice.mk 0 2) = true <->
   exists rest,
     Slice.ToString (fun p => u8 p) (Slice.mk 256 3)
     = Slice.ToString (fun p => u8 p) (Slice.mk 0 2) ++ rest)
  /\ (Slice.starts_with (fun p => u8 p) (Slice.mk 256 3) (Slice.mk 0 2) = true ->
      Slice.ToString (fun p => u8 p) (Slice.mk 256 3)
      = Slice.ToString (fun p => u8 p) (Slice.mk 0 2)
        ++ Slice.ToString (fun p => u8 p)
             (Slice.remove_prefix (Slice.mk 256 3) (Slice.size (Slice.mk 0 2)))).
Proof.
  apply (starts_with_prefix (fun p => u8 p) (Slice.mk 256 3) (Slice.mk 0 2));
    cbn; lia.
Defined.

(** [remove_prefix(n)], for [n <= size()], drops the first [n] bytes and
    keeps the others; [operator[](n)] is the [n]-th byte of [ToString()]
    and its assertion fails from [size()] on; [empty()] is [true] exactly
    when [ToString()] is empty. *)
Theorem remove_prefix_drops (m : Mem) (s : Slice.t) (n : Z) :
  0 <= n <= Slice.size s ->
  Slice.ToString m (Slice.remove_prefix s n) = drop (Z.to_nat n) (Slice.ToString m s)
  /\ Slice.size (Slice.remove_prefix s n) = Slice.size s - n
  /\ (forall i, 0 <= i ->
        Slice.operator_index m s i = Slice.ToString m s !! Z.to_nat i)
  /\ (forall i, 0 <= i ->
        Slice.operator_index m (Slice.remove_prefix s n) i
        = if i <? Slice.size s - n then Slice.operator_index m s (n + i) else None)
  /\ (Slice.empty s = true <-> Slice.ToString m s = []).
Proof.
  unfold Slice.size. intros Hn.
  assert (Hidx : forall t i, 0 <= i ->
            Slice.operator_index m t i = Slice.ToString m t !! Z.to_nat i).
  { intros t i Hi. unfold Slice.operator_index, Slice.ToString, Slice.bytes, Slice.size.
    destruct (Z.ltb_spec i (Slice.size_ t)) as [Hlt | Hge].
    - rewrite bytes_at_lookup by lia. rewrite Z2Nat.id by lia. reflexivity.
    - symmetry. apply lookup_ge_None. rewrite bytes_at_length. lia. }
  split; [| split; [| split; [| split]]].
  - unfold Slice.ToString, Slice.bytes, Slice.remove_prefix.
    cbn [Slice.data_ Slice.size_].
    replace (Z.to_nat (Slice.size_ s))
      with (Z.to_nat n + Z.to_nat (Slice.size_ s - n))%nat by lia.
    rewrite bytes_at_app.
    rewrite drop_app_length' by (rewrite bytes_at_length; reflexivity).
    f_equal. lia.
  - reflexivity.
  - intros i Hi. apply Hidx, Hi.
  - intros i Hi. unfold Slice.operator_index, Slice.remove_prefix, Slice.size.
    cbn [Slice.data_ Slice.size_].
    destruct (Z.ltb_spec i (Slice.size_ s - n)) as [Hlt | Hge]; [| reflexivity].
    destruct (Z.ltb_spec (n + i) (Slice.size_ s)); [| lia].
    f_equal. f_equal. lia.
  - unfold Slice.empty, Slice.ToString, Slice.bytes. rewrite Z.eqb_eq. split.
    + intros ->. reflexivity.
    + intros E. apply (f_equal length) in E. rewrite bytes_at_length in E.
      cbn in E. lia.
Qed.

Lemma remove_prefix_drops_witness :
  Slice.ToString (fun p => u8 p) (Slice.remove_prefix (Slice.mk 10 5) 2)
  = drop (Z.to_nat 2) (Slice.ToString (fun p => u8 p) (Slice.mk 10 5))
  /\ Slice.size (Slice.remove_prefix (Slice.mk 10 5) 2) = Slice.size (Slice.mk 10 5) - 2
  /\ (forall i, 0 <= i ->
        Slice.operator_index (fun p => u8 p) (Slice.mk 10 5) i
        = Slice.ToString (fun p => u8 p) (Slice.mk 10 5) !! Z.to_nat i)
  /\ (forall i, 0 <= i ->
        Slice.operator_index (fun p => u8 p) (Slice.remove_prefix (Slice.mk 10 5) 2) i
        = if i <? Slice.size (Slice.mk 10 5) - 2
          then Slice.operator_index (fun p => u8 p) (Slice.mk 10 5) (2 + i)
          else None)
  /\ (Slice.empty (Slice.mk 10 5) = true <->
      Slice.ToString (fun p => u8 p) (Slice.mk 10 5) = []).
Proof.
  apply (remove_prefix_drops (fun p => u8 p) (Slice.mk 10 5) 2). cbn. lia.
Defined.

(** [compare] orders slices as a comparator must: exchanging the arguments
    flips the sign of the result, "less" is transitive, slices that compare
    equal compare alike with any third one, and [operator!=] is [true]
    exactly when the bytes differ. *)
Theorem Slice_compare_order (m : Mem) (a b c : Slice.t) :
  0 <= Slice.size_ a -> 0 <= Slice.size_ b -> 0 <= Slice.size_ c ->
  Z.sgn (Slice.compare m a b) = - Z.sgn (Slice.compare m b a)
  /\ (Slice.compare m a b < 0 -> Slice.compare m b c < 0 -> Slice.compare m a c < 0)
  /\ (Slice.compare m a b = 0 ->
      Z.sgn (Slice.compare m a c) = Z.sgn (Slice.compare m b c))
  /\ (Slice.operator_ne m a b = true <-> Slice.ToString m a <> Slice.ToString m b).
Proof.
  intros Ha Hb Hc.
  pose proof (@lex_lt_irrefl) as Hirr. pose proof lex_lt_asym as Hasym.
  pose proof lex_lt_trans as Htrans.
  split; [| split; [| split]].
  - destruct (compare_cases m a b Ha Hb) as [[H1 L1] | [[H1 E1] | [H1 L1]]];
      destruct (compare_cases m b a Hb Ha) as [[H2 L2] | [[H2 E2] | [H2 L2]]];
      try rewrite E1 in *; try rewrite E2 in *;
      try (exfalso; eapply Hirr; eassumption);
      try (exfalso; eapply Hasym; eassumption); lia.
  - intros Hab Hbc.
    destruct (compare_cases m a b Ha Hb) as [[H1 L1] | [[H1 E1] | [H1 L1]]]; try lia.
    destruct (compare_cases m b c Hb Hc) as [[H2 L2] | [[H2 E2] | [H2 L2]]]; try lia.
    pose proof (Htrans _ _ _ L1 L2) as L3.
    destruct (compare_cases m a c Ha Hc) as [[H3 _] | [[H3 E3] | [H3 L4]]].
    + exact H3.
    + rewrite E3 in L3. exfalso. exact (Hirr _ L3).
    + exfalso. exact (Hasym _ _ L3 L4).
  - intros Hab.
    destruct (compare_cases m a b Ha Hb) as [[H1 L1] | [[H1 E1] | [H1 L1]]]; try lia.
    destruct (compare_cases m a c Ha Hc) as [[H2 L2] | [[H2 E2] | [H2 L2]]];
      destruct (compare_cases m b c Hb Hc) as [[H3 L3] | [[H3 E3] | [H3 L3]]];
      rewrite E1 in *; try rewrite E2 in *; try rewrite E3 in *;
      try (exfalso; eapply Hirr; eassumption);
      try (exfalso; eapply Hasym; eassumption); lia.
  - unfold Slice.operator_ne, Slice.ToString.
    rewrite negb_true_iff, <- not_true_iff_false, operator_eq_compare.
    destruct (compare_cases m a b Ha Hb) as [[H1 L1] | [[H1 E1] | [H1 L1]]].
    + split; [| lia]. intros _ E. rewrite E in L1. exact (Hirr _ L1).
    + split; [lia | congruence].
    + split; [| lia]. intros _ E. rewrite E in L1. exact (Hirr _ L1).
Qed.

Lemma Slice_compare_order_witness :
  Z.sgn (Slice.compare (fun p => u8 p) (Slice.mk 0 2) (Slice.mk 256 3))
  = - Z.sgn (Slice.compare (fun p => u8 p) (Slice.mk 256 3) (Slice.mk 0 2))
  /\ (Slice.compare (fun p => u8 p) (Slice.mk 0 2) (Slice.mk 256 3) < 0 ->
      Slice.compare (fun p => u8 p) (Slice.mk 256 3) (Slice.mk 1 1) < 0 ->
      Slice.compare (fun p => u8 p) (Slice.mk 0 2) (Slice.mk 1 1) < 0)
  /\ (Slice.compare (fun p => u8 p) (Slice.mk 0 2) (Slice.mk 256 3) = 0 ->
      Z.sgn (Slice.compare (fun p => u8 p) (Slice.mk 0 2) (Slice.mk 1 1))
      = Z.sgn (Slice.compare (fun p => u8 p) (Slice.mk 256 3) (Slice.mk 1 1)))
  /\ (Slice.operator_ne (fun p => u8 p) (Slice.mk 0 2) (Slice.mk 256 3) = true <->
      Slice.ToString (fun p => u8 p) (Slice.mk 0 2)
      <> Slice.ToString (fun p => u8 p) (Slice.mk 256 3)).
Proof.
  apply (Slice_compare_order (fun p => u8 p) (Slice.mk 0 2) (Slice.mk 256 3)
           (Slice.mk 1 1)); cbn; lia.
Defined.

(** An empty slice, as [Slice()] and [clear()] make it, is the least one:
    it compares equal to every empty slice and below every other one,
    whatever its data pointer and whatever memory holds, and every slice
    starts with it. *)
Theorem Slice_clear_least (empty_literal : Z) (m : Mem) (s b : Slice.t) :
  0 <= Slice.size_ b ->
  Slice.clear empty_literal s = Slice.Slice empty_literal
  /\ Slice.empty (Slice.clear empty_literal s) = true
  /\ Slice.ToString m (Slice.clear empty_literal s) = []
  /\ Slice.compare m (Slice.clear empty_literal s) b
     = (if Slice.empty b then 0 else -1)
  /\ Slice.compare m b (Slice.clear empty_literal s)
     = (if Slice.empty b then 0 else 1)
  /\ Slice.starts_with m b (Slice.clear empty_literal s) = true.
Proof.
  intros Hb. unfold Slice.clear, Slice.Slice, Slice.empty, Slice.ToString,
    Slice.bytes, Slice.compare, Slice.starts_with, Slice.memcmp.
  cbn [Slice.data_ Slice.size_].
  split; [reflexivity |]. split; [reflexivity |]. split; [reflexivity |].
  destruct (Z.eqb_spec (Slice.size_ b) 0) as [E | NE].
  - rewrite E. cbn. auto.
  - destruct (Z.ltb_spec 0 (Slice.size_ b)); [| lia].
    destruct (Z.ltb_spec (Slice.size_ b) 0); [lia |].
    destruct (Z.gtb_spec (Slice.size_ b) 0); [| lia].
    destruct (Z.geb_spec (Slice.size_ b) 0); [| lia].
    cbn. auto.
Qed.

Lemma Slice_clear_least_witness :
  Slice.clear 7 (Slice.mk 10 5) = Slice.Slice 7
  /\ Slice.empty (Slice.clear 7 (Slice.mk 10 5)) = true
  /\ Slice.ToString (fun p => u8 p) (Slice.clear 7 (Slice.mk 10 5)) = []
  /\ Slice.compare (fun p => u8 p) (Slice.clear 7 (Slice.mk 10 5)) (Slice.mk 0 2)
     = (if Slice.empty (Slice.mk 0 2) then 0 else -1)
  /\ Slice.compare (fun p => u8 p) (Slice.mk 0 2) (Slice.clear 7 (Slice.mk 10 5))
     = (if Slice.empty (Slice.mk 0 2) then 0 else 1)
  /\ Slice.starts_with (fun p => u8 p) (Slice.mk 0 2) (Slice.clear 7 (Slice.mk 10 5))
     = true.
Proof.
  apply (Slice_clear_least 7 (fun p => u8 p) (Slice.mk 10 5) (Slice.mk 0 2)).
  cbn. lia.
Defined.

(** ** util/coding.cc: a successful [GetVarint32] or [GetVarint64] *)

(** When [GetVarint64] (resp. [GetVarint32]) returns [true], the slice has
    been advanced by the bytes consumed, at least 1 and at most 10 (resp.
    5), its end has not moved, and the value stored fits in 64 (resp. 32)
    bits. *)
Theorem GetVarint_success_advances
  (m : Mem) (input : Slice.t) (value : Z) (input' : Slice.t) (v : Z) :
  (Coding.GetVarint64 m input value = (true, input', v) ->
   Slice.data input < Slice.data input' <= Slice.data input + 10
   /\ Slice.data input' + Slice.size input' = Slice.data input + Slice.size input
   /\ 0 <= Slice.size input' < Slice.size input
   /\ 0 <= v < 2 ^ 64)
  /\ (Coding.GetVarint32 m input value = (true, input', v) ->
      Slice.data input < Slice.data input' <= Slice.data input + 5
      /\ Slice.data input' + Slice.size input' = Slice.data input + Slice.size input
      /\ 0 <= Slice.size input' < Slice.size input
      /\ 0 <= v < 2 ^ 32).
Proof.
  unfold Coding.GetVarint64, Coding.GetVarint32, Coding.GetVarint32Ptr,
    Slice.data, Slice.size.
  split.
  - destruct (Coding.GetVarint64Ptr m (Slice.data_ input)
                (Slice.data_ input + Slice.size_ input) value) as [[q |] w] eqn:E;
      [| discriminate].
    apply GetVarint64Ptr_bounds in E. intros H. injection H as <- <-.
    cbn [Slice.data_ Slice.size_]. lia.
  - destruct (Coding.GetVarint32PtrFallback m (Slice.data_ input)
                (Slice.data_ input + Slice.size_ input) value) as [[q |] w] eqn:E;
      [| discriminate].
    apply GetVarint32PtrFallback_bounds in E. intros H. injection H as <- <-.
    cbn [Slice.data_ Slice.size_]. lia.
Qed.

Lemma GetVarint_success_advances_witness :
  Slice.data (Slice.mk 100 4) < Slice.data (Slice.mk 102 2)
    <= Slice.data (Slice.mk 100 4) + 10
  /\ Slice.data (Slice.mk 102 2) + Slice.size (Slice.mk 102 2)
     = Slice.data (Slice.mk 100 4) + Slice.size (Slice.mk 100 4)
  /\ 0 <= Slice.size (Slice.mk 102 2) < Slice.size (Slice.mk 100 4)
  /\ 0 <= 300 < 2 ^ 64.
Proof.
  apply (proj1 (GetVarint_success_advances
                  (fst (Coding.EncodeVarint64 (fun _ => Byte.x00) 100 300))
                  (Slice.mk 100 4) 0 (Slice.mk 102 2) 300)).
  vm_compute. reflexivity.
Defined.

(** ** util/arena.h, util/arena.cc: alignment *)

(** A positive number that shares no bit with its predecessor, as the
    [static_assert] of [AllocateAligned] demands of [align], is a power of
    two. *)
Lemma power_of_two (a : Z) :
  0 < a -> Z.land a (a - 1) = 0 -> exists k, 0 <= k /\ a = 2 ^ k.
Proof.
  intros Ha Hland. exists (Z.log2 a).
  pose proof (Z.log2_nonneg a) as Hk. split; [exact Hk |].
  destruct (Z.log2_spec a Ha) as [Hlo Hhi].
  destruct (Z.eq_dec a (2 ^ Z.log2 a)) as [E | NE]; [exact E | exfalso].
  assert (Hl : Z.log2 (a - 1) = Z.log2 a) by (apply Z.log2_unique; lia).
  assert (B1 : Z.testbit a (Z.log2 a) = true) by (apply Z.bit_log2; lia).
  assert (B2 : Z.testbit (a - 1) (Z.log2 a) = true)
    by (rewrite <- Hl; apply Z.bit_log2; lia).
  assert (B : Z.testbit (Z.land a (a - 1)) (Z.log2 a) = true)
    by (rewrite Z.land_spec, B1, B2; reflexivity).
  rewrite Hland, Z.bits_0 in B. discriminate.
Qed.

Lemma Arena_align_min (sizeof_ptr : Z) : 8 <= Arena_align sizeof_ptr.
Proof.
  unfold Arena_align. destruct (Z.gtb_spec sizeof_ptr 8); lia.
Qed.

Section Alignment.

Variable sizeof_ptr : Z.
Hypothesis Hstatic :
  Z.land (Arena_align sizeof_ptr) (Arena_align sizeof_ptr - 1) = 0.

Local Abbreviation align := (Arena_align sizeof_ptr).

Lemma land_align (x : Z) : Z.land x (align - 1) = x mod align.
Proof.
  pose proof (Arena_align_min sizeof_ptr) as Hmin.
  destruct (power_of_two align ltac:(lia) Hstatic) as (k & Hk & E).
  rewrite E. rewrite <- Z.land_ones by exact Hk.
  rewrite Z.ones_equiv. reflexivity.
Qed.

(** The padding [slop] that [AllocateAligned] computes for a pointer [p]
    is the least one that makes [p + slop] a multiple of [align]. *)
Lemma slop_spec (p : Z) :
  let current_mod := Z.land p (align - 1) in
  let slop := if current_mod =? 0 then 0 else align - current_mod in
  0 <= slop < align /\ (p + slop) mod align = 0.
Proof.
  cbv zeta. rewrite land_align.
  pose proof (Arena_align_min sizeof_ptr) as Hmin.
  pose proof (Z.mod_pos_bound p align ltac:(lia)) as Hb.
  destruct (Z.eqb_spec (p mod align) 0) as [E | NE].
  - split; [lia |]. rewrite Z.add_0_r. exact E.
  - split; [lia |].
    pose proof (Z.div_mod p align ltac:(lia)) as D.
    replace (p + (align - p mod align)) with ((p / align + 1) * align) by lia.
    apply Z.mod_mul. lia.
Qed.

End Alignment.

(** ** util/arena.h, util/arena.cc: what one call does *)

Section ArenaSteps.

Variable new_char : Arena.Heap -> Z -> Z.
Variable sizeof_ptr : Z.

Local Abbreviation align := (Arena_align sizeof_ptr).
Local Abbreviation Allocate := (Arena.Allocate new_char sizeof_ptr).
Local Abbreviation AllocateAligned := (Arena.AllocateAligned new_char sizeof_ptr).
Local Abbreviation AllocateFallback := (Arena.AllocateFallback new_char sizeof_ptr).
Local Abbreviation step := (Arena_step new_char sizeof_ptr).
Local Abbreviation run := (Arena_run new_char sizeof_ptr).

Lemma AllocateFallback_large (a : Arena.t) (heap : Arena.Heap) (bytes : Z) :
  1024 < bytes ->
  AllocateFallback a heap bytes
  = (new_char heap bytes,
     Arena.mk (Arena.alloc_ptr_ a) (Arena.alloc_bytes_remaining_ a)
       (Arena.blocks_ a ++ [new_char heap bytes])
       (u64 (Arena.memory_usage_ a + u64 (bytes + sizeof_ptr))),
     heap ++ [(new_char heap bytes, bytes)]).
Proof.
  intros Hb. unfold Arena.AllocateFallback.
  change (Arena.kBlockSize / 4) with 1024.
  destruct (Z.gtb_spec bytes 1024); [reflexivity | lia].
Qed.

Lemma AllocateFallback_small (a : Arena.t) (heap : Arena.Heap) (bytes : Z) :
  bytes <= 1024 ->
  AllocateFallback a heap bytes
  = (new_char heap 4096,
     Arena.mk (new_char heap 4096 + bytes) (4096 - bytes)
       (Arena.blocks_ a ++ [new_char heap 4096])
       (u64 (Arena.memory_usage_ a + u64 (4096 + sizeof_ptr))),
     heap ++ [(new_char heap 4096, 4096)]).
Proof.
  intros Hb. unfold Arena.AllocateFallback.
  change (Arena.kBlockSize / 4) with 1024.
  destruct (Z.gtb_spec bytes 1024); [lia | reflexivity].
Qed.

(** A call either leaves the free store and the accounting alone, or takes
    one array from the host: a block of 4096 bytes, or an array of the
    requested size when that is above 1024. *)
Lemma Arena_step_blocks (a : Arena.t) (heap : Arena.Heap) (op : ArenaOp)
    (r : Z) (a' : Arena.t) (heap' : Arena.Heap) :
  step a heap op = Some (r, a', heap') ->
  (heap' = heap /\ Arena.blocks_ a' = Arena.blocks_ a
   /\ Arena.memory_usage_ a' = Arena.memory_usage_ a)
  \/ exists n,
       (n = 4096 \/ n = ArenaOp_bytes op /\ 1024 < n)
       /\ heap' = heap ++ [(new_char heap n, n)]
       /\ Arena.blocks_ a' = Arena.blocks_ a ++ [new_char heap n]
       /\ Arena.memory_usage_ a'
          = u64 (Arena.memory_usage_ a + u64 (n + sizeof_ptr)).
Proof.
  assert (Hfb : forall bytes r a' heap',
    AllocateFallback a heap bytes = (r, a', heap') ->
    exists n,
      (n = 4096 \/ n = bytes /\ 1024 < n)
      /\ heap' = heap ++ [(new_char heap n, n)]
      /\ Arena.blocks_ a' = Arena.blocks_ a ++ [new_char heap n]
      /\ Arena.memory_usage_ a'
         = u64 (Arena.memory_usage_ a + u64 (n + sizeof_ptr))).
  { intros bytes r0 a0 heap0 H. destruct (Z_le_dec bytes 1024).
    - rewrite AllocateFallback_small in H by lia. injection H as <- <- <-.
      exists 4096. cbn. auto.
    - rewrite AllocateFallback_large in H by lia. injection H as <- <- <-.
      exists bytes. cbn. repeat split; auto. right. split; [reflexivity | lia]. }
  destruct op as [bytes | bytes]; cbn [Arena_step ArenaOp_bytes].
  - unfold Arena.Allocate.
    destruct (bytes <=? Arena.alloc_bytes_remaining_ a).
    + intros H. injection H as <- <- <-. left. cbn. auto.
    + intros H. injection H as H. right. eapply Hfb, H.
  - unfold Arena.AllocateAligned. cbv zeta.
    match goal with
    | |- context [if ?c then (_, _, heap) else _] => destruct c
    end.
    + destruct (_ =? 0); [| discriminate].
      intros H. injection H as <- <- <-. left. cbn. auto.
    + destruct (AllocateFallback a heap bytes) as [[r0 a0] heap0] eqn:E.
      destruct (_ =? 0); [| discriminate].
      intros H. injection H as <- <- <-. right. eapply Hfb, E.
Qed.

(** *** The blocks and the accounting over a run *)

Lemma Arena_run_blocks (ops : list ArenaOp) : forall a heap regions a' heap',
  u64 (Arena.memory_usage_ a) = Arena.memory_usage_ a ->
  run a heap ops = Some (regions, a', heap') ->
  exists blocks,
    heap' = heap ++ blocks
    /\ Arena.blocks_ a' = Arena.blocks_ a ++ blocks.*1
    /\ Arena.memory_usage_ a'
       = u64 (Arena.memory_usage_ a
              + (total_size blocks + sizeof_ptr * Z.of_nat (length blocks)))
    /\ Forall (fun b => snd b = 4096
                        \/ 1024 < snd b
                           /\ exists op, op ∈ ops /\ ArenaOp_bytes op = snd b) blocks
    /\ (length blocks <= length ops)%nat
    /\ length regions = length ops.
Proof.
  induction ops as [| op ops IH]; intros a heap regions a' heap' Hu H.
  - cbn in H. injection H as <- <- <-. exists []. cbn.
    rewrite !app_nil_r.
    replace (Arena.memory_usage_ a + (0 + sizeof_ptr * Z.of_nat 0))
      with (Arena.memory_usage_ a) by lia.
    repeat split; auto.
  - cbn [Arena_run] in H.
    destruct (step a heap op) as [[[r a1] heap1] |] eqn:E; [| discriminate].
    cbn [mbind option_bind] in H.
    destruct (run a1 heap1 ops) as [[[regions1 a2] heap2] |] eqn:E2;
      [| discriminate].
    cbn in H. injection H as <- <- <-.
    apply Arena_step_blocks in E.
    destruct E as [(-> & Hb & Hm) | (n & Hn & -> & Hb & Hm)].
    + destruct (IH a1 heap regions1 a2 heap2 ltac:(rewrite Hm; exact Hu) E2)
        as (blocks & -> & Hb2 & Hm2 & Hall & Hlen & Hr).
      exists blocks. rewrite Hb2, Hb, Hm2, Hm.
      repeat split; auto; [| cbn; lia | cbn; lia].
      eapply Forall_impl; [exact Hall |]. intros b [? | (? & op' & ? & ?)]; auto.
      right. split; [assumption |]. exists op'. split; [| assumption].
      apply elem_of_cons. auto.
    + assert (Hu1 : u64 (Arena.memory_usage_ a1) = Arena.memory_usage_ a1).
      { rewrite Hm. unfold u64. apply Z.mod_mod. lia. }
      destruct (IH a1 _ regions1 a2 heap2 Hu1 E2)
        as (blocks & -> & Hb2 & Hm2 & Hall & Hlen & Hr).
      exists ((new_char heap n, n) :: blocks).
      rewrite Hb2, Hb, Hm2, Hm, <- !app_assoc. cbn [app fmap list_fmap fst].
      split; [reflexivity |]. split; [reflexivity |]. split.
      { unfold u64. rewrite Zplus_mod_idemp_r, Zplus_mod_idemp_l.
        f_equal. cbn [total_size fold_right length snd].
        fold (total_size blocks). lia. }
      split; [| cbn; lia].
      constructor.
      * cbn [snd]. destruct Hn as [-> | [-> Hn]]; [auto |]. right.
        split; [exact Hn |]. exists op. split; [apply elem_of_cons; auto | reflexivity].
      * eapply Forall_impl; [exact Hall |].
        intros b [? | (? & op' & ? & ?)]; auto.
        right. split; [assumption |]. exists op'. split; [| assumption].
        apply elem_of_cons. auto.
Qed.

(** [delete[]] of the blocks, oldest first, leaves the free store as it was
    before the arena took them. *)
Lemma delete_array_front (heap0 blocks : Arena.Heap) (p n : Z) :
  p ∉ heap0.*1 ->
  Arena.delete_array (heap0 ++ (p, n) :: blocks) p = Some (heap0 ++ blocks).
Proof.
  induction heap0 as [| b heap0 IH]; intros Hp; cbn [app Arena.delete_array].
  - cbn [fst]. rewrite Z.eqb_refl. reflexivity.
  - cbn [fmap list_fmap] in Hp. apply not_elem_of_cons in Hp as [Hne Hp].
    destruct (Z.eqb_spec (fst b) p) as [E | _]; [congruence |].
    rewrite IH by exact Hp. reflexivity.
Qed.

Lemma destroy_blocks (heap0 : Arena.Heap) (blocks : list (Z * Z)) :
  Forall (fun b => fst b ∉ heap0.*1) blocks ->
  foldl (fun heap p => heap ← heap; Arena.delete_array heap p)
        (Some (heap0 ++ blocks)) (blocks.*1)
  = Some heap0.
Proof.
  induction blocks as [| [p n] blocks IH]; intros H.
  - cbn. rewrite app_nil_r. reflexivity.
  - apply Forall_cons in H as [Hp H]. cbn [fmap list_fmap foldl fst].
    cbn [mbind option_bind]. rewrite delete_array_front by exact Hp.
    apply IH, H.
Qed.

Lemma Arena_run_fresh_blocks (Hhost : host_distinct new_char)
    (ops : list ArenaOp) : forall a heap regions a' heap' (heap0 : Arena.Heap),
  (forall x, x ∈ heap0.*1 -> x ∈ heap.*1) ->
  run a heap ops = Some (regions, a', heap') ->
  exists blocks, heap' = heap ++ blocks /\ Forall (fun b => fst b ∉ heap0.*1) blocks.
Proof.
  induction ops as [| op ops IH]; intros a heap regions a' heap' heap0 Hsub H.
  - cbn in H. injection H as <- <- <-. exists []. rewrite app_nil_r. auto.
  - cbn [Arena_run] in H.
    destruct (step a heap op) as [[[r a1] heap1] |] eqn:E; [| discriminate].
    cbn [mbind option_bind] in H.
    destruct (run a1 heap1 ops) as [[[regions1 a2] heap2] |] eqn:E2;
      [| discriminate].
    cbn in H. injection H as <- <- <-.
    apply Arena_step_blocks in E.
    destruct E as [(-> & _ & _) | (n & _ & -> & _ & _)].
    + eapply IH; eassumption.
    + destruct (IH a1 (heap ++ [(new_char heap n, n)]) regions1 a2 heap2 heap0)
        as (blocks & -> & Hall); [| exact E2 |].
      { intros x Hx. rewrite fmap_app. apply elem_of_app. auto. }
      exists ((new_char heap n, n) :: blocks). rewrite <- app_assoc.
      split; [reflexivity |]. constructor; [| exact Hall].
      cbn [fst]. intros Hin. exact (Hhost heap n (Hsub _ Hin)).
Qed.

End ArenaSteps.

(** [MemoryUsage()] accounts for the arrays taken from the host, and for
    nothing else: after any run of allocation calls on a new arena, the
    free store holds, after what it held before, exactly the arrays listed
    in [blocks_], in order; each is a block of 4096 bytes or has the size of
    a request above 1024 bytes; and [MemoryUsage()] is the sum of their
    sizes plus one pointer for each, as a [size_t]. *)
Theorem Arena_memory_usage
  (new_char : Arena.Heap -> Z -> Z) (sizeof_ptr : Z)
  (heap0 : Arena.Heap) (ops : list ArenaOp)
  (regions : list (Z * Z)) (a : Arena.t) (heap : Arena.Heap) :
  Arena_run new_char sizeof_ptr Arena.Arena heap0 ops = Some (regions, a, heap) ->
  exists blocks,
    heap = heap0 ++ blocks
    /\ Arena.blocks_ a = blocks.*1
    /\ Arena.MemoryUsage a
       = u64 (total_size blocks + sizeof_ptr * Z.of_nat (length blocks))
    /\ Forall (fun b => snd b = 4096
                        \/ 1024 < snd b
                           /\ exists op, op ∈ ops /\ ArenaOp_bytes op = snd b) blocks
    /\ (length blocks <= length ops)%nat.
Proof.
  intros H.
  destruct (Arena_run_blocks new_char sizeof_ptr ops Arena.Arena heap0 regions a heap
              eq_refl H)
    as (blocks & Hh & Hb & Hm & Hall & Hlen & _).
  exists blocks. unfold Arena.MemoryUsage. auto.
Qed.

Lemma Arena_memory_usage_witness :
  exists blocks,
    [(4096, 4096); (8192, 5000)] = [] ++ blocks
    /\ Arena.blocks_ (Arena.mk 4206 3986 [4096; 8192] 9112) = blocks.*1
    /\ Arena.MemoryUsage (Arena.mk 4206 3986 [4096; 8192] 9112)
       = u64 (total_size blocks + 8 * Z.of_nat (length blocks))
    /\ Forall (fun b => snd b = 4096
                        \/ 1024 < snd b
                           /\ exists op,
                                op ∈ [OpAllocate 100; OpAllocate 5000; OpAllocate 10]
                                /\ ArenaOp_bytes op = snd b) blocks
    /\ (length blocks
        <= length [OpAllocate 100; OpAllocate 5000; OpAllocate 10])%nat.
Proof.
  apply (Arena_memory_usage sample_new_char 8 []
           [OpAllocate 100; OpAllocate 5000; OpAllocate 10]
           [(4096, 100); (8192, 5000); (4196, 10)]).
  vm_compute. reflexivity.
Defined.

(** The destructor gives back exactly what the arena took: after any run of
    allocation calls on a new arena, on a host that never returns the
    address of a live array, [~Arena()] deletes each of its blocks with
    success, and the free store is again what it was before the arena was
    used. *)
Theorem Arena_destroy_frees
  (new_char : Arena.Heap -> Z -> Z) (sizeof_ptr : Z)
  (heap0 : Arena.Heap) (ops : list ArenaOp)
  (regions : list (Z * Z)) (a : Arena.t) (heap : Arena.Heap) :
  host_distinct new_char ->
  Arena_run new_char sizeof_ptr Arena.Arena heap0 ops = Some (regions, a, heap) ->
  Arena.destroy a heap = Some heap0.
Proof.
  intros Hhost H.
  destruct (Arena_run_blocks new_char sizeof_ptr ops Arena.Arena heap0 regions a heap
              eq_refl H)
    as (blocks & Hh & Hb & _).
  destruct (Arena_run_fresh_blocks new_char sizeof_ptr Hhost ops
              Arena.Arena heap0 regions a heap heap0 (fun x Hx => Hx) H)
    as (blocks' & Hh' & Hfresh).
  rewrite Hh in Hh'. apply app_inv_head in Hh'. subst blocks'.
  unfold Arena.destroy. rewrite Hb, Hh. cbn [app]. apply destroy_blocks, Hfresh.
Qed.

(** ** util/arena.h, util/arena.cc: a host to run the arena on *)

Lemma sample_top_bound (heap : Arena.Heap) : forall init,
  let top := fold_left (fun p b => Z.max p (fst b + Z.max 1 (snd b))) heap init in
  init <= top /\ forall b, b ∈ heap -> fst b + Z.max 1 (snd b) <= top.
Proof.
  induction heap as [| x heap IH]; intros init; cbn [fold_left].
  - split; [lia |]. intros b Hb. inversion Hb.
  - destruct (IH (Z.max init (fst x + Z.max 1 (snd x)))) as [H1 H2].
    split; [lia |]. intros b Hb. apply elem_of_cons in Hb as [-> | Hb]; [lia | auto].
Qed.

Lemma sample_new_aligned_above (heap : Arena.Heap) (n : Z) :
  4096 <= sample_new_aligned heap n
  /\ (forall b, b ∈ heap -> fst b + Z.max 1 (snd b) <= sample_new_aligned heap n)
  /\ exists q, sample_new_aligned heap n = 16 * q.
Proof.
  unfold sample_new_aligned. cbv zeta.
  destruct (sample_top_bound heap 4096) as [H1 H2]. cbv zeta in H1, H2.
  set (top := fold_left _ heap 4096) in *.
  pose proof (Z.div_mod (top + 15) 16 ltac:(lia)) as D.
  pose proof (Z.mod_pos_bound (top + 15) 16 ltac:(lia)) as B.
  split; [lia |]. split; [| eauto].
  intros b Hb. specialize (H2 b Hb). lia.
Qed.

Lemma sample_new_aligned_fresh : host_fresh sample_new_aligned.
Proof.
  intros heap n b Hn Hb. unfold disjoint_regions. cbn [fst snd].
  destruct (sample_new_aligned_above heap n) as (_ & H & _).
  specialize (H b Hb). lia.
Qed.

Lemma sample_new_aligned_distinct : host_distinct sample_new_aligned.
Proof.
  intros heap n Hin. apply list_elem_of_fmap in Hin as (b & E & Hb).
  destruct (sample_new_aligned_above heap n) as (_ & H & _).
  specialize (H b Hb). lia.
Qed.

Lemma sample_new_aligned_aligned : host_aligned sample_new_aligned 8.
Proof.
  intros heap n. change (Arena_align 8 - 1) with (Z.ones 3).
  rewrite Z.land_ones by lia.
  destruct (sample_new_aligned_above heap n) as (_ & _ & q & ->).
  change (2 ^ 3) with 8. replace (16 * q) with (2 * q * 8) by lia.
  apply Z.mod_mul. lia.
Qed.

Lemma Arena_destroy_frees_witness :
  Arena.destroy (Arena.mk 4206 3986 [4096; 8192] 9112)
    [(0, 16); (4096, 4096); (8192, 5000)]
  = Some [(0, 16)].
Proof.
  apply (Arena_destroy_frees sample_new_aligned 8 [(0, 16)]
           [OpAllocate 100; OpAllocate 5000; OpAllocate 10]
           [(4096, 100); (8192, 5000); (4196, 10)]).
  - exact sample_new_aligned_distinct.
  - vm_compute. reflexivity.
Defined.

(** ** util/arena.h, util/arena.cc: the memory handed out *)

Lemma disjoint_within (u b r c : Z * Z) :
  region_within u b -> region_within r c -> disjoint_regions c b ->
  disjoint_regions u r.
Proof. unfold region_within, disjoint_regions. lia. Qed.

Lemma disjoint_shrink (u t r : Z * Z) :
  disjoint_regions u t -> region_within r t -> disjoint_regions u r.
Proof. unfold region_within, disjoint_regions. lia. Qed.

Lemma region_within_refl (r : Z * Z) : region_within r r.
Proof. unfold region_within. lia. Qed.

Section ArenaRegions.

Variable new_char : Arena.Heap -> Z -> Z.
Variable sizeof_ptr : Z.
Hypothesis Hstatic :
  Z.land (Arena_align sizeof_ptr) (Arena_align sizeof_ptr - 1) = 0.
Hypothesis Haligned : host_aligned new_char sizeof_ptr.

Local Abbreviation align := (Arena_align sizeof_ptr).
Local Abbreviation step := (Arena_step new_char sizeof_ptr).
Local Abbreviation run := (Arena_run new_char sizeof_ptr).

Lemma AllocateAligned_cases (a : Arena.t) (heap : Arena.Heap) (bytes : Z) :
  0 <= bytes -> bytes + align <= 2 ^ 64 ->
  exists slop,
    0 <= slop < align /\ (Arena.alloc_ptr_ a + slop) mod align = 0
    /\ (bytes + slop <= Arena.alloc_bytes_remaining_ a /\
        Arena.AllocateAligned new_char sizeof_ptr a heap bytes
        = Some (Arena.alloc_ptr_ a + slop,
                Arena.mk (Arena.alloc_ptr_ a + (bytes + slop))
                  (Arena.alloc_bytes_remaining_ a - (bytes + slop))
                  (Arena.blocks_ a) (Arena.memory_usage_ a),
                heap)
        \/ Arena.alloc_bytes_remaining_ a < bytes + slop /\
           Arena.AllocateAligned new_char sizeof_ptr a heap bytes
           = Some (Arena.AllocateFallback new_char sizeof_ptr a heap bytes)
           /\ fst (fst (Arena.AllocateFallback new_char sizeof_ptr a heap bytes))
                mod align = 0).
Proof.
  intros Hb Hmax.
  pose proof (slop_spec sizeof_ptr Hstatic (Arena.alloc_ptr_ a)) as Hslop.
  cbv zeta in Hslop. unfold Arena.AllocateAligned. cbv zeta.
  change (if sizeof_ptr >? 8 then sizeof_ptr else 8) with align.
  set (slop := if Z.land (Arena.alloc_ptr_ a) (align - 1) =? 0 then 0
               else align - Z.land (Arena.alloc_ptr_ a) (align - 1)) in *.
  destruct Hslop as [Hs Hmod]. exists slop. split; [exact Hs |].
  split; [exact Hmod |].
  unfold u64. rewrite (Z.mod_small (bytes + slop)) by lia.
  destruct (Z.leb_spec (bytes + slop) (Arena.alloc_bytes_remaining_ a)) as [Hfit | Hno].
  - left. split; [exact Hfit |].
    rewrite land_align, Hmod by exact Hstatic. reflexivity.
  - right. split; [exact Hno |].
    assert (Hres : fst (fst (Arena.AllocateFallback new_char sizeof_ptr a heap bytes))
                   mod align = 0).
    { rewrite <- land_align by exact Hstatic.
      destruct (Z_le_dec bytes 1024).
      - rewrite AllocateFallback_small by lia. apply Haligned.
      - rewrite AllocateFallback_large by lia. apply Haligned. }
    destruct (Arena.AllocateFallback new_char sizeof_ptr a heap bytes)
      as [[r a'] heap'].
    cbn [fst] in Hres |- *. rewrite land_align, Hres by exact Hstatic.
    split; reflexivity.
Qed.

End ArenaRegions.

(** [AllocateAligned] returns aligned memory: where [align], the larger of
    8 and the pointer size, is a power of two (the [static_assert]) and
    the host's arrays start at multiples of it, the final assertion holds
    on every call, so the call returns, and the address it returns is a
    multiple of [align].  When the request and its padding fit in the
    current block the address is the first such multiple at or after
    [alloc_ptr_]. *)
Theorem AllocateAligned_aligned
  (new_char : Arena.Heap -> Z -> Z) (sizeof_ptr : Z)
  (a : Arena.t) (heap : Arena.Heap) (bytes : Z) :
  Z.land (Arena_align sizeof_ptr) (Arena_align sizeof_ptr - 1) = 0 ->
  host_aligned new_char sizeof_ptr ->
  0 <= bytes -> bytes + Arena_align sizeof_ptr <= 2 ^ 64 ->
  exists result a' heap',
    Arena.AllocateAligned new_char sizeof_ptr a heap bytes = Some (result, a', heap')
    /\ result mod Arena_align sizeof_ptr = 0
    /\ (heap' = heap ->
        Arena.alloc_ptr_ a <= result < Arena.alloc_ptr_ a + Arena_align sizeof_ptr
        /\ Arena.alloc_ptr_ a' = result + bytes).
Proof.
  intros Hstatic Haligned Hb Hmax.
  destruct (AllocateAligned_cases new_char sizeof_ptr Hstatic Haligned a heap bytes
              Hb Hmax) as (slop & Hs & Hmod & [[Hfit E] | (Hno & E & Hres)]).
  - eexists _, _, _. split; [exact E |]. split; [exact Hmod |].
    intros _. cbn [Arena.alloc_ptr_]. lia.
  - destruct (Arena.AllocateFallback new_char sizeof_ptr a heap bytes)
      as [[r a'] heap'] eqn:Ef.
    exists r, a', heap'. split; [exact E |]. split; [exact Hres |].
    intros Hh. exfalso.
    destruct (Z_le_dec bytes 1024).
    + rewrite AllocateFallback_small in Ef by lia. injection Ef as _ _ Ef.
      rewrite Hh in Ef. apply (f_equal length) in Ef.
      rewrite length_app in Ef. cbn in Ef. lia.
    + rewrite AllocateFallback_large in Ef by lia. injection Ef as _ _ Ef.
      rewrite Hh in Ef. apply (f_equal length) in Ef.
      rewrite length_app in Ef. cbn in Ef. lia.
Qed.

Lemma AllocateAligned_aligned_witness :
  exists result a' heap',
    Arena.AllocateAligned sample_new_aligned 8
      (Arena.mk 4099 4093 [4096] 4104) [(4096, 4096)] 10
    = Some (result, a', heap')
    /\ result mod Arena_align 8 = 0
    /\ (heap' = [(4096, 4096)] ->
        Arena.alloc_ptr_ (Arena.mk 4099 4093 [4096] 4104) <= result
          < Arena.alloc_ptr_ (Arena.mk 4099 4093 [4096] 4104) + Arena_align 8
        /\ Arena.alloc_ptr_ a' = result + 10).
Proof.
  apply (AllocateAligned_aligned sample_new_aligned 8
           (Arena.mk 4099 4093 [4096] 4104) [(4096, 4096)] 10).
  - reflexivity.
  - exact sample_new_aligned_aligned.
  - lia.
  - vm_compute. discriminate.
Defined.

Section ArenaDisjoint.

Variable new_char : Arena.Heap -> Z -> Z.
Variable sizeof_ptr : Z.
Hypothesis Hstatic :
  Z.land (Arena_align sizeof_ptr) (Arena_align sizeof_ptr - 1) = 0.
Hypothesis Haligned : host_aligned new_char sizeof_ptr.
Hypothesis Hfresh : host_fresh new_char.

Local Abbreviation step := (Arena_step new_char sizeof_ptr).
Local Abbreviation run := (Arena_run new_char sizeof_ptr).

(** A call serves the request from the current block, after some padding,
    or from a new array of its own, or from the start of a new block. *)
Lemma Arena_step_geometry (a : Arena.t) (heap : Arena.Heap) (op : ArenaOp) :
  ArenaOp_ok sizeof_ptr op ->
  let n := ArenaOp_bytes op in
  exists r a' heap',
    step a heap op = Some (r, a', heap')
    /\ ((exists slop,
           0 <= slop /\ n + slop <= Arena.alloc_bytes_remaining_ a
           /\ r = Arena.alloc_ptr_ a + slop
           /\ Arena.alloc_ptr_ a' = Arena.alloc_ptr_ a + (n + slop)
           /\ Arena.alloc_bytes_remaining_ a'
              = Arena.alloc_bytes_remaining_ a - (n + slop))
        /\ heap' = heap
        \/ 1024 < n /\ r = new_char heap n /\ heap' = heap ++ [(r, n)]
           /\ Arena.alloc_ptr_ a' = Arena.alloc_ptr_ a
           /\ Arena.alloc_bytes_remaining_ a' = Arena.alloc_bytes_remaining_ a
        \/ n <= 1024 /\ r = new_char heap 4096 /\ heap' = heap ++ [(r, 4096)]
           /\ Arena.alloc_ptr_ a' = r + n
           /\ Arena.alloc_bytes_remaining_ a' = 4096 - n).
Proof.
  assert (Hfb : forall bytes,
    exists r a' heap',
      Arena.AllocateFallback new_char sizeof_ptr a heap bytes = (r, a', heap')
      /\ (1024 < bytes /\ r = new_char heap bytes /\ heap' = heap ++ [(r, bytes)]
          /\ Arena.alloc_ptr_ a' = Arena.alloc_ptr_ a
          /\ Arena.alloc_bytes_remaining_ a' = Arena.alloc_bytes_remaining_ a
          \/ bytes <= 1024 /\ r = new_char heap 4096 /\ heap' = heap ++ [(r, 4096)]
             /\ Arena.alloc_ptr_ a' = r + bytes
             /\ Arena.alloc_bytes_remaining_ a' = 4096 - bytes)).
  { intros bytes. destruct (Z_le_dec bytes 1024).
    - rewrite AllocateFallback_small by lia. eexists _, _, _.
      split; [reflexivity |]. right. cbn. auto.
    - rewrite AllocateFallback_large by lia. eexists _, _, _.
      split; [reflexivity |]. left. cbn. repeat split; auto; lia. }
  destruct op as [bytes | bytes]; cbn [ArenaOp_ok ArenaOp_bytes Arena_step];
    intros Hok; cbv zeta.
  - unfold Arena.Allocate.
    destruct (Z.leb_spec bytes (Arena.alloc_bytes_remaining_ a)) as [Hfit | Hno].
    + eexists _, _, _. split; [reflexivity |]. left. split; [| reflexivity].
      exists 0. cbn. repeat split; lia.
    + destruct (Hfb bytes) as (r & a' & heap' & E & Hcase).
      exists r, a', heap'. rewrite E. split; [reflexivity |]. right. exact Hcase.
  - destruct Hok as [Hpos Hmax].
    destruct (AllocateAligned_cases new_char sizeof_ptr Hstatic Haligned a heap bytes
                ltac:(lia) Hmax) as (slop & Hs & _ & [[Hfit E] | (Hno & E & _)]).
    + eexists _, _, _. split; [exact E |]. left. split; [| reflexivity].
      exists slop. cbn. repeat split; lia.
    + destruct (Hfb bytes) as (r & a' & heap' & Ef & Hcase).
      exists r, a', heap'. rewrite E, Ef. split; [reflexivity |]. right. exact Hcase.
Qed.

Variable heap0 : Arena.Heap.

Lemma Arena_step_inv (a : Arena.t) (heap : Arena.Heap)
    (used blocks : list (Z * Z)) (op : ArenaOp) :
  Arena_inv heap0 a heap used blocks ->
  ArenaOp_ok sizeof_ptr op ->
  exists r a' heap' blocks',
    step a heap op = Some (r, a', heap')
    /\ Arena_inv heap0 a' heap' ((r, ArenaOp_bytes op) :: used) blocks'
    /\ (forall b, b ∈ blocks -> b ∈ blocks')
    /\ Forall (fun u => disjoint_regions u (r, ArenaOp_bytes op)) used.
Proof.
  intros (Hheap & Hblocks & Hused & Htail) Hok.
  assert (Hn : 0 < ArenaOp_bytes op) by (destruct op; cbn in *; lia).
  destruct (Arena_step_geometry a heap op Hok)
    as (r & a' & heap' & E & Hcase).
  cbv zeta in Hcase. set (n := ArenaOp_bytes op) in *.
  exists r, a', heap'.
  (* a new array [(p, sz)] of the host stands apart from everything *)
  assert (Hnew : forall sz, 0 < sz ->
            Forall (disjoint_regions (new_char heap sz, sz)) heap0
            /\ (forall v b, b ∈ blocks -> region_within v b ->
                  forall w, region_within w (new_char heap sz, sz) ->
                  disjoint_regions v w)).
  { intros sz Hsz. split.
    - apply Forall_forall. intros x Hx. apply Hfresh; [exact Hsz |].
      rewrite Hheap. apply elem_of_app. auto.
    - intros v b Hb Hv w Hw. eapply disjoint_within; [exact Hv | exact Hw |].
      apply Hfresh; [exact Hsz |]. rewrite Hheap. apply elem_of_app. auto. }
  destruct Hcase as [[(slop & Hs & Hfit & -> & Hp & Hr) ->]
                    | [(Hbig & -> & -> & Hp & Hr) | (Hsmall & -> & -> & Hp & Hr)]].
  - (* served from the current block *)
    destruct (Htail ltac:(lia)) as [(b & Hb & Hw) Hd].
    exists blocks. split; [exact E |].
    assert (Hin : region_within (Arena.alloc_ptr_ a + slop, n)
                    (Arena.alloc_ptr_ a, Arena.alloc_bytes_remaining_ a))
      by (unfold region_within; cbn; lia).
    split; [| split; [auto |]].
    + split; [exact Hheap |]. split; [exact Hblocks |]. split.
      * constructor; [| exact Hused]. exists b. split; [exact Hb |].
        revert Hw Hin. unfold region_within. cbn. lia.
      * rewrite Hp, Hr. intros Hrem. split.
        { exists b. split; [exact Hb |]. revert Hw. unfold region_within. cbn. lia. }
        constructor; [unfold disjoint_regions; cbn; lia |].
        eapply Forall_impl; [exact Hd |]. intros u.
        unfold disjoint_regions. cbn. lia.
    + eapply Forall_impl; [exact Hd |]. intros u Hu.
      exact (disjoint_shrink _ _ _ Hu Hin).
  - (* an array of its own *)
    destruct (Hnew n Hn) as [Hn0 Hnb].
    exists (blocks ++ [(new_char heap n, n)]). split; [exact E |].
    split; [| split].
    + split; [rewrite Hheap, app_assoc; reflexivity |]. split.
      { apply Forall_app. split; [exact Hblocks |]. constructor; [exact Hn0 | constructor]. }
      split.
      * constructor.
        { eexists. split; [apply elem_of_app; right; apply list_elem_of_singleton;
                            reflexivity | apply region_within_refl]. }
        eapply Forall_impl; [exact Hused |]. intros u (b & Hb & Hw).
        exists b. split; [apply elem_of_app; auto | exact Hw].
      * rewrite Hp, Hr. intros Hrem. destruct (Htail Hrem) as [(b & Hb & Hw) Hd].
        split; [exists b; split; [apply elem_of_app; auto | exact Hw] |].
        constructor; [| exact Hd].
        assert (D := Hnb _ b Hb Hw _ (region_within_refl (new_char heap n, n))).
        revert D. unfold disjoint_regions. cbn. lia.
    + intros b Hb. apply elem_of_app. auto.
    + apply Forall_forall. intros u Hu.
      rewrite Forall_forall in Hused. destruct (Hused u Hu) as (b & Hb & Hw).
      exact (Hnb u b Hb Hw _ (region_within_refl _)).
  - (* the start of a new block *)
    destruct (Hnew 4096 ltac:(lia)) as [Hn0 Hnb].
    set (p := new_char heap 4096) in *.
    assert (Hrw : region_within (p, n) (p, 4096))
      by (unfold region_within; cbn; lia).
    assert (Htw : region_within (p + n, 4096 - n) (p, 4096))
      by (unfold region_within; cbn; lia).
    exists (blocks ++ [(p, 4096)]). split; [exact E |].
    split; [| split].
    + split; [rewrite Hheap, app_assoc; reflexivity |]. split.
      { apply Forall_app. split; [exact Hblocks |]. constructor; [exact Hn0 | constructor]. }
      split.
      * constructor.
        { eexists. split; [apply elem_of_app; right; apply list_elem_of_singleton;
                            reflexivity | exact Hrw]. }
        eapply Forall_impl; [exact Hused |]. intros u (b & Hb & Hw).
        exists b. split; [apply elem_of_app; auto | exact Hw].
      * rewrite Hp, Hr. intros Hrem. split.
        { eexists. split; [apply elem_of_app; right; apply list_elem_of_singleton;
                            reflexivity | exact Htw]. }
        constructor; [unfold disjoint_regions; cbn; lia |].
        apply Forall_forall. intros u Hu.
        rewrite Forall_forall in Hused. destruct (Hused u Hu) as (b & Hb & Hw).
        exact (Hnb u b Hb Hw _ Htw).
    + intros b Hb. apply elem_of_app. auto.
    + apply Forall_forall. intros u Hu.
      rewrite Forall_forall in Hused. destruct (Hused u Hu) as (b & Hb & Hw).
      exact (Hnb u b Hb Hw _ Hrw).
Qed.

Lemma Arena_run_inv (ops : list ArenaOp) : forall a heap used blocks,
  Arena_inv heap0 a heap used blocks ->
  Forall (ArenaOp_ok sizeof_ptr) ops ->
  exists regions a' heap' blocks',
    run a heap ops = Some (regions, a', heap')
    /\ heap' = heap0 ++ blocks'
    /\ (forall b, b ∈ blocks -> b ∈ blocks')
    /\ Forall (fun b => Forall (disjoint_regions b) heap0) blocks'
    /\ Forall (fun r => exists b, b ∈ blocks' /\ region_within r b) regions
    /\ Forall (fun r => Forall (fun u => disjoint_regions u r) used) regions
    /\ ForallOrdPairs disjoint_regions regions.
Proof.
  induction ops as [| op ops IH]; intros a heap used blocks Hinv Hok.
  - exists [], a, heap, blocks. destruct Hinv as (Hh & Hb & _).
    cbn. repeat split; auto; constructor.
  - apply Forall_cons in Hok as [Hop Hok].
    destruct (Arena_step_inv a heap used blocks op Hinv Hop)
      as (r & a1 & heap1 & blocks1 & E & Hinv1 & Hsub1 & Hd1).
    destruct (IH a1 heap1 _ blocks1 Hinv1 Hok)
      as (regions & a2 & heap2 & blocks2 & E2 & Hh2 & Hsub2 & Hb2 & Hw2 & Hd2 & Hp2).
    exists ((r, ArenaOp_bytes op) :: regions), a2, heap2, blocks2.
    cbn [Arena_run]. rewrite E. cbn [mbind option_bind]. rewrite E2. cbn.
    split; [reflexivity |]. split; [exact Hh2 |]. split; [auto |].
    split; [exact Hb2 |]. split; [| split].
    + constructor; [| exact Hw2].
      destruct Hinv1 as (_ & _ & Hu1 & _). apply Forall_cons in Hu1 as [(b & Hb & Hw) _].
      exists b. auto.
    + constructor; [exact Hd1 |].
      eapply Forall_impl; [exact Hd2 |]. intros x Hx.
      apply Forall_cons in Hx as [_ Hx]. exact Hx.
    + constructor; [| exact Hp2].
      eapply Forall_impl; [exact Hd2 |]. intros x Hx.
      apply Forall_cons in Hx as [Hx _]. exact Hx.
Qed.

End ArenaDisjoint.



(** ** util/arena.h, util/arena.cc: how much a run of [Allocate] wastes *)

Lemma Arena_run_waste (new_char : Arena.Heap -> Z -> Z) (sizeof_ptr : Z)
    (sizes : list Z) : forall a heap (A u w : Z),
  Forall (fun n => 0 < n) sizes ->
  0 <= w -> 0 <= A -> 3 * w <= A ->
  Arena.alloc_bytes_remaining_ a = 0 /\ u = 0
  \/ 0 <= u /\ 0 <= Arena.alloc_bytes_remaining_ a
     /\ u + Arena.alloc_bytes_remaining_ a = 4096 ->
  exists regions a' heap' blocks A' u' w',
    Arena_run new_char sizeof_ptr a heap (OpAllocate <$> sizes)
    = Some (regions, a', heap')
    /\ heap' = heap ++ blocks
    /\ 0 <= w' /\ 0 <= A' /\ 3 * w' <= A'
    /\ (Arena.alloc_bytes_remaining_ a' = 0 /\ u' = 0
        \/ 0 <= u' /\ 0 <= Arena.alloc_bytes_remaining_ a'
           /\ u' + Arena.alloc_bytes_remaining_ a' = 4096)
    /\ A' + u' = A + u + fold_right Z.add 0 sizes
    /\ total_size blocks + (Arena.alloc_bytes_remaining_ a + w)
       = fold_right Z.add 0 sizes + (Arena.alloc_bytes_remaining_ a' + w').
Proof.
  induction sizes as [| n sizes IH]; intros a heap A u w Hpos Hw HA Hq Hcur.
  - exists [], a, heap, [], A, u, w. cbn. rewrite app_nil_r.
    repeat split; auto; lia.
  - apply Forall_cons in Hpos as [Hn Hpos].
    cbn [fmap list_fmap Arena_run Arena_step fold_right].
    unfold Arena.Allocate.
    destruct (Z.leb_spec n (Arena.alloc_bytes_remaining_ a)) as [Hfit | Hno].
    + (* served from the current block *)
      cbn [mbind option_bind].
      edestruct (IH (Arena.mk (Arena.alloc_ptr_ a + n)
                       (Arena.alloc_bytes_remaining_ a - n)
                       (Arena.blocks_ a) (Arena.memory_usage_ a))
                    heap A (u + n) w Hpos Hw HA Hq)
        as (regions & a' & heap' & blocks & A' & u' & w' & E & Hh & Hw' & HA' & Hq'
            & Hcur' & HU & HM).
      { cbn. right. lia. }
      change (list_fmap Z ArenaOp OpAllocate sizes) with (OpAllocate <$> sizes).
      rewrite E. cbn.
      exists ((Arena.alloc_ptr_ a, n) :: regions), a', heap', blocks, A', u', w'.
      cbn in HM. repeat split; auto; lia.
    + destruct (Z_le_dec n 1024) as [Hsmall | Hbig].
      * (* the start of a new block; the tail of the old one is given up *)
        rewrite AllocateFallback_small by lia. cbn [mbind option_bind].
        edestruct (IH (Arena.mk (new_char heap 4096 + n) (4096 - n)
                         (Arena.blocks_ a ++ [new_char heap 4096])
                         (u64 (Arena.memory_usage_ a + u64 (4096 + sizeof_ptr))))
                      (heap ++ [(new_char heap 4096, 4096)])
                      (A + u) n (w + Arena.alloc_bytes_remaining_ a) Hpos)
          as (regions & a' & heap' & blocks & A' & u' & w' & E & Hh & Hw' & HA'
              & Hq' & Hcur' & HU & HM); try (cbn; lia).
        change (list_fmap Z ArenaOp OpAllocate sizes) with (OpAllocate <$> sizes).
        rewrite E. cbn.
        exists ((new_char heap 4096, n) :: regions), a', heap',
          ((new_char heap 4096, 4096) :: blocks), A', u', w'.
        cbn in HM. cbn [total_size fold_right snd]. fold (total_size blocks).
        rewrite Hh, <- app_assoc. repeat split; auto; lia.
      * (* an array of its own *)
        rewrite AllocateFallback_large by lia. cbn [mbind option_bind].
        edestruct (IH (Arena.mk (Arena.alloc_ptr_ a) (Arena.alloc_bytes_remaining_ a)
                         (Arena.blocks_ a ++ [new_char heap n])
                         (u64 (Arena.memory_usage_ a + u64 (n + sizeof_ptr))))
                      (heap ++ [(new_char heap n, n)])
                      (A + n) u w Hpos)
          as (regions & a' & heap' & blocks & A' & u' & w' & E & Hh & Hw' & HA'
              & Hq' & Hcur' & HU & HM); try (cbn; lia).
        change (list_fmap Z ArenaOp OpAllocate sizes) with (OpAllocate <$> sizes).
        rewrite E. cbn.
        exists ((new_char heap n, n) :: regions), a', heap',
          ((new_char heap n, n) :: blocks), A', u', w'.
        cbn in HM. cbn [total_size fold_right snd]. fold (total_size blocks).
        rewrite Hh, <- app_assoc. repeat split; auto; lia.
Qed.

(** [Allocate] wastes at most a quarter of what is asked for, and one
    block: after any run of [Allocate] calls with positive sizes on a new
    arena, the arrays taken from the host hold together at least the bytes
    requested and at most four thirds of them plus 4096. *)
Theorem Arena_waste_bound
  (new_char : Arena.Heap -> Z -> Z) (sizeof_ptr : Z)
  (heap0 : Arena.Heap) (sizes : list Z) :
  Forall (fun n => 0 < n) sizes ->
  exists regions a heap blocks,
    Arena_run new_char sizeof_ptr Arena.Arena heap0 (OpAllocate <$> sizes)
    = Some (regions, a, heap)
    /\ heap = heap0 ++ blocks
    /\ fold_right Z.add 0 sizes <= total_size blocks
    /\ 3 * total_size blocks <= 4 * fold_right Z.add 0 sizes + 3 * 4096.
Proof.
  intros Hpos.
  destruct (Arena_run_waste new_char sizeof_ptr sizes Arena.Arena heap0 0 0 0 Hpos)
    as (regions & a & heap & blocks & A' & u' & w' & E & Hh & Hw' & HA' & Hq'
        & Hcur' & HU & HM); try lia.
  { left. split; reflexivity. }
  exists regions, a, heap, blocks. cbn in HM.
  split; [exact E |]. split; [exact Hh |]. lia.
Qed.

Lemma Arena_waste_bound_witness :
  exists regions a heap blocks,
    Arena_run sample_new_char 8 Arena.Arena [] (OpAllocate <$> [3000; 1000; 1024; 2000])
    = Some (regions, a, heap)
    /\ heap = [] ++ blocks
    /\ fold_right Z.add 0 [3000; 1000; 1024; 2000] <= total_size blocks
    /\ 3 * total_size blocks
       <= 4 * fold_right Z.add 0 [3000; 1000; 1024; 2000] + 3 * 4096.
Proof.
  apply (Arena_waste_bound sample_new_char 8 [] [3000; 1000; 1024; 2000]).
  repeat constructor.
Defined.

(** ** db/skiplist.h: links, chains and keys *)

Section SkipListProofs.

Context {Key Random : Type}.
Variable compare_ : Key -> Key -> Z.
Variable Random_Next : Random -> Z * Random.
Hypothesis Hcmp : Comparator_ok compare_.

Import SkipList.

Implicit Types (ns : list (Node Key)) (sl : SkipList.t Key Random).
Implicit Types (x nx : NodePtr) (l lo hi : list nat) (k : Key).

Lemma Next_Some ns i L nx :
  Next ns (Some i) L = Some nx <->
  exists nd, ns !! i = Some nd /\ next_ nd !! L = Some nx.
Proof.
  unfold Next. cbn. destruct (ns !! i) as [nd|]; cbn.
  - split; [eauto |]. intros (nd' & [= <-] & H). exact H.
  - split; [discriminate |]. intros (nd' & [=] & _).
Qed.

Lemma Next_lt ns i L nx : Next ns (Some i) L = Some nx -> (i < length ns)%nat.
Proof.
  rewrite Next_Some. intros (nd & Hnd & _). eapply lookup_lt_Some, Hnd.
Qed.

Lemma SetNext_Some ns i n v ns' :
  SetNext ns (Some i) n v = Some ns' <->
  exists nd, ns !! i = Some nd /\ (n < length (next_ nd))%nat
             /\ ns' = <[i := mkNode (key nd) (<[n := v]> (next_ nd))]> ns.
Proof.
  unfold SetNext. cbn. destruct (ns !! i) as [nd|]; cbn.
  - destruct (decide (n < length (next_ nd))%nat).
    + split; [intros [= <-]; eauto |]. intros (nd' & [= <-] & _ & ->). reflexivity.
    + split; [discriminate |]. intros (nd' & [= <-] & ? & _). lia.
  - split; [discriminate |]. intros (nd' & [=] & _).
Qed.

Lemma SetNext_defined ns i n v nx :
  Next ns (Some i) n = Some nx -> exists ns', SetNext ns (Some i) n v = Some ns'.
Proof.
  rewrite Next_Some. intros (nd & Hnd & Hn).
  eexists. apply SetNext_Some. exists nd. split; [exact Hnd |].
  split; [eapply lookup_lt_Some, Hn | reflexivity].
Qed.

Lemma SetNext_length ns i n v ns' :
  SetNext ns (Some i) n v = Some ns' -> length ns' = length ns.
Proof.
  rewrite SetNext_Some. intros (nd & _ & _ & ->). apply length_insert.
Qed.

Lemma SetNext_key ns i n v ns' j :
  SetNext ns (Some i) n v = Some ns' -> node_key ns' j = node_key ns j.
Proof.
  rewrite SetNext_Some. intros (nd & Hnd & _ & ->). unfold node_key.
  destruct (decide (j = i)) as [-> | Hne].
  - rewrite list_lookup_insert_eq by (eapply lookup_lt_Some, Hnd).
    rewrite Hnd. reflexivity.
  - rewrite list_lookup_insert_ne by congruence. reflexivity.
Qed.

Lemma SetNext_Next_eq ns i n v ns' :
  SetNext ns (Some i) n v = Some ns' -> Next ns' (Some i) n = Some v.
Proof.
  rewrite SetNext_Some. intros (nd & Hnd & Hn & ->). apply Next_Some.
  eexists. split.
  - apply list_lookup_insert_eq. eapply lookup_lt_Some, Hnd.
  - cbn. apply list_lookup_insert_eq. exact Hn.
Qed.

Lemma SetNext_Next_ne ns i n v ns' j L :
  SetNext ns (Some i) n v = Some ns' -> j <> i \/ L <> n ->
  Next ns' (Some j) L = Next ns (Some j) L.
Proof.
  rewrite SetNext_Some. intros (nd & Hnd & Hn & ->) Hne.
  unfold Next. cbn.
  destruct (decide (j = i)) as [-> | Hji].
  - rewrite list_lookup_insert_eq by (eapply lookup_lt_Some, Hnd).
    rewrite Hnd. cbn. destruct Hne as [? | HL]; [congruence |].
    apply list_lookup_insert_ne. congruence.
  - rewrite list_lookup_insert_ne by congruence. reflexivity.
Qed.

Lemma Next_app ns extra i L :
  (i < length ns)%nat -> Next (ns ++ extra) (Some i) L = Next ns (Some i) L.
Proof.
  intros Hi. unfold Next. cbn. rewrite lookup_app_l by exact Hi. reflexivity.
Qed.

Lemma node_key_app ns extra i :
  (i < length ns)%nat -> node_key (ns ++ extra) i = node_key ns i.
Proof.
  intros Hi. unfold node_key. rewrite lookup_app_l by exact Hi. reflexivity.
Qed.

Lemma node_key_defined ns i L nx :
  Next ns (Some i) L = Some nx -> exists a, node_key ns i = Some a.
Proof.
  rewrite Next_Some. intros (nd & Hnd & _). exists (key nd).
  unfold node_key. rewrite Hnd. reflexivity.
Qed.

(** *** Chains *)

Lemma chain_first ns L x l : chain ns L x l -> x = first_ptr l.
Proof. destruct 1; reflexivity. Qed.

Lemma chain_ext ns ns' L x l :
  (forall j, j ∈ l -> Next ns' (Some j) L = Next ns (Some j) L) ->
  chain ns L x l -> chain ns' L x l.
Proof.
  intros Hsame Hc. induction Hc as [| i nx l Hi Hc IH].
  - constructor.
  - econstructor.
    + rewrite Hsame by (apply elem_of_cons; auto). exact Hi.
    + apply IH. intros j Hj. apply Hsame, elem_of_cons. auto.
Qed.

Lemma chain_lt ns L x l j : chain ns L x l -> j ∈ l -> (j < length ns)%nat.
Proof.
  intros Hc. induction Hc as [| i nx l Hi Hc IH]; intros Hj.
  - apply elem_of_nil in Hj. contradiction.
  - apply elem_of_cons in Hj as [-> | Hj]; [eapply Next_lt, Hi | auto].
Qed.

Lemma chain_key ns L x l j :
  chain ns L x l -> j ∈ l -> exists a, node_key ns j = Some a.
Proof.
  intros Hc. induction Hc as [| i nx l Hi Hc IH]; intros Hj.
  - apply elem_of_nil in Hj. contradiction.
  - apply elem_of_cons in Hj as [-> | Hj]; [eapply node_key_defined, Hi | auto].
Qed.

(** The part of a chain from one of its nodes on is a chain. *)
Lemma chain_suffix ns L x l1 j l2 :
  chain ns L x (l1 ++ j :: l2) -> chain ns L (Some j) (j :: l2).
Proof.
  revert x. induction l1 as [| i l1 IH]; intros x Hc; cbn [app] in Hc.
  - pose proof (chain_first _ _ _ _ Hc) as ->. exact Hc.
  - inversion Hc; subst. eauto.
Qed.

Lemma chain_next ns L j l : chain ns L (Some j) (j :: l) ->
  Next ns (Some j) L = Some (first_ptr l).
Proof.
  intros Hc. inversion Hc as [| i nx l' Hi Hc']; subst.
  rewrite Hi. f_equal. eapply chain_first, Hc'.
Qed.

(** The link out of the last node of a prefix leads to the rest. *)
Lemma chain_next_last ns L x l1 p l2 :
  chain ns L x (l1 ++ p :: l2) -> Next ns (Some p) L = Some (first_ptr l2).
Proof. intros Hc. eapply chain_next, chain_suffix, Hc. Qed.

(** Splicing [new] in after [p]: [p] now points to [new], [new] to what
    followed [p], and the other nodes of the chain are as they were. *)
Lemma chain_insert_after ns ns' L x l1 p l2 new :
  chain ns L x (l1 ++ p :: l2) ->
  NoDup (l1 ++ p :: l2) -> new ∉ l1 ++ p :: l2 ->
  Next ns' (Some p) L = Some (Some new) ->
  Next ns' (Some new) L = Some (first_ptr l2) ->
  (forall j, j <> p -> j <> new -> Next ns' (Some j) L = Next ns (Some j) L) ->
  chain ns' L x (l1 ++ p :: new :: l2).
Proof.
  intros Hc Hnd Hnew Hp Hn Hsame. revert x Hc Hnd Hnew.
  induction l1 as [| i l1 IH]; intros x Hc Hnd Hnew; cbn [app] in *.
  - pose proof (chain_first _ _ _ _ Hc) as ->. cbn.
    inversion Hc as [| ? nx ? Hi Hc']; subst.
    apply NoDup_cons in Hnd as [Hp2 Hnd2].
    econstructor; [exact Hp |]. econstructor; [exact Hn |].
    pose proof (chain_first _ _ _ _ Hc') as ->.
    apply (chain_ext ns); [| exact Hc'].
    intros j Hj. apply Hsame; intros ->; [contradiction |].
    apply Hnew, elem_of_cons. auto.
  - inversion Hc as [| ? nx ? Hi Hc']; subst.
    apply NoDup_cons in Hnd as [Hi2 Hnd2].
    econstructor.
    + rewrite Hsame; [exact Hi | |].
      * intros ->. apply Hi2, elem_of_app. right. apply elem_of_cons. auto.
      * intros ->. apply Hnew, elem_of_cons. auto.
    + apply IH; [exact Hc' | exact Hnd2 |].
      intros Hin. apply Hnew, elem_of_cons. auto.
Qed.

Lemma chain_walk ns L x l fuel :
  chain ns L x l -> (length l <= fuel)%nat -> walk fuel ns L x = Some l.
Proof.
  intros Hc. revert fuel. induction Hc as [| i nx l Hi Hc IH]; intros fuel Hf.
  - destruct fuel; reflexivity.
  - destruct fuel as [| fuel]; cbn in Hf; [lia |].
    cbn [walk]. rewrite Hi. cbn. rewrite IH by lia. reflexivity.
Qed.

(** *** The comparator *)

Lemma cmp_refl a : compare_ a a = 0.
Proof. pose proof (cmp_flip _ Hcmp a a). lia. Qed.

Lemma cmp_sym_eq a b : compare_ a b = 0 -> compare_ b a = 0.
Proof. pose proof (cmp_flip _ Hcmp a b). lia. Qed.

Lemma cmp_lt_equal_r a b c : compare_ a b < 0 -> compare_ b c = 0 -> compare_ a c < 0.
Proof.
  intros Hab Hbc. pose proof (cmp_equal _ Hcmp b c a Hbc).
  pose proof (cmp_flip _ Hcmp a b). pose proof (cmp_flip _ Hcmp a c). lia.
Qed.

Lemma node_lt_irrefl ns i : ~ node_lt compare_ ns i i.
Proof.
  intros (a & b & Ha & Hb & Hlt). rewrite Ha in Hb. injection Hb as <-.
  rewrite cmp_refl in Hlt. lia.
Qed.

Lemma node_lt_below ns k i j :
  node_lt compare_ ns i j -> is_below compare_ ns k j = true ->
  is_below compare_ ns k i = true.
Proof.
  intros (a & b & Ha & Hb & Hlt). unfold is_below. rewrite Ha, Hb.
  intros H%Z.ltb_lt. apply Z.ltb_lt. eapply cmp_trans; eauto.
Qed.


(** *** Splitting a level at a key *)

Lemma take_drop_below ns k l :
  take_below compare_ ns k l ++ drop_below compare_ ns k l = l.
Proof.
  induction l as [| i l IH]; cbn; [reflexivity |].
  destruct (is_below compare_ ns k i); cbn; [f_equal; exact IH | reflexivity].
Qed.

Lemma take_below_Forall ns k l :
  Forall (fun i => is_below compare_ ns k i = true) (take_below compare_ ns k l).
Proof.
  induction l as [| i l IH]; cbn; [constructor |].
  destruct (is_below compare_ ns k i) eqn:E; constructor; assumption.
Qed.

Lemma drop_below_Forall ns k l :
  StronglySorted (node_lt compare_ ns) l ->
  Forall (fun i => is_below compare_ ns k i = false) (drop_below compare_ ns k l).
Proof.
  induction 1 as [| i l Hs IH Hi]; cbn; [constructor |].
  destruct (is_below compare_ ns k i) eqn:E; [exact IH |].
  constructor; [exact E |].
  eapply Forall_impl; [exact Hi |]. intros j Hij. cbn beta.
  destruct (is_below compare_ ns k j) eqn:Ej; [| reflexivity].
  rewrite (node_lt_below _ _ _ _ Hij Ej) in E. discriminate.
Qed.

Lemma take_below_app ns k l1 l2 :
  Forall (fun i => is_below compare_ ns k i = true) l1 ->
  take_below compare_ ns k (l1 ++ l2) = l1 ++ take_below compare_ ns k l2
  /\ drop_below compare_ ns k (l1 ++ l2) = drop_below compare_ ns k l2.
Proof.
  induction 1 as [| i l1 Hi _ [IH1 IH2]]; cbn; [auto |].
  rewrite Hi, IH1, IH2. auto.
Qed.

Lemma take_below_subseteq ns k l i : i ∈ take_below compare_ ns k l -> i ∈ l.
Proof.
  intros Hi. rewrite <- (take_drop_below ns k l). apply elem_of_app. auto.
Qed.

Lemma drop_below_subseteq ns k l i : i ∈ drop_below compare_ ns k l -> i ∈ l.
Proof.
  intros Hi. rewrite <- (take_drop_below ns k l). apply elem_of_app. auto.
Qed.

Lemma node_lt_mono ns ns' i j :
  node_key ns' i = node_key ns i -> node_key ns' j = node_key ns j ->
  node_lt compare_ ns i j -> node_lt compare_ ns' i j.
Proof. unfold node_lt. intros -> ->. auto. Qed.

Lemma sorted_NoDup ns l : StronglySorted (node_lt compare_ ns) l -> NoDup l.
Proof.
  induction 1 as [| i l Hs IH Hi]; constructor; [| exact IH].
  intros Hin. rewrite Forall_forall in Hi.
  exact (node_lt_irrefl ns i (Hi i Hin)).
Qed.

(** In a sorted level, the nodes before one that is below [k] are below [k]. *)
Lemma sorted_prefix_below ns k l1 p l2 :
  StronglySorted (node_lt compare_ ns) (l1 ++ p :: l2) ->
  is_below compare_ ns k p = true ->
  Forall (fun i => is_below compare_ ns k i = true) (l1 ++ [p]).
Proof.
  intros Hs Hp. apply Forall_app. split; [| repeat constructor; exact Hp].
  apply Forall_forall. intros i Hi.
  eapply node_lt_below; [| exact Hp].
  eapply StronglySorted_app_1_elem_of; [exact Hs | exact Hi |].
  apply elem_of_cons. auto.
Qed.

(** *** [FindGreaterOrEqual] *)

Lemma KeyIsAfterNode_node ns k i a :
  node_key ns i = Some a ->
  KeyIsAfterNode compare_ ns k (Some i) = Some (is_below compare_ ns k i).
Proof.
  unfold KeyIsAfterNode, is_below, node_key. cbn.
  destruct (ns !! i) as [nd|]; cbn; [| discriminate].
  intros [= <-]. reflexivity.
Qed.

(** The horizontal part of the search at one level: from [x], whose
    successors at level [L] are [rest], the loop steps over the nodes below
    [k], records the last of them (or [x]) in [prev[L]], and either returns
    its successor (level 0) or goes on one level down. *)
Lemma FindGreaterOrEqual_level sl k L prev : forall rest i fuel,
  chain (nodes sl) L (Some i) (i :: rest) ->
  FindGreaterOrEqual_loop compare_
    (length (take_below compare_ (nodes sl) k rest) + S fuel) sl k (Some i) L prev
  = let p := last (i :: take_below compare_ (nodes sl) k rest) in
    let prev' := (fun a => <[L := p]> a) <$> prev in
    if (L =? 0)%nat
    then Some (first_ptr (drop_below compare_ (nodes sl) k rest), prev')
    else FindGreaterOrEqual_loop compare_ fuel sl k p (L - 1) prev'.
Proof.
  induction rest as [| j rest IH]; intros i fuel Hc.
  - cbn [take_below drop_below length Nat.add FindGreaterOrEqual_loop].
    rewrite (chain_next _ _ _ _ Hc). cbn. reflexivity.
  - cbn [take_below drop_below].
    assert (Hc' : chain (nodes sl) L (Some j) (j :: rest))
      by exact (chain_suffix (nodes sl) L (Some i) [i] j rest Hc).
    destruct (chain_key _ _ _ _ j Hc' ltac:(apply elem_of_cons; auto)) as [a Ha].
    destruct (is_below compare_ (nodes sl) k j) eqn:E.
    + cbn [length Nat.add FindGreaterOrEqual_loop].
      rewrite (chain_next _ _ _ _ Hc). cbn [first_ptr head mbind option_bind].
      rewrite (KeyIsAfterNode_node _ _ _ _ Ha), E. cbn [mbind option_bind].
      rewrite IH by exact Hc'. rewrite last_cons_cons. reflexivity.
    + cbn [length Nat.add FindGreaterOrEqual_loop].
      rewrite (chain_next _ _ _ _ Hc). cbn [first_ptr head mbind option_bind].
      rewrite (KeyIsAfterNode_node _ _ _ _ Ha), E. cbn [mbind option_bind].
      reflexivity.
Qed.

Section WithList.

Variables (sl : SkipList.t Key Random) (lv : nat -> list nat).
Hypothesis Hinv : skiplist_inv compare_ sl lv.

Let h := head_ sl.

Local Abbreviation stop_at := (SkipListSpec.stop_at compare_ sl lv).
Local Abbreviation fill_prev := (SkipListSpec.fill_prev compare_ sl lv).

Lemma level_NoDup L : (L < kMaxHeight)%nat -> NoDup (h :: lv L).
Proof.
  intros HL. apply NoDup_cons. split.
  - apply (inv_head _ _ _ Hinv), HL.
  - eapply sorted_NoDup, (inv_sorted _ _ _ Hinv), HL.
Qed.

Lemma level_lt L i : (L < kMaxHeight)%nat -> i ∈ h :: lv L -> (i < length (nodes sl))%nat.
Proof. intros HL. eapply chain_lt, (inv_chain _ _ _ Hinv), HL. Qed.

Lemma level_length L : (L < kMaxHeight)%nat -> (S (length (lv L)) <= length (nodes sl))%nat.
Proof.
  intros HL. change (S (length (lv L))) with (length (h :: lv L)).
  rewrite <- (length_seq (length (nodes sl)) 0).
  apply submseteq_length, NoDup_submseteq; [apply level_NoDup, HL |].
  intros i Hi. apply elem_of_seq. pose proof (level_lt L i HL Hi). lia.
Qed.

Lemma level_subset_0 L i : (L < kMaxHeight)%nat -> i ∈ lv L -> i ∈ lv 0%nat.
Proof.
  induction L as [| L IH]; intros HL Hi; [exact Hi |].
  apply IH; [lia |]. apply (inv_subset _ _ _ Hinv); [exact HL | exact Hi].
Qed.


Lemma stop_at_cases k L :
  stop_at k L = Some h /\ take_below compare_ (nodes sl) k (lv L) = []
  \/ exists p, stop_at k L = Some p /\ p ∈ take_below compare_ (nodes sl) k (lv L).
Proof.
  unfold SkipListSpec.stop_at. destruct (take_below compare_ (nodes sl) k (lv L)) as [| a tb] eqn:E.
  - left. auto.
  - right. rewrite last_cons_cons.
    destruct (last (a :: tb)) as [p|] eqn:El.
    + exists p. split; [reflexivity |]. eapply last_Some_elem_of, El.
    + apply last_None in El. discriminate.
Qed.

Lemma stop_at_on_level k L :
  exists p, stop_at k L = Some p /\ p ∈ h :: lv L
            /\ (p = h \/ is_below compare_ (nodes sl) k p = true).
Proof.
  destruct (stop_at_cases k L) as [[E _] | (p & E & Hp)].
  - exists h. split; [exact E |]. split; [apply elem_of_cons |]; auto.
  - exists p. split; [exact E |]. split.
    + apply elem_of_cons. right. eapply take_below_subseteq, Hp.
    + right. pose proof (take_below_Forall (nodes sl) k (lv L)) as HF.
      rewrite Forall_forall in HF. apply HF, Hp.
Qed.

(** Where a node that the search has reached stands on its level. *)
Lemma level_position k L i :
  (L < kMaxHeight)%nat -> i ∈ h :: lv L ->
  i = h \/ is_below compare_ (nodes sl) k i = true ->
  exists rest,
    chain (nodes sl) L (Some i) (i :: rest)
    /\ last (i :: take_below compare_ (nodes sl) k rest) = stop_at k L
    /\ drop_below compare_ (nodes sl) k rest = drop_below compare_ (nodes sl) k (lv L)
    /\ (length (take_below compare_ (nodes sl) k rest) < length (nodes sl))%nat.
Proof.
  intros HL Hi Hb.
  pose proof (inv_chain _ _ _ Hinv L HL) as Hc. fold h in Hc.
  pose proof (level_NoDup L HL) as Hnd.
  pose proof (level_length L HL) as Hlen.
  destruct (decide (i = h)) as [-> | Hne].
  - exists (lv L). split; [exact Hc |]. split; [reflexivity |]. split; [reflexivity |].
    rewrite <- (take_drop_below (nodes sl) k (lv L)) in Hlen.
    rewrite length_app in Hlen. lia.
  - destruct Hb as [? | Hb]; [contradiction |].
    apply elem_of_cons in Hi as [? | Hi]; [contradiction |].
    apply list_elem_of_split in Hi as (l1 & rest & E).
    exists rest. split.
    { apply (chain_suffix (nodes sl) L (Some h) (h :: l1)). cbn [app]. rewrite <- E. exact Hc. }
    pose proof (inv_sorted _ _ _ Hinv L HL) as Hs. rewrite E in Hs.
    pose proof (sorted_prefix_below _ k _ _ _ Hs Hb) as HF.
    assert (E' : lv L = (l1 ++ [i]) ++ rest) by (rewrite <- app_assoc; exact E).
    destruct (take_below_app (nodes sl) k (l1 ++ [i]) rest HF) as [Ht Hd].
    unfold SkipListSpec.stop_at. rewrite E', Ht, Hd.
    split; [| split; [reflexivity |]].
    + rewrite <- !app_assoc. cbn [app].
      symmetry. apply (last_app_cons (h :: l1)).
    + rewrite E', !length_app in Hlen.
      pose proof (take_drop_below (nodes sl) k rest) as Htd.
      apply (f_equal length) in Htd. rewrite length_app in Htd. cbn in Hlen. lia.
Qed.


Lemma fill_prev_length k L prev : length (fill_prev k L prev) = length prev.
Proof.
  revert prev. induction L as [| L IH]; intros prev; cbn.
  - apply length_insert.
  - rewrite IH. apply length_insert.
Qed.

Lemma fill_prev_above k L prev L' :
  (L < L')%nat -> fill_prev k L prev !! L' = prev !! L'.
Proof.
  revert prev. induction L as [| L IH]; intros prev HL; cbn.
  - apply list_lookup_insert_ne. lia.
  - rewrite IH by lia. apply list_lookup_insert_ne. lia.
Qed.

Lemma fill_prev_lookup k L prev L' :
  (L' <= L < length prev)%nat -> fill_prev k L prev !! L' = Some (stop_at k L').
Proof.
  revert prev. induction L as [| L IH]; intros prev HL; cbn.
  - replace L' with 0%nat by lia. apply list_lookup_insert_eq. lia.
  - destruct (decide (L' = S L)) as [-> | Hne].
    + rewrite fill_prev_above by lia. apply list_lookup_insert_eq. lia.
    + apply IH. rewrite length_insert. lia.
Qed.

(** The search, coming down from level [L] at a node it may have reached,
    ends at the first node of level 0 that is not below [k], and has filled
    [prev] on the way. *)
Lemma FindGreaterOrEqual_descend k : forall L i fuel prev,
  (L < kMaxHeight)%nat ->
  (S L * S (length (nodes sl)) <= fuel)%nat ->
  i ∈ h :: lv L ->
  i = h \/ is_below compare_ (nodes sl) k i = true ->
  FindGreaterOrEqual_loop compare_ fuel sl k (Some i) L prev
  = Some (first_ptr (drop_below compare_ (nodes sl) k (lv 0%nat)),
          fill_prev k L <$> prev).
Proof.
  induction L as [| L IH]; intros i fuel prev HL Hfuel Hi Hb.
  - destruct (level_position k 0%nat i HL Hi Hb) as (rest & Hc & Hlast & Hdrop & Hlen).
    replace fuel with
      (length (take_below compare_ (nodes sl) k rest)
       + S (fuel - S (length (take_below compare_ (nodes sl) k rest))))%nat by lia.
    rewrite (FindGreaterOrEqual_level sl k 0%nat prev rest i _ Hc).
    cbn zeta. cbn [Nat.eqb]. rewrite Hlast, Hdrop. reflexivity.
  - destruct (level_position k (S L) i HL Hi Hb) as (rest & Hc & Hlast & Hdrop & Hlen).
    replace fuel with
      (length (take_below compare_ (nodes sl) k rest)
       + S (fuel - S (length (take_below compare_ (nodes sl) k rest))))%nat by lia.
    rewrite (FindGreaterOrEqual_level sl k (S L) prev rest i _ Hc).
    cbn zeta. cbn [Nat.eqb]. rewrite Hlast.
    destruct (stop_at_on_level k (S L)) as (p & Ep & Hp & Hpb).
    rewrite Ep. replace (S L - 1)%nat with L by lia.
    rewrite IH.
    + rewrite <- Ep. destruct prev as [prev|]; reflexivity.
    + lia.
    + cbn [Nat.mul] in Hfuel. lia.
    + apply elem_of_cons in Hp as [-> | Hp]; apply elem_of_cons; [auto |].
      right. apply (inv_subset _ _ _ Hinv); [exact HL | exact Hp].
    + exact Hpb.
Qed.

Lemma FindGreaterOrEqual_spec k fuel prev :
  enough_fuel sl fuel ->
  FindGreaterOrEqual compare_ fuel sl k prev
  = Some (first_ptr (drop_below compare_ (nodes sl) k (lv 0%nat)),
          fill_prev k (max_height_ sl - 1) <$> prev).
Proof.
  intros Hfuel. unfold FindGreaterOrEqual, GetMaxHeight. cbv zeta.
  pose proof (inv_height _ _ _ Hinv) as Hh. unfold enough_fuel in Hfuel.
  apply FindGreaterOrEqual_descend.
  - lia.
  - etransitivity; [| exact Hfuel]. apply Nat.mul_le_mono_r. lia.
  - apply elem_of_cons. auto.
  - auto.
Qed.

End WithList.

(** *** [RandomHeight] and the raising of [prev] *)

Lemma RandomHeight_loop_range (n : nat) : forall height rnd,
  (kMaxHeight - height <= n)%nat -> (1 <= height <= kMaxHeight)%nat ->
  (1 <= fst (RandomHeight_loop Random_Next height rnd) <= kMaxHeight)%nat.
Proof.
  induction n as [| n IH]; intros height rnd Hn Hh;
    rewrite RandomHeight_loop_equation_1;
    destruct (lt_dec height kMaxHeight) as [Hlt | Hge]; cbn [fst]; try lia.
  cbv zeta. destruct (_ =? 0); cbn [fst]; [| lia].
  apply IH; lia.
Qed.

Lemma RandomHeight_range rnd :
  (1 <= fst (RandomHeight Random_Next rnd) <= kMaxHeight)%nat.
Proof.
  unfold RandomHeight. cbv zeta.
  apply (RandomHeight_loop_range kMaxHeight); unfold kMaxHeight; lia.
Qed.

Lemma Insert_raise_lookup (prev : list NodePtr) (from height head L : nat) :
  (L < length prev)%nat ->
  Insert_raise prev from height head !! L
  = if decide (from <= L < height)%nat then Some (Some head) else prev !! L.
Proof.
  unfold Insert_raise. intros HL.
  assert (Hgen : forall idx p, (L < length p)%nat ->
    fold_left (fun prev i => <[i := Some head]> prev) idx p !! L
    = if decide (L ∈ idx) then Some (Some head) else p !! L).
  { induction idx as [| i idx IH]; intros p Hp; cbn [fold_left].
    - destruct (decide (L ∈ [])) as [Hin |]; [| reflexivity].
      apply elem_of_nil in Hin. contradiction.
    - rewrite IH by (rewrite length_insert; exact Hp).
      destruct (decide (L ∈ idx)) as [Hin | Hnin].
      + rewrite decide_True by (apply elem_of_cons; auto). reflexivity.
      + destruct (decide (L = i)) as [-> | Hne].
        * rewrite decide_True by (apply elem_of_cons; auto).
          apply list_lookup_insert_eq, Hp.
        * rewrite decide_False by (rewrite elem_of_cons; intros [? | ?]; auto).
          apply list_lookup_insert_ne. congruence. }
  rewrite Hgen by exact HL.
  destruct (decide (from <= L < height)%nat) as [Hr | Hr].
  - rewrite decide_True; [reflexivity |]. apply elem_of_seq. lia.
  - rewrite decide_False; [reflexivity |]. rewrite elem_of_seq. lia.
Qed.

(** *** [Insert]: splicing the new node in *)

Section Insertion.

Variables (sl : SkipList.t Key Random) (lv : nat -> list nat).
Variables (k : Key) (height : nat).
Hypothesis Hinv : skiplist_inv compare_ sl lv.
Hypothesis Hheight : (1 <= height <= kMaxHeight)%nat.
Hypothesis Hfresh : Forall (fun a => compare_ k a <> 0) (node_keys (nodes sl) (lv 0%nat)).

Let h := head_ sl.
Let ns := nodes sl.
Let new := length (nodes sl).
Let ns1 := nodes sl ++ [mkNode k (replicate height None)].

Local Abbreviation tb L := (take_below compare_ (nodes sl) k (lv L)).
Local Abbreviation db L := (drop_below compare_ (nodes sl) k (lv L)).
Local Abbreviation stop_at := (SkipListSpec.stop_at compare_ sl lv).

Lemma new_chain L : (L < kMaxHeight)%nat -> chain ns1 L (Some h) (h :: lv L).
Proof.
  intros HL. pose proof (inv_chain _ _ _ Hinv L HL) as Hc.
  eapply chain_ext; [| exact Hc]. intros j Hj.
  apply Next_app. eapply chain_lt; [exact Hc | exact Hj].
Qed.

Lemma new_not_on_level L : (L < kMaxHeight)%nat -> new ∉ h :: lv L.
Proof.
  intros HL Hin. pose proof (level_lt sl lv Hinv L new HL Hin). unfold new in *. lia.
Qed.

Lemma new_node_links L : (L < height)%nat -> Next ns1 (Some new) L = Some None.
Proof.
  intros HL. apply Next_Some. eexists. split.
  - unfold ns1, new. apply list_lookup_middle. reflexivity.
  - cbn. apply lookup_replicate_2, HL.
Qed.

Lemma new_node_key : node_key ns1 new = Some k.
Proof.
  unfold node_key, ns1, new. rewrite list_lookup_middle by reflexivity. reflexivity.
Qed.

Lemma old_node_key j : (j < length (nodes sl))%nat -> node_key ns1 j = node_key (nodes sl) j.
Proof. apply node_key_app. Qed.

Lemma level_split L :
  (L < kMaxHeight)%nat ->
  exists l1 p, stop_at k L = Some p /\ h :: lv L = l1 ++ p :: db L
               /\ h :: tb L = l1 ++ [p].
Proof.
  intros HL. destruct (stop_at_on_level sl lv k L) as (p & Ep & _ & _).
  pose proof Ep as El. unfold SkipListSpec.stop_at in El.
  apply last_Some in El as [l1 El]. exists l1, p.
  split; [exact Ep |]. split; [| exact El].
  rewrite <- (take_drop_below (nodes sl) k (lv L)) at 1.
  change (h :: tb L ++ db L) with ((head_ sl :: tb L) ++ db L).
  rewrite El, <- app_assoc. reflexivity.
Qed.

Lemma Insert_link_steps (prev : list NodePtr) :
  (forall L, (L < height)%nat -> prev !! L = Some (stop_at k L)) ->
  forall n i ns_i,
    (i + n = height)%nat ->
    length ns_i = S (length (nodes sl)) ->
    (forall j, node_key ns_i j = node_key ns1 j) ->
    (forall L j, (i <= L)%nat -> Next ns_i (Some j) L = Next ns1 (Some j) L) ->
    (forall L, (L < i)%nat -> chain ns_i L (Some h) (h :: tb L ++ new :: db L)) ->
    exists ns',
      Insert_link ns_i (Some new) prev i n = Some ns'
      /\ length ns' = S (length (nodes sl))
      /\ (forall j, node_key ns' j = node_key ns1 j)
      /\ (forall L j, (height <= L)%nat -> Next ns' (Some j) L = Next ns1 (Some j) L)
      /\ (forall L, (L < height)%nat ->
            chain ns' L (Some h) (h :: tb L ++ new :: db L)).
Proof.
  intros Hprev. induction n as [| n IH]; intros i ns_i Hin Hlen Hkey Hsame Hdone.
  - exists ns_i. replace i with height in * by lia. cbn [Insert_link]. auto.
  - assert (Hi : (i < kMaxHeight)%nat) by lia.
    destruct (level_split i Hi) as (l1 & p & Ep & Hlv & Htb).
    assert (Hc : chain ns_i i (Some h) (l1 ++ p :: db i)).
    { rewrite <- Hlv. eapply chain_ext; [| exact (new_chain i Hi)].
      intros j _. apply Hsame. lia. }
    pose proof (chain_next_last _ _ _ _ _ _ Hc) as Hnext.
    assert (Hpnew : p <> new).
    { intros ->. apply (new_not_on_level i Hi). rewrite Hlv.
      apply elem_of_app. right. apply elem_of_cons. auto. }
    assert (Hnewnext : Next ns_i (Some new) i = Some None).
    { rewrite Hsame by lia. apply new_node_links. lia. }
    destruct (SetNext_defined ns_i new i (first_ptr (db i)) _ Hnewnext) as [ns_a Ha].
    assert (Hpa : Next ns_a (Some p) i = Some (first_ptr (db i))).
    { rewrite (SetNext_Next_ne _ _ _ _ _ p i Ha) by auto. exact Hnext. }
    destruct (SetNext_defined ns_a p i (Some new) _ Hpa) as [ns_b Hb].
    cbn [Insert_link]. rewrite Hprev by lia. cbn [mbind option_bind].
    rewrite Ep. unfold NoBarrier_Next, NoBarrier_SetNext.
    rewrite Hnext. cbn [mbind option_bind].
    rewrite Ha. cbn [mbind option_bind]. rewrite Hb. cbn [mbind option_bind].
    apply IH.
    + lia.
    + rewrite (SetNext_length _ _ _ _ _ Hb), (SetNext_length _ _ _ _ _ Ha). exact Hlen.
    + intros j. rewrite (SetNext_key _ _ _ _ _ j Hb), (SetNext_key _ _ _ _ _ j Ha).
      apply Hkey.
    + intros L j HL.
      rewrite (SetNext_Next_ne _ _ _ _ _ j L Hb) by (right; lia).
      rewrite (SetNext_Next_ne _ _ _ _ _ j L Ha) by (right; lia).
      apply Hsame. lia.
    + intros L HL. destruct (decide (L = i)) as [-> | Hne].
      * change (h :: tb i ++ new :: db i) with ((h :: tb i) ++ new :: db i).
        rewrite Htb, <- app_assoc. cbn [app].
        apply (chain_insert_after ns_i); auto.
        -- rewrite <- Hlv. apply (level_NoDup sl lv Hinv), Hi.
        -- rewrite <- Hlv. apply new_not_on_level, Hi.
        -- eapply SetNext_Next_eq, Hb.
        -- rewrite (SetNext_Next_ne _ _ _ _ _ new i Hb) by auto.
           eapply SetNext_Next_eq, Ha.
        -- intros j Hjp Hjn.
           rewrite (SetNext_Next_ne _ _ _ _ _ j i Hb) by auto.
           apply (SetNext_Next_ne _ _ _ _ _ j i Ha). auto.
      * eapply chain_ext; [| apply Hdone; lia]. intros j _.
        rewrite (SetNext_Next_ne _ _ _ _ _ j L Hb) by auto.
        apply (SetNext_Next_ne _ _ _ _ _ j L Ha). auto.
Qed.

Lemma sorted_ext (ns' ns0 : list (Node Key)) l :
  (forall j, j ∈ l -> node_key ns' j = node_key ns0 j) ->
  StronglySorted (node_lt compare_ ns0) l -> StronglySorted (node_lt compare_ ns') l.
Proof.
  intros Hk Hs. induction Hs as [| i l Hs IH Hi]; constructor.
  - apply IH. intros j Hj. apply Hk, elem_of_cons. auto.
  - rewrite Forall_forall in *. intros j Hj.
    apply (node_lt_mono ns0); [| | apply Hi, Hj]; apply Hk, elem_of_cons; auto.
Qed.

Lemma node_keys_ext (ns' ns0 : list (Node Key)) l :
  (forall j, j ∈ l -> node_key ns' j = node_key ns0 j) ->
  node_keys ns' l = node_keys ns0 l.
Proof.
  intros Hk. unfold node_keys. induction l as [| i l IH]; [reflexivity |].
  cbn [omap list_omap]. rewrite (Hk i) by (apply elem_of_cons; auto).
  rewrite IH; [reflexivity |]. intros j Hj. apply Hk, elem_of_cons. auto.
Qed.

Lemma spliced_elem L i :
  i ∈ tb L ++ new :: db L <-> i = new \/ i ∈ lv L.
Proof.
  rewrite <- (take_drop_below (nodes sl) k (lv L)) at 3.
  rewrite !elem_of_app, elem_of_cons. tauto.
Qed.

(** A node of any level that is not below [k] comes after [k]: its key is
    not comparator-equal to [k]. *)
Lemma above_fresh L b :
  (L < kMaxHeight)%nat -> b ∈ lv L -> is_below compare_ (nodes sl) k b = false ->
  exists kb, node_key (nodes sl) b = Some kb /\ compare_ k kb < 0.
Proof.
  intros HL Hb Hnb.
  destruct (chain_key _ _ _ _ b (inv_chain _ _ _ Hinv L HL)
              ltac:(apply elem_of_cons; auto)) as [kb Hkb].
  exists kb. split; [exact Hkb |].
  unfold is_below in Hnb. rewrite Hkb in Hnb. apply Z.ltb_ge in Hnb.
  assert (Hne : compare_ k kb <> 0).
  { rewrite Forall_forall in Hfresh. apply Hfresh.
    apply list_elem_of_omap. exists b. split; [| exact Hkb].
    eapply level_subset_0; eauto. }
  pose proof (cmp_flip _ Hcmp k kb). lia.
Qed.

Section NewNodes.

(** The arena once the loop of [Insert] has run. *)
Variable ns' : list (Node Key).
Hypothesis Hlen' : length ns' = S (length (nodes sl)).
Hypothesis Hkey' : forall j, node_key ns' j = node_key ns1 j.
Hypothesis Hsame' : forall L j, (height <= L)%nat ->
  Next ns' (Some j) L = Next ns1 (Some j) L.
Hypothesis Hchain' : forall L, (L < height)%nat ->
  chain ns' L (Some h) (h :: tb L ++ new :: db L).

Lemma kept_key j : (j < length (nodes sl))%nat -> node_key ns' j = node_key (nodes sl) j.
Proof. intros Hj. rewrite Hkey'. apply old_node_key, Hj. Qed.

Lemma level_kept_key L j : (L < kMaxHeight)%nat -> j ∈ lv L ->
  node_key ns' j = node_key (nodes sl) j.
Proof.
  intros HL Hj. apply kept_key. apply (level_lt sl lv Hinv L j HL).
  apply elem_of_cons. auto.
Qed.

Lemma spliced_sorted L :
  (L < kMaxHeight)%nat ->
  StronglySorted (node_lt compare_ ns') (tb L ++ new :: db L).
Proof.
  intros HL.
  pose proof (inv_sorted _ _ _ Hinv L HL) as Hs.
  rewrite <- (take_drop_below (nodes sl) k (lv L)) in Hs.
  apply StronglySorted_app in Hs as (Hcross & Hs1 & Hs2).
  assert (Hnew : node_key ns' new = Some k) by (rewrite Hkey'; apply new_node_key).
  assert (Hdb : forall b, b ∈ db L -> node_lt compare_ ns' new b).
  { intros b Hb.
    pose proof (drop_below_Forall (nodes sl) k (lv L) (inv_sorted _ _ _ Hinv L HL)) as HF.
    rewrite Forall_forall in HF.
    pose proof (drop_below_subseteq _ _ _ _ Hb) as Hb'.
    destruct (above_fresh L b HL Hb' (HF b Hb)) as (kb & Hkb & Hlt).
    exists k, kb. rewrite (level_kept_key L b HL Hb'). auto. }
  apply StronglySorted_app. split; [| split].
  - intros a b Ha Hb.
    pose proof (take_below_subseteq _ _ _ _ Ha) as Ha'.
    assert (Hka : exists ka, node_key (nodes sl) a = Some ka /\ compare_ ka k < 0).
    { pose proof (take_below_Forall (nodes sl) k (lv L)) as HF.
      rewrite Forall_forall in HF. specialize (HF a Ha).
      unfold is_below in HF. destruct (node_key (nodes sl) a) as [ka|]; [| discriminate].
      exists ka. split; [reflexivity |]. apply Z.ltb_lt, HF. }
    destruct Hka as (ka & Hka & Hlt).
    apply elem_of_cons in Hb as [-> | Hb].
    + exists ka, k. rewrite (level_kept_key L a HL Ha'). auto.
    + destruct (Hdb b Hb) as (k0 & kb & Hk0 & Hkb & Hlt').
      rewrite Hnew in Hk0. injection Hk0 as <-.
      exists ka, kb. rewrite (level_kept_key L a HL Ha').
      split; [exact Hka |]. split; [exact Hkb |]. eapply cmp_trans; eauto.
  - apply (sorted_ext ns' (nodes sl)); [| exact Hs1].
    intros j Hj. apply (level_kept_key L j HL). eapply take_below_subseteq, Hj.
  - constructor.
    + apply (sorted_ext ns' (nodes sl)); [| exact Hs2].
      intros j Hj. apply (level_kept_key L j HL). eapply drop_below_subseteq, Hj.
    + apply Forall_forall. exact Hdb.
Qed.

Lemma Insert_inv (rnd' : Random) :
  skiplist_inv compare_
    {| nodes := ns'; head_ := head_ sl;
       max_height_ :=
         (if (max_height_ sl <? height)%nat then height else max_height_ sl);
       rnd_ := rnd' |}
    (levels_with compare_ (nodes sl) k new height lv).
Proof.
  pose proof (inv_height _ _ _ Hinv) as Hmh.
  split; cbn [nodes head_ max_height_]; unfold levels_with.
  - destruct (Nat.ltb_spec (max_height_ sl) height); lia.
  - intros L HL. destruct (Nat.ltb_spec L height) as [Hlt | Hge].
    + apply Hchain', Hlt.
    + eapply chain_ext; [| exact (new_chain L HL)]. intros j _. apply Hsame', Hge.
  - intros L HL. destruct (Nat.ltb_spec L height) as [Hlt | Hge].
    + apply spliced_sorted, HL.
    + apply (sorted_ext ns' (nodes sl)); [| apply (inv_sorted _ _ _ Hinv), HL].
      intros j Hj. apply (level_kept_key L j HL Hj).
  - intros L HL. destruct (Nat.ltb_spec L height) as [Hlt | Hge].
    + rewrite spliced_elem. intros [Hnew | Hin].
      * apply (new_not_on_level L HL). rewrite <- Hnew. apply elem_of_cons. auto.
      * exact (inv_head _ _ _ Hinv L HL Hin).
    + apply (inv_head _ _ _ Hinv), HL.
  - intros L HL i.
    destruct (Nat.ltb_spec (S L) height) as [Hlt | Hge];
      destruct (Nat.ltb_spec L height) as [Hlt' | Hge']; try lia.
    + rewrite !spliced_elem. intros [-> | Hin]; [auto |].
      right. apply (inv_subset _ _ _ Hinv); assumption.
    + rewrite spliced_elem. intros Hin.
      right. apply (inv_subset _ _ _ Hinv); assumption.
    + apply (inv_subset _ _ _ Hinv), HL.
  - intros L HL. destruct (Nat.ltb_spec (max_height_ sl) height);
      destruct (Nat.ltb_spec L height); try lia;
      apply (inv_top _ _ _ Hinv); lia.
Qed.

Lemma Insert_level0_keys :
  node_keys ns' (levels_with compare_ (nodes sl) k new height lv 0%nat)
  = node_keys (nodes sl) (tb 0%nat) ++ k :: node_keys (nodes sl) (db 0%nat).
Proof.
  assert (H0 : (0 < kMaxHeight)%nat) by (unfold kMaxHeight; lia).
  unfold levels_with. destruct (Nat.ltb_spec 0 height); [| lia].
  unfold node_keys. rewrite omap_app. cbn [omap list_omap].
  fold (node_key ns' new). rewrite (Hkey' new), new_node_key.
  f_equal; [| f_equal]; apply node_keys_ext; intros j Hj;
    apply (level_kept_key 0%nat j H0).
  - eapply take_below_subseteq, Hj.
  - eapply drop_below_subseteq, Hj.
Qed.

End NewNodes.

End Insertion.

Lemma Insert_assert_holds sl lv k :
  skiplist_inv compare_ sl lv ->
  Forall (fun a => compare_ k a <> 0) (node_keys (nodes sl) (lv 0%nat)) ->
  match first_ptr (drop_below compare_ (nodes sl) k (lv 0%nat)) with
  | None => Some true
  | Some i => nd ← nodes sl !! i; Some (negb (Equal compare_ k (key nd)))
  end = Some true.
Proof.
  intros Hinv Hfresh.
  assert (H0 : (0 < kMaxHeight)%nat) by (unfold kMaxHeight; lia).
  destruct (first_ptr _) as [i|] eqn:E; [| reflexivity].
  assert (Hi : i ∈ lv 0%nat).
  { eapply drop_below_subseteq, head_Some_elem_of, E. }
  destruct (chain_key _ _ _ _ i (inv_chain _ _ _ Hinv 0%nat H0)
              ltac:(apply elem_of_cons; auto)) as [a Ha].
  unfold node_key in Ha. destruct (nodes sl !! i) as [nd|] eqn:End; [| discriminate].
  cbn in Ha. injection Ha as <-. cbn [mbind option_bind]. f_equal.
  apply negb_true_iff. unfold Equal. apply Z.eqb_neq.
  rewrite Forall_forall in Hfresh. apply Hfresh.
  apply list_elem_of_omap. exists i. split; [exact Hi |].
  unfold node_key. rewrite End. reflexivity.
Qed.

Lemma Insert_prev_ready sl lv k height L :
  skiplist_inv compare_ sl lv ->
  (L < height <= kMaxHeight)%nat ->
  (if (GetMaxHeight sl <? height)%nat
   then Insert_raise
          (fill_prev compare_ sl lv k (max_height_ sl - 1) (replicate kMaxHeight None))
          (GetMaxHeight sl) height (head_ sl)
   else fill_prev compare_ sl lv k (max_height_ sl - 1) (replicate kMaxHeight None))
  !! L = Some (stop_at compare_ sl lv k L).
Proof.
  intros Hinv HL. pose proof (inv_height _ _ _ Hinv) as Hmh. unfold GetMaxHeight.
  assert (Hfill : forall L', (L' < max_height_ sl)%nat ->
    fill_prev compare_ sl lv k (max_height_ sl - 1) (replicate kMaxHeight None) !! L'
    = Some (stop_at compare_ sl lv k L')).
  { intros L' HL'. apply fill_prev_lookup. rewrite length_replicate. lia. }
  destruct (Nat.ltb_spec (max_height_ sl) height) as [Hlt | Hge].
  - rewrite Insert_raise_lookup
      by (rewrite fill_prev_length, length_replicate; lia).
    destruct (decide (max_height_ sl <= L < height)%nat) as [Hr | Hr].
    + unfold stop_at. rewrite (inv_top _ _ _ Hinv L) by lia. reflexivity.
    + apply Hfill. lia.
  - apply Hfill. lia.
Qed.

(** [Insert] of a key that is comparator-equal to none in the list returns,
    and keeps the invariant: the new node joins the levels below its height,
    each between the nodes before its key and the rest. *)
Lemma Insert_spec sl lv k fuel :
  skiplist_inv compare_ sl lv ->
  Forall (fun a => compare_ k a <> 0) (node_keys (nodes sl) (lv 0%nat)) ->
  enough_fuel sl fuel ->
  exists sl',
    Insert compare_ Random_Next fuel sl k = Some sl'
    /\ skiplist_inv compare_ sl'
         (levels_with compare_ (nodes sl) k (length (nodes sl))
            (fst (RandomHeight Random_Next (rnd_ sl))) lv)
    /\ length (nodes sl') = S (length (nodes sl))
    /\ node_keys (nodes sl')
         (levels_with compare_ (nodes sl) k (length (nodes sl))
            (fst (RandomHeight Random_Next (rnd_ sl))) lv 0%nat)
       = node_keys (nodes sl) (take_below compare_ (nodes sl) k (lv 0%nat))
         ++ k :: node_keys (nodes sl) (drop_below compare_ (nodes sl) k (lv 0%nat)).
Proof.
  intros Hinv Hfresh Hfuel.
  pose proof (RandomHeight_range (rnd_ sl)) as Hh.
  unfold Insert. rewrite (FindGreaterOrEqual_spec sl lv Hinv k fuel _ Hfuel).
  cbn [mbind option_bind fmap option_fmap option_map].
  rewrite (Insert_assert_holds sl lv k Hinv Hfresh).
  cbn [mbind option_bind negb].
  destruct (RandomHeight Random_Next (rnd_ sl)) as [height rnd'] eqn:ERH.
  cbn [fst] in *. unfold NewNode.
  destruct (Insert_link_steps sl lv k height Hinv Hh _
              (fun L HL => Insert_prev_ready sl lv k height L Hinv ltac:(lia))
              height 0%nat (nodes sl ++ [mkNode k (replicate height None)]))
    as (ns' & Hlink & Hlen & Hkey & Hsame & Hchain).
  - lia.
  - rewrite length_app. cbn. lia.
  - reflexivity.
  - reflexivity.
  - intros L HL. lia.
  - rewrite Hlink. cbn [mbind option_bind]. eexists. split; [reflexivity |].
    cbn [nodes]. split; [| split; [exact Hlen |]].
    + apply (Insert_inv sl lv k height Hinv Hh Hfresh ns' Hlen Hkey Hsame Hchain).
    + apply (Insert_level0_keys sl lv k height Hinv Hh ns' Hlen Hkey).
Qed.

(** *** The new list, and a sequence of inserts *)

Lemma SkipList_inv (key0 : Key) (rnd0 : Random) :
  skiplist_inv compare_ (SkipList key0 rnd0) (fun _ => []).
Proof.
  split; unfold SkipList.SkipList; cbn [nodes head_ max_height_].
  - unfold kMaxHeight. lia.
  - intros L HL. econstructor; [| constructor].
    apply Next_Some. eexists. split; [reflexivity |].
    exact (lookup_replicate_2 kMaxHeight None L HL).
  - intros. constructor.
  - intros L _ Hin. apply elem_of_nil in Hin. exact Hin.
  - intros L _ i Hin. exact Hin.
  - reflexivity.
Qed.

Lemma level_keys_spec sl lv fuel L :
  skiplist_inv compare_ sl lv -> (L < kMaxHeight)%nat ->
  (length (nodes sl) <= fuel)%nat ->
  level_keys fuel sl L = Some (node_keys (nodes sl) (lv L))
  /\ StronglySorted (key_lt compare_) (node_keys (nodes sl) (lv L)).
Proof.
  intros Hinv HL Hfuel.
  pose proof (inv_chain _ _ _ Hinv L HL) as Hc.
  pose proof (level_length sl lv Hinv L HL) as Hlen.
  pose proof (inv_sorted _ _ _ Hinv L HL) as Hs.
  inversion Hc as [| ? nx ? Hnext Hc']; subst.
  assert (Hkeys : forall l, (forall j, j ∈ l -> exists a, node_key (nodes sl) j = Some a) ->
    mapM (node_key (nodes sl)) l = Some (node_keys (nodes sl) l)
    /\ (StronglySorted (node_lt compare_ (nodes sl)) l ->
        StronglySorted (key_lt compare_) (node_keys (nodes sl) l))).
  { induction l as [| j l IH]; intros Hdef; [split; [reflexivity | constructor] |].
    destruct (Hdef j ltac:(apply elem_of_cons; auto)) as [a Ha].
    destruct IH as [IH1 IH2]; [intros i Hi; apply Hdef, elem_of_cons; auto |].
    unfold node_keys. cbn [mapM omap list_omap]. rewrite Ha, IH1.
    split; [reflexivity |].
    intros Hss. apply StronglySorted_cons in Hss as [Hj Hss].
    apply StronglySorted_cons. split; [| apply IH2, Hss].
    apply Forall_forall. intros b Hb.
    apply list_elem_of_omap in Hb as (i & Hi & Hib).
    rewrite Forall_forall in Hj. destruct (Hj i Hi) as (a' & b' & Ha' & Hb' & Hlt).
    rewrite Ha in Ha'. rewrite Hib in Hb'. injection Ha' as <-. injection Hb' as <-.
    exact Hlt. }
  destruct (Hkeys (lv L)) as [Hm Hss].
  { intros j Hj. eapply chain_key; [exact Hc' | exact Hj]. }
  split; [| apply Hss, Hs].
  unfold level_keys. rewrite Hnext. cbn [mbind option_bind].
  rewrite (chain_walk _ _ _ _ fuel Hc') by lia. cbn [mbind option_bind]. exact Hm.
Qed.

Lemma InsertAll_spec (ks : list Key) : forall sl lv fuel,
  skiplist_inv compare_ sl lv ->
  distinct_keys compare_ ks ->
  Forall (fun k => Forall (fun a => compare_ k a <> 0)
                          (node_keys (nodes sl) (lv 0%nat))) ks ->
  (kMaxHeight * S (length (nodes sl) + length ks) <= fuel)%nat ->
  exists sl' lv',
    InsertAll compare_ Random_Next fuel sl ks = Some sl'
    /\ skiplist_inv compare_ sl' lv'
    /\ length (nodes sl') = (length (nodes sl) + length ks)%nat
    /\ node_keys (nodes sl') (lv' 0%nat) ≡ₚ ks ++ node_keys (nodes sl) (lv 0%nat).
Proof.
  induction ks as [| k ks IH]; intros sl lv fuel Hinv Hdist Hfresh Hfuel.
  - exists sl, lv. cbn [InsertAll length app]. rewrite Nat.add_0_r. auto.
  - cbn [distinct_keys] in Hdist. destruct Hdist as [Hk Hdist].
    apply Forall_cons in Hfresh as [Hfk Hfresh].
    destruct (Insert_spec sl lv k fuel Hinv Hfk) as (sl1 & HI & Hinv1 & Hlen1 & Hkeys1).
    { unfold enough_fuel. etransitivity; [| exact Hfuel].
      apply Nat.mul_le_mono_l. lia. }
    set (lv1 := levels_with compare_ (nodes sl) k (length (nodes sl))
                  (fst (RandomHeight Random_Next (rnd_ sl))) lv) in *.
    assert (Hperm1 : node_keys (nodes sl1) (lv1 0%nat)
                     ≡ₚ k :: node_keys (nodes sl) (lv 0%nat)).
    { rewrite Hkeys1. rewrite <- Permutation_middle. constructor.
      unfold node_keys. rewrite <- omap_app, take_drop_below. reflexivity. }
    destruct (IH sl1 lv1 fuel Hinv1 Hdist) as (sl' & lv' & HIA & Hinv' & Hlen' & Hperm').
    { rewrite Forall_forall in Hk, Hfresh.
      apply Forall_forall. intros k' Hk'. apply Forall_forall. intros a Ha.
      rewrite Hperm1 in Ha. apply elem_of_cons in Ha as [-> | Ha].
      - intros E. apply (Hk k' Hk'). apply cmp_sym_eq, E.
      - pose proof (Hfresh k' Hk') as Hold. rewrite Forall_forall in Hold.
        exact (Hold a Ha). }
    { rewrite Hlen1. etransitivity; [| exact Hfuel].
      apply Nat.mul_le_mono_l. cbn [length]. lia. }
    exists sl', lv'. cbn [InsertAll]. rewrite HI. cbn [mbind option_bind].
    split; [exact HIA |]. split; [exact Hinv' |]. split.
    + rewrite Hlen', Hlen1. cbn [length]. lia.
    + rewrite Hperm', Hperm1. cbn [app]. rewrite <- Permutation_middle. reflexivity.
Qed.

(** *** [Contains] *)

Lemma Contains_spec sl lv k fuel :
  skiplist_inv compare_ sl lv -> enough_fuel sl fuel ->
  exists b, Contains compare_ fuel sl k = Some b
            /\ (b = true <-> Exists (fun a => compare_ k a = 0)
                                    (node_keys (nodes sl) (lv 0%nat))).
Proof.
  intros Hinv Hfuel.
  assert (H0 : (0 < kMaxHeight)%nat) by (unfold kMaxHeight; lia).
  pose proof (inv_chain _ _ _ Hinv 0%nat H0) as Hc.
  pose proof (inv_sorted _ _ _ Hinv 0%nat H0) as Hs.
  pose proof (take_below_Forall (nodes sl) k (lv 0%nat)) as Htb.
  pose proof (drop_below_Forall (nodes sl) k (lv 0%nat) Hs) as Hdb.
  pose proof (take_drop_below (nodes sl) k (lv 0%nat)) as Htd.
  rewrite Forall_forall in Htb, Hdb.
  unfold Contains. rewrite (FindGreaterOrEqual_spec sl lv Hinv k fuel None Hfuel).
  cbn [mbind option_bind fmap option_fmap option_map].
  (* a node below [k] does not hold a key comparator-equal to [k] *)
  assert (Hlow : forall j a, j ∈ take_below compare_ (nodes sl) k (lv 0%nat) ->
                 node_key (nodes sl) j = Some a -> compare_ k a <> 0).
  { intros j a Hj Ha E. specialize (Htb j Hj). unfold is_below in Htb.
    rewrite Ha in Htb. apply Z.ltb_lt in Htb. apply cmp_sym_eq in E. lia. }
  destruct (drop_below compare_ (nodes sl) k (lv 0%nat)) as [| i rest] eqn:Ed;
    cbn [first_ptr head].
  - exists false. split; [reflexivity |]. split; [discriminate |].
    intros Hex. apply Exists_exists in Hex as (a & Ha & E).
    apply list_elem_of_omap in Ha as (j & Hj & Hja).
    rewrite <- Htd, app_nil_r in Hj. exfalso. exact (Hlow j a Hj Hja E).
  - assert (Hi : i ∈ lv 0%nat)
      by (rewrite <- Htd; apply elem_of_app; right; apply elem_of_cons; auto).
    destruct (chain_key _ _ _ _ i Hc ltac:(apply elem_of_cons; auto)) as [ki Hki].
    pose proof Hki as Hki'. unfold node_key in Hki'.
    destruct (nodes sl !! i) as [nd|]; [| discriminate].
    cbn in Hki'. injection Hki' as <-. cbn [mbind option_bind].
    exists (Equal compare_ k (key nd)). split; [reflexivity |].
    unfold Equal. rewrite Z.eqb_eq. split.
    + intros E. apply Exists_exists. exists (key nd). split; [| exact E].
      apply list_elem_of_omap. eauto.
    + intros Hex. apply Exists_exists in Hex as (a & Ha & E).
      apply list_elem_of_omap in Ha as (j & Hj & Hja).
      rewrite <- Htd in Hj, Hs. apply elem_of_app in Hj as [Hj | Hj].
      { exfalso. exact (Hlow j a Hj Hja E). }
      apply elem_of_cons in Hj as [-> | Hj].
      { rewrite Hki in Hja. injection Hja as <-. exact E. }
      exfalso.
      apply StronglySorted_app in Hs as (_ & _ & Hs2).
      apply StronglySorted_cons in Hs2 as [Hij _].
      rewrite Forall_forall in Hij.
      destruct (Hij j Hj) as (a1 & a2 & Ha1 & Ha2 & Hlt).
      rewrite Hki in Ha1. rewrite Hja in Ha2. injection Ha1 as <-. injection Ha2 as <-.
      pose proof (cmp_lt_equal_r _ _ _ Hlt (cmp_sym_eq _ _ E)) as Hbelow.
      specialize (Hdb i ltac:(apply elem_of_cons; auto)).
      unfold is_below in Hdb. rewrite Hki in Hdb. apply Z.ltb_ge in Hdb. lia.
Qed.

(** C2. After any sequence of inserts of pairwise comparator-distinct keys
    into a new list, the inserts all return, and following the level-0 links
    from the head to the end meets exactly the inserted keys, in strictly
    ascending comparator order; on every level the keys met are strictly
    ascending.  The per-level order is an invariant: it holds after every
    such sequence, and one more [Insert] of a key comparator-equal to none
    of them returns and keeps it. *)
Theorem Insert_levels_ascending
  (key0 : Key) (rnd0 : Random) (ks : list Key) (fuel : nat) :
  distinct_keys compare_ ks ->
  (kMaxHeight * (2 + length ks) <= fuel)%nat ->
  exists sl keys0,
    InsertAll compare_ Random_Next fuel (SkipList.SkipList key0 rnd0) ks = Some sl
    /\ level_keys fuel sl 0 = Some keys0
    /\ StronglySorted (key_lt compare_) keys0
    /\ keys0 ≡ₚ ks
    /\ (forall L, (L < kMaxHeight)%nat ->
          exists keysL, level_keys fuel sl L = Some keysL
                        /\ StronglySorted (key_lt compare_) keysL)
    /\ (forall k, Forall (fun k' => compare_ k k' <> 0) ks ->
          exists sl', Insert compare_ Random_Next fuel sl k = Some sl'
            /\ forall L, (L < kMaxHeight)%nat ->
                 exists keysL, level_keys fuel sl' L = Some keysL
                               /\ StronglySorted (key_lt compare_) keysL).
Proof.
  intros Hdist Hfuel.
  destruct (InsertAll_spec ks (SkipList.SkipList key0 rnd0) (fun _ => []) fuel
              (SkipList_inv key0 rnd0) Hdist)
    as (sl & lv & HIA & Hinv & Hlen & Hperm).
  { apply Forall_forall. intros k _. constructor. }
  { exact Hfuel. }
  cbn [nodes SkipList.SkipList length Nat.add] in Hlen. cbn [node_keys omap list_omap] in Hperm.
  rewrite app_nil_r in Hperm.
  assert (Hf : (length (nodes sl) <= fuel)%nat).
  { rewrite Hlen. unfold kMaxHeight in Hfuel. lia. }
  assert (H0 : (0 < kMaxHeight)%nat) by (unfold kMaxHeight; lia).
  exists sl, (node_keys (nodes sl) (lv 0%nat)).
  destruct (level_keys_spec sl lv fuel 0%nat Hinv H0 Hf) as [Hk0 Hs0].
  repeat (split; [assumption |]). split.
  - intros L HL. exists (node_keys (nodes sl) (lv L)).
    apply (level_keys_spec sl lv fuel L Hinv HL Hf).
  - intros k Hk.
    destruct (Insert_spec sl lv k fuel Hinv) as (sl' & HI & Hinv' & Hlen' & _).
    { apply Forall_forall. intros a Ha. rewrite Hperm in Ha.
      rewrite Forall_forall in Hk. apply Hk, Ha. }
    { unfold enough_fuel. rewrite Hlen. exact Hfuel. }
    exists sl'. split; [exact HI |]. intros L HL. eexists.
    apply (level_keys_spec sl' _ fuel L Hinv' HL).
    rewrite Hlen', Hlen. unfold kMaxHeight in Hfuel. lia.
Qed.

(** C1. After any sequence of inserts of pairwise comparator-distinct keys
    [ks] into a new list, [Contains(k)] returns, and returns [true] if and
    only if [k] is comparator-equal to one of [ks]. *)
Theorem Contains_iff_inserted
  (key0 : Key) (rnd0 : Random) (ks : list Key) (fuel : nat) :
  distinct_keys compare_ ks ->
  (kMaxHeight * (2 + length ks) <= fuel)%nat ->
  exists sl,
    InsertAll compare_ Random_Next fuel (SkipList.SkipList key0 rnd0) ks = Some sl
    /\ forall k, exists b,
         Contains compare_ fuel sl k = Some b
         /\ (b = true <-> Exists (fun k' => compare_ k k' = 0) ks).
Proof.
  intros Hdist Hfuel.
  destruct (InsertAll_spec ks (SkipList.SkipList key0 rnd0) (fun _ => []) fuel
              (SkipList_inv key0 rnd0) Hdist)
    as (sl & lv & HIA & Hinv & Hlen & Hperm).
  { apply Forall_forall. intros k _. constructor. }
  { exact Hfuel. }
  cbn [nodes SkipList.SkipList length Nat.add] in Hlen. cbn [node_keys omap list_omap] in Hperm.
  rewrite app_nil_r in Hperm.
  exists sl. split; [exact HIA |]. intros k.
  destruct (Contains_spec sl lv k fuel Hinv) as (b & Hb & Hiff).
  { unfold enough_fuel. rewrite Hlen. exact Hfuel. }
  exists b. split; [exact Hb |]. rewrite Hiff, !Exists_exists.
  split; intros (a & Ha & E); exists a; (split; [| exact E]).
  - rewrite <- Hperm. exact Ha.
  - rewrite Hperm. exact Ha.
Qed.

(** *** [FindLessThan] and [FindLast] *)

Lemma FindLessThan_assert_holds sl k i :
  i = head_ sl \/ is_below compare_ (nodes sl) k i = true ->
  forall d : Decision (Some i = Some (head_ sl)),
    (if d then Some true
     else i0 ← Some i; nd ← nodes sl !! i0; Some (compare_ (key nd) k <? 0))
    = Some true.
Proof.
  intros Hi [| Hne]; [reflexivity |].
  destruct Hi as [-> | Hb]; [contradiction |].
  unfold is_below, node_key in Hb. cbn [mbind option_bind].
  destruct (nodes sl !! i) as [nd|]; [| discriminate]. cbn in *. congruence.
Qed.

Lemma FindLessThan_level sl k L : forall rest i fuel,
  chain (nodes sl) L (Some i) (i :: rest) ->
  i = head_ sl \/ is_below compare_ (nodes sl) k i = true ->
  FindLessThan_loop compare_
    (length (take_below compare_ (nodes sl) k rest) + S fuel) sl k (Some i) L
  = let p := last (i :: take_below compare_ (nodes sl) k rest) in
    if (L =? 0)%nat then Some p
    else FindLessThan_loop compare_ fuel sl k p (L - 1).
Proof.
  induction rest as [| j rest IH]; intros i fuel Hc Hi.
  - cbn [take_below length Nat.add FindLessThan_loop].
    pose proof (FindLessThan_assert_holds sl k i Hi) as Hassert.
    rewrite Hassert. cbn [mbind option_bind negb].
    rewrite (chain_next _ _ _ _ Hc). cbn. reflexivity.
  - cbn [take_below].
    assert (Hc' : chain (nodes sl) L (Some j) (j :: rest))
      by exact (chain_suffix (nodes sl) L (Some i) [i] j rest Hc).
    destruct (chain_key _ _ _ _ j Hc' ltac:(apply elem_of_cons; auto)) as [a Ha].
    pose proof (FindLessThan_assert_holds sl k i Hi) as Hassert.
    assert (Hblocked :
      (nd ← nodes sl !! j; Some (compare_ (key nd) k >=? 0))
      = Some (negb (is_below compare_ (nodes sl) k j))).
    { unfold is_below. rewrite Ha. unfold node_key in Ha.
      destruct (nodes sl !! j) as [nd|]; [| discriminate].
      cbn in *. injection Ha as <-. f_equal.
      rewrite Z.geb_leb, Z.leb_antisym. reflexivity. }
    destruct (is_below compare_ (nodes sl) k j) eqn:E.
    + cbn [length Nat.add FindLessThan_loop].
      rewrite Hassert. cbn [mbind option_bind negb].
      rewrite (chain_next _ _ _ _ Hc). cbn [first_ptr head mbind option_bind].
      rewrite Hblocked. cbn [mbind option_bind negb].
      rewrite IH by auto. rewrite last_cons_cons. reflexivity.
    + cbn [length Nat.add FindLessThan_loop].
      rewrite Hassert. cbn [mbind option_bind negb].
      rewrite (chain_next _ _ _ _ Hc). cbn [first_ptr head mbind option_bind].
      rewrite Hblocked. cbn [mbind option_bind negb]. reflexivity.
Qed.

Lemma FindLast_level sl L : forall rest i fuel,
  chain (nodes sl) L (Some i) (i :: rest) ->
  FindLast_loop (length rest + S fuel) sl (Some i) L
  = let p := last (i :: rest) in
    if (L =? 0)%nat then Some p else FindLast_loop fuel sl p (L - 1).
Proof.
  induction rest as [| j rest IH]; intros i fuel Hc.
  - cbn [length Nat.add FindLast_loop].
    rewrite (chain_next _ _ _ _ Hc). cbn. reflexivity.
  - assert (Hc' : chain (nodes sl) L (Some j) (j :: rest))
      by exact (chain_suffix (nodes sl) L (Some i) [i] j rest Hc).
    cbn [length Nat.add FindLast_loop].
    rewrite (chain_next _ _ _ _ Hc). cbn [first_ptr head mbind option_bind].
    rewrite IH by exact Hc'. rewrite last_cons_cons. reflexivity.
Qed.

Section Searches.

Variables (sl : SkipList.t Key Random) (lv : nat -> list nat).
Hypothesis Hinv : skiplist_inv compare_ sl lv.

Local Abbreviation h := (head_ sl).
Local Abbreviation stop_at := (SkipListSpec.stop_at compare_ sl lv).

Lemma FindLessThan_descend k : forall L i fuel,
  (L < kMaxHeight)%nat ->
  (S L * S (length (nodes sl)) <= fuel)%nat ->
  i ∈ h :: lv L ->
  i = h \/ is_below compare_ (nodes sl) k i = true ->
  FindLessThan_loop compare_ fuel sl k (Some i) L = Some (stop_at k 0%nat).
Proof.
  induction L as [| L IH]; intros i fuel HL Hfuel Hi Hb.
  - destruct (level_position sl lv Hinv k 0%nat i HL Hi Hb)
      as (rest & Hc & Hlast & Hdrop & Hlen).
    replace fuel with
      (length (take_below compare_ (nodes sl) k rest)
       + S (fuel - S (length (take_below compare_ (nodes sl) k rest))))%nat by lia.
    rewrite (FindLessThan_level sl k 0%nat rest i _ Hc Hb).
    cbn zeta. cbn [Nat.eqb]. rewrite Hlast. reflexivity.
  - destruct (level_position sl lv Hinv k (S L) i HL Hi Hb)
      as (rest & Hc & Hlast & Hdrop & Hlen).
    replace fuel with
      (length (take_below compare_ (nodes sl) k rest)
       + S (fuel - S (length (take_below compare_ (nodes sl) k rest))))%nat by lia.
    rewrite (FindLessThan_level sl k (S L) rest i _ Hc Hb).
    cbn zeta. cbn [Nat.eqb]. rewrite Hlast.
    destruct (stop_at_on_level sl lv k (S L)) as (p & Ep & Hp & Hpb).
    rewrite Ep. replace (S L - 1)%nat with L by lia.
    apply IH.
    + lia.
    + cbn [Nat.mul] in Hfuel. lia.
    + apply elem_of_cons in Hp as [-> | Hp]; apply elem_of_cons; [auto |].
      right. apply (inv_subset _ _ _ Hinv); [exact HL | exact Hp].
    + exact Hpb.
Qed.

Lemma FindLessThan_spec k fuel :
  enough_fuel sl fuel ->
  FindLessThan compare_ fuel sl k = Some (stop_at k 0%nat).
Proof.
  intros Hfuel. unfold FindLessThan, GetMaxHeight. cbv zeta.
  pose proof (inv_height _ _ _ Hinv) as Hh. unfold enough_fuel in Hfuel.
  apply FindLessThan_descend.
  - lia.
  - etransitivity; [| exact Hfuel]. apply Nat.mul_le_mono_r. lia.
  - apply elem_of_cons. auto.
  - auto.
Qed.

Lemma FindLast_descend : forall L i fuel,
  (L < kMaxHeight)%nat ->
  (S L * S (length (nodes sl)) <= fuel)%nat ->
  i ∈ h :: lv L ->
  FindLast_loop fuel sl (Some i) L = Some (last (h :: lv 0%nat)).
Proof.
  induction L as [| L IH]; intros i fuel HL Hfuel Hi;
    pose proof (level_length sl lv Hinv _ HL) as Hlen;
    apply list_elem_of_split in Hi as (l1 & rest & E);
    pose proof (inv_chain _ _ _ Hinv _ HL) as Hc; rewrite E in Hc;
    apply (f_equal length) in E as Hl; rewrite length_app in Hl; cbn [length] in Hl;
    replace fuel with (length rest + S (fuel - S (length rest)))%nat by lia;
    rewrite (FindLast_level sl _ rest i _ (chain_suffix _ _ _ _ _ _ Hc));
    cbn zeta; cbn [Nat.eqb]; rewrite <- (last_app_cons l1), <- E.
  - reflexivity.
  - destruct (last (h :: lv (S L))) as [p|] eqn:Ep;
      [| apply last_None in Ep; discriminate].
    replace (S L - 1)%nat with L by lia. apply IH.
    + lia.
    + cbn [Nat.mul] in Hfuel. lia.
    + apply last_Some_elem_of in Ep.
      apply elem_of_cons in Ep as [-> | Hp]; apply elem_of_cons; [auto |].
      right. apply (inv_subset _ _ _ Hinv); [exact HL | exact Hp].
Qed.

Lemma FindLast_spec fuel :
  enough_fuel sl fuel -> FindLast fuel sl = Some (last (h :: lv 0%nat)).
Proof.
  intros Hfuel. unfold FindLast, GetMaxHeight. cbv zeta.
  pose proof (inv_height _ _ _ Hinv) as Hh. unfold enough_fuel in Hfuel.
  apply FindLast_descend.
  - lia.
  - etransitivity; [| exact Hfuel]. apply Nat.mul_le_mono_r. lia.
  - apply elem_of_cons. auto.
Qed.

End Searches.

(** *** The iterator *)

Section Iteration.

Variables (sl : SkipList.t Key Random) (lv : nat -> list nat) (fuel : nat).
Hypothesis Hinv : skiplist_inv compare_ sl lv.
Hypothesis Hfuel : enough_fuel sl fuel.

Lemma level0_valid : (0 < kMaxHeight)%nat.
Proof. unfold kMaxHeight. lia. Qed.

Lemma positioned_ptr (n : NodePtr) :
  (forall i, n = Some i -> i ∈ lv 0%nat) -> positioned lv {| node_ := n |}.
Proof. unfold positioned. cbn. destruct n; auto. Qed.

Lemma unless_head_positioned (n : NodePtr) :
  (forall i, n = Some i -> i ∈ head_ sl :: lv 0%nat) ->
  positioned lv {| node_ := if decide (n = Some (head_ sl)) then None else n |}.
Proof.
  intros Hn. apply positioned_ptr. intros i.
  destruct (decide (n = Some (head_ sl))) as [| Hne]; [discriminate |].
  intros ->. specialize (Hn i eq_refl).
  apply elem_of_cons in Hn as [-> | Hn]; [congruence | exact Hn].
Qed.

Lemma Iterator_step_ok it op :
  positioned lv it -> Iterator_requires it op ->
  exists it', Iterator_step compare_ fuel sl it op = Some it' /\ positioned lv it'.
Proof.
  intros Hpos Hreq.
  pose proof (inv_chain _ _ _ Hinv 0%nat level0_valid) as Hc.
  destruct op as [target | | | |]; cbn [Iterator_step].
  - (* Seek *)
    unfold Iterator_Seek.
    rewrite (FindGreaterOrEqual_spec sl lv Hinv target fuel None Hfuel).
    cbn [mbind option_bind fmap option_fmap option_map].
    eexists. split; [reflexivity |]. apply positioned_ptr. intros i Hi.
    eapply drop_below_subseteq, head_Some_elem_of, Hi.
  - (* SeekToFirst *)
    unfold Iterator_SeekToFirst. rewrite (chain_next _ _ _ _ Hc).
    cbn [mbind option_bind]. eexists. split; [reflexivity |].
    apply positioned_ptr. intros i Hi. eapply head_Some_elem_of, Hi.
  - (* SeekToLast *)
    unfold Iterator_SeekToLast. rewrite (FindLast_spec sl lv Hinv fuel Hfuel).
    cbn [mbind option_bind]. eexists. split; [reflexivity |].
    apply unless_head_positioned. intros i Hi. eapply last_Some_elem_of, Hi.
  - (* Next *)
    cbn [Iterator_requires] in Hreq. unfold Iterator_Next. rewrite Hreq.
    unfold Valid in Hreq. unfold positioned in Hpos.
    destruct (node_ it) as [i|]; [| discriminate].
    apply list_elem_of_split in Hpos as (l1 & rest & E).
    rewrite E in Hc.
    rewrite (chain_next_last _ _ _ (head_ sl :: l1) i rest Hc).
    cbn [mbind option_bind]. eexists. split; [reflexivity |].
    apply positioned_ptr. intros j Hj. rewrite E.
    apply elem_of_app. right. apply elem_of_cons. right.
    eapply head_Some_elem_of, Hj.
  - (* Prev *)
    cbn [Iterator_requires] in Hreq. unfold Iterator_Prev. rewrite Hreq.
    unfold Valid in Hreq. unfold positioned in Hpos.
    destruct (node_ it) as [i|]; [| discriminate].
    destruct (chain_key _ _ _ _ i Hc ltac:(apply elem_of_cons; auto)) as [a Ha].
    unfold node_key in Ha. cbn [mbind option_bind].
    destruct (nodes sl !! i) as [nd|]; [| discriminate]. cbn [mbind option_bind].
    rewrite (FindLessThan_spec sl lv Hinv (key nd) fuel Hfuel).
    cbn [mbind option_bind]. eexists. split; [reflexivity |].
    apply unless_head_positioned. intros j Hj.
    destruct (stop_at_on_level sl lv (key nd) 0%nat) as (p & Ep & Hp & _).
    rewrite Ep in Hj. injection Hj as <-. exact Hp.
Qed.

Lemma Iterator_step_requires it op it' :
  Iterator_step compare_ fuel sl it op = Some it' -> Iterator_requires it op.
Proof.
  destruct op; cbn [Iterator_step Iterator_requires]; auto.
  - unfold Iterator_Next. destruct (Valid it); [reflexivity | discriminate].
  - unfold Iterator_Prev. destruct (Valid it); [reflexivity | discriminate].
Qed.

Lemma Iterator_run_ok (ops : list (IteratorOp (Key := Key))) : forall it it',
  positioned lv it ->
  Iterator_run compare_ fuel sl it ops = Some it' -> positioned lv it'.
Proof.
  induction ops as [| op ops IH]; intros it it' Hpos; cbn [Iterator_run].
  - intros [= <-]. exact Hpos.
  - destruct (Iterator_step compare_ fuel sl it op) as [it1|] eqn:E;
      cbn [mbind option_bind]; [| discriminate].
    destruct (Iterator_step_ok it op Hpos (Iterator_step_requires _ _ _ E))
      as (it1' & E' & Hpos1).
    rewrite E in E'. injection E' as <-. apply IH, Hpos1.
Qed.

Lemma positioned_not_head it : positioned lv it -> node_ it <> Some (head_ sl).
Proof.
  unfold positioned. intros Hpos E. rewrite E in Hpos.
  exact (inv_head _ _ _ Hinv 0%nat level0_valid Hpos).
Qed.

End Iteration.

(** C7. On a list built by inserting pairwise comparator-distinct keys,
    every state an iterator reaches from a new [Iterator] through [Seek],
    [SeekToFirst], [SeekToLast], [Next] and [Prev] (each run only when its
    [Valid()] assertion holds) has a current node that is not the head, so
    that [Valid()] is true exactly when the current node is neither null
    nor the head; and in every such state each operation whose assertion
    holds returns. *)
Theorem Iterator_never_at_head
  (key0 : Key) (rnd0 : Random) (ks : list Key) (fuel : nat) :
  distinct_keys compare_ ks ->
  (kMaxHeight * (2 + length ks) <= fuel)%nat ->
  exists sl,
    InsertAll compare_ Random_Next fuel (SkipList.SkipList key0 rnd0) ks = Some sl
    /\ forall ops it,
         Iterator_run compare_ fuel sl Iterator_new ops = Some it ->
         node_ it <> Some (head_ sl)
         /\ (Valid it = true <-> node_ it <> None /\ node_ it <> Some (head_ sl))
         /\ forall op, Iterator_requires it op ->
              exists it', Iterator_step compare_ fuel sl it op = Some it'.
Proof.
  intros Hdist Hfuel.
  destruct (InsertAll_spec ks (SkipList.SkipList key0 rnd0) (fun _ => []) fuel
              (SkipList_inv key0 rnd0) Hdist)
    as (sl & lv & HIA & Hinv & Hlen & _).
  { apply Forall_forall. intros k _. constructor. }
  { exact Hfuel. }
  cbn [nodes SkipList.SkipList length Nat.add] in Hlen.
  assert (Hf : enough_fuel sl fuel) by (unfold enough_fuel; rewrite Hlen; exact Hfuel).
  exists sl. split; [exact HIA |]. intros ops it Hrun.
  assert (Hpos : positioned lv it).
  { eapply (Iterator_run_ok sl lv fuel Hinv Hf); [| exact Hrun]. exact I. }
  pose proof (positioned_not_head sl lv Hinv it Hpos) as Hnh.
  split; [exact Hnh |]. split.
  - unfold Valid. destruct (node_ it) as [i|].
    + split; [intros _; split; [discriminate | exact Hnh] | reflexivity].
    + split; [discriminate | intros [Hnn _]; contradiction].
  - intros op Hreq.
    destruct (Iterator_step_ok sl lv fuel Hinv Hf it op Hpos Hreq) as (it' & E & _).
    exists it'. exact E.
Qed.

(** ** db/skiplist.h: lists built by [Insert], seen through their keys *)

(** A list built from a new one by inserting pairwise comparator-distinct
    keys satisfies the invariant, and its level 0 holds the inserted keys
    in ascending order. *)
Lemma InsertAll_built (key0 : Key) (rnd0 : Random) (ks : list Key) (fuel : nat) :
  distinct_keys compare_ ks ->
  (kMaxHeight * (2 + length ks) <= fuel)%nat ->
  exists sl lv,
    InsertAll compare_ Random_Next fuel (SkipList.SkipList key0 rnd0) ks = Some sl
    /\ skiplist_inv compare_ sl lv
    /\ enough_fuel sl fuel
    /\ (length (nodes sl) <= fuel)%nat
    /\ node_keys (nodes sl) (lv 0%nat) ≡ₚ ks
    /\ level_keys fuel sl 0 = Some (node_keys (nodes sl) (lv 0%nat))
    /\ StronglySorted (key_lt compare_) (node_keys (nodes sl) (lv 0%nat)).
Proof.
  intros Hdist Hfuel.
  destruct (InsertAll_spec ks (SkipList.SkipList key0 rnd0) (fun _ => []) fuel
              (SkipList_inv key0 rnd0) Hdist)
    as (sl & lv & HIA & Hinv & Hlen & Hperm).
  { apply Forall_forall. intros k _. constructor. }
  { exact Hfuel. }
  cbn [nodes SkipList.SkipList length Nat.add] in Hlen.
  cbn [node_keys omap list_omap] in Hperm. rewrite app_nil_r in Hperm.
  assert (Hf : (length (nodes sl) <= fuel)%nat).
  { rewrite Hlen. unfold kMaxHeight in Hfuel. lia. }
  exists sl, lv. split; [exact HIA |]. split; [exact Hinv |].
  split; [unfold enough_fuel; rewrite Hlen; exact Hfuel |].
  split; [exact Hf |]. split; [exact Hperm |].
  apply (level_keys_spec sl lv fuel 0%nat Hinv level0_valid Hf).
Qed.

Lemma node_keys_cons ns i l a :
  node_key ns i = Some a -> node_keys ns (i :: l) = a :: node_keys ns l.
Proof. intros H. unfold node_keys. cbn [omap list_omap]. rewrite H. reflexivity. Qed.

Lemma node_keys_app ns l1 l2 :
  node_keys ns (l1 ++ l2) = node_keys ns l1 ++ node_keys ns l2.
Proof. apply omap_app. Qed.

Lemma Iterator_key_node sl i a :
  node_key (nodes sl) i = Some a -> Iterator_key sl {| node_ := Some i |} = Some a.
Proof.
  unfold Iterator_key, node_key. cbn. destruct (nodes sl !! i); cbn; congruence.
Qed.

Section BuiltList.

Variables (sl : SkipList.t Key Random) (lv : nat -> list nat) (fuel : nat).
Hypothesis Hinv : skiplist_inv compare_ sl lv.
Hypothesis Hfuel : enough_fuel sl fuel.

Lemma level0_key i : i ∈ lv 0%nat -> exists a, node_key (nodes sl) i = Some a.
Proof.
  intros Hi. pose proof (inv_chain _ _ _ Hinv 0%nat level0_valid) as Hc.
  apply (chain_key _ _ _ _ i Hc). apply elem_of_cons. auto.
Qed.

(** The keys of a stretch of level 0 and the nodes that hold them. *)
Lemma node_keys_elem l a :
  a ∈ node_keys (nodes sl) l <-> exists i, i ∈ l /\ node_key (nodes sl) i = Some a.
Proof. apply list_elem_of_omap. Qed.

Lemma node_keys_head l :
  (forall i, i ∈ l -> i ∈ lv 0%nat) ->
  Iterator_key sl {| node_ := first_ptr l |} = head (node_keys (nodes sl) l).
Proof.
  intros Hl. destruct l as [| i l]; [reflexivity |].
  destruct (level0_key i (Hl i ltac:(apply elem_of_cons; auto))) as [a Ha].
  cbn [first_ptr head]. rewrite (node_keys_cons _ _ _ _ Ha).
  apply Iterator_key_node, Ha.
Qed.

(** Where a node of level 0 stands, the search for its key splits the
    level. *)
Lemma level0_split l1 i l2 a :
  lv 0%nat = l1 ++ i :: l2 -> node_key (nodes sl) i = Some a ->
  take_below compare_ (nodes sl) a (lv 0%nat) = l1
  /\ drop_below compare_ (nodes sl) a (lv 0%nat) = i :: l2.
Proof.
  intros E Ha.
  pose proof (inv_sorted _ _ _ Hinv 0%nat level0_valid) as Hs. rewrite E in Hs |- *.
  apply StronglySorted_app in Hs as (Hlt & _ & _).
  assert (Hl1 : Forall (fun j => is_below compare_ (nodes sl) a j = true) l1).
  { apply Forall_forall. intros j Hj.
    destruct (Hlt j i Hj ltac:(apply elem_of_cons; auto)) as (x & y & Hx & Hy & Hxy).
    rewrite Ha in Hy. injection Hy as <-.
    unfold is_below. rewrite Hx. apply Z.ltb_lt, Hxy. }
  destruct (take_below_app (nodes sl) a l1 (i :: l2) Hl1) as [-> ->].
  cbn [take_below drop_below]. unfold is_below. rewrite Ha, cmp_refl.
  cbn. rewrite app_nil_r. auto.
Qed.

Lemma scan_forward_level0 l2 : forall l1 n,
  lv 0%nat = l1 ++ l2 -> (length l2 <= n)%nat ->
  scan_forward n sl {| node_ := first_ptr l2 |} = Some (node_keys (nodes sl) l2).
Proof.
  pose proof (inv_chain _ _ _ Hinv 0%nat level0_valid) as Hc.
  induction l2 as [| i l2 IH]; intros l1 n E Hn.
  - destruct n; reflexivity.
  - destruct n as [| n]; [cbn in Hn; lia |].
    destruct (level0_key i) as [a Ha].
    { rewrite E. apply elem_of_app. right. apply elem_of_cons. auto. }
    cbn [scan_forward first_ptr head Valid node_].
    rewrite (Iterator_key_node _ _ _ Ha). cbn [mbind option_bind].
    unfold Iterator_Next. cbn [Valid node_].
    rewrite E in Hc.
    rewrite (chain_next_last _ _ _ (head_ sl :: l1) i l2 Hc).
    cbn [mbind option_bind].
    rewrite (IH (l1 ++ [i]) n) by (rewrite <- ?app_assoc; cbn in *; auto; lia).
    cbn [mbind option_bind]. rewrite (node_keys_cons _ _ _ _ Ha). reflexivity.
Qed.

(** [Prev] from a node of level 0 lands on the node before it, or on no
    node when it is the first. *)
Lemma Iterator_Prev_level0 l1 i l2 :
  lv 0%nat = l1 ++ i :: l2 ->
  Iterator_Prev compare_ fuel sl {| node_ := Some i |}
  = Some {| node_ := last l1 |}.
Proof.
  intros E.
  destruct (level0_key i) as [a Ha].
  { rewrite E. apply elem_of_app. right. apply elem_of_cons. auto. }
  unfold Iterator_Prev. cbn [Valid node_ mbind option_bind].
  pose proof Ha as Ha'. unfold node_key in Ha'.
  destruct (nodes sl !! i) as [nd|]; [| discriminate].
  cbn in Ha'. injection Ha' as Ha'. cbn [mbind option_bind].
  rewrite (FindLessThan_spec sl lv Hinv (key nd) fuel Hfuel).
  cbn [mbind option_bind]. unfold stop_at. rewrite Ha'.
  destruct (level0_split l1 i l2 a E Ha) as [-> _].
  f_equal. f_equal.
  destruct l1 as [| j l1] using rev_ind.
  - cbn. destruct (decide (Some (head_ sl) = Some (head_ sl))); [reflexivity | congruence].
  - clear IHl1. rewrite app_comm_cons, !last_snoc.
    destruct (decide (Some j = Some (head_ sl))) as [Ej | _]; [| reflexivity].
    exfalso. injection Ej as ->.
    apply (inv_head _ _ _ Hinv 0%nat level0_valid). rewrite E.
    apply elem_of_app. left. apply elem_of_app. right. apply elem_of_cons. auto.
Qed.

Lemma scan_backward_level0 l1 : forall l2 n,
  lv 0%nat = l1 ++ l2 -> (length l1 <= n)%nat ->
  scan_backward compare_ fuel n sl {| node_ := last l1 |}
  = Some (rev (node_keys (nodes sl) l1)).
Proof.
  induction l1 as [| i l1 IH] using rev_ind; intros l2 n E Hn.
  - destruct n; reflexivity.
  - rewrite length_app in Hn. cbn in Hn.
    destruct n as [| n]; [lia |].
    rewrite <- app_assoc in E. cbn [app] in E.
    destruct (level0_key i) as [a Ha].
    { rewrite E. apply elem_of_app. right. apply elem_of_cons. auto. }
    rewrite last_snoc. cbn [scan_backward Valid node_].
    rewrite (Iterator_key_node _ _ _ Ha). cbn [mbind option_bind].
    rewrite (Iterator_Prev_level0 l1 i l2 E). cbn [mbind option_bind].
    rewrite (IH (i :: l2) n E) by lia. cbn [mbind option_bind].
    rewrite node_keys_app, (node_keys_cons _ _ _ _ Ha). cbn [node_keys omap list_omap].
    rewrite rev_app_distr. reflexivity.
Qed.

End BuiltList.

Lemma node_keys_length sl lv l :
  skiplist_inv compare_ sl lv -> (forall i, i ∈ l -> i ∈ lv 0%nat) ->
  length (node_keys (nodes sl) l) = length l.
Proof.
  intros Hinv. induction l as [| i l IH]; intros Hl; [reflexivity |].
  destruct (level0_key sl lv Hinv i (Hl i ltac:(apply elem_of_cons; auto))) as [a Ha].
  rewrite (node_keys_cons _ _ _ _ Ha). cbn [length]. f_equal.
  apply IH. intros j Hj. apply Hl, elem_of_cons. auto.
Qed.

Lemma unless_head_last sl lv :
  skiplist_inv compare_ sl lv ->
  forall d : Decision (last (head_ sl :: lv 0%nat) = Some (head_ sl)),
    (if d then None else last (head_ sl :: lv 0%nat)) = last (lv 0%nat).
Proof.
  intros Hinv. pose proof (inv_head _ _ _ Hinv 0%nat level0_valid) as Hh.
  destruct (lv 0%nat) as [| j l] using rev_ind.
  - cbn. intros [| Hne]; [reflexivity | congruence].
  - clear IHl. rewrite app_comm_cons, !last_snoc.
    intros [Ej | _]; [| reflexivity].
    exfalso. injection Ej as ->. apply Hh.
    apply elem_of_app. right. apply elem_of_cons. auto.
Qed.

(** [Seek(target)] positions the iterator at the first entry whose key is
    not below [target]: on a list built by inserting pairwise distinct keys
    [ks], the keys of level 0, which are [ks] in ascending order, split
    into those below [target] and the others, and the iterator is at the
    first of the others, or not valid when there is none. *)
Theorem Seek_first_not_below
  (key0 : Key) (rnd0 : Random) (ks : list Key) (fuel : nat) (target : Key) :
  distinct_keys compare_ ks ->
  (kMaxHeight * (2 + length ks) <= fuel)%nat ->
  exists sl it (lo hi : list Key),
    InsertAll compare_ Random_Next fuel (SkipList.SkipList key0 rnd0) ks = Some sl
    /\ Iterator_Seek compare_ fuel sl Iterator_new target = Some it
    /\ level_keys fuel sl 0 = Some (lo ++ hi)
    /\ StronglySorted (key_lt compare_) (lo ++ hi)
    /\ lo ++ hi ≡ₚ ks
    /\ Forall (fun a => compare_ a target < 0) lo
    /\ Forall (fun a => 0 <= compare_ a target) hi
    /\ Iterator_key sl it = head hi
    /\ (Valid it = true <-> hi <> []).
Proof.
  intros Hdist Hfuel.
  destruct (InsertAll_built key0 rnd0 ks fuel Hdist Hfuel)
    as (sl & lv & HIA & Hinv & Hf & Hlen & Hperm & Hkeys & Hsorted).
  pose proof (inv_sorted _ _ _ Hinv 0%nat level0_valid) as Hs.
  pose proof (take_below_Forall (nodes sl) target (lv 0%nat)) as Htb.
  pose proof (drop_below_Forall (nodes sl) target (lv 0%nat) Hs) as Hdb.
  pose proof (take_drop_below (nodes sl) target (lv 0%nat)) as Htd.
  rewrite Forall_forall in Htb, Hdb.
  exists sl, {| node_ := first_ptr (drop_below compare_ (nodes sl) target (lv 0%nat)) |},
    (node_keys (nodes sl) (take_below compare_ (nodes sl) target (lv 0%nat))),
    (node_keys (nodes sl) (drop_below compare_ (nodes sl) target (lv 0%nat))).
  rewrite <- node_keys_app, Htd.
  split; [exact HIA |]. split.
  { unfold Iterator_Seek.
    rewrite (FindGreaterOrEqual_spec sl lv Hinv target fuel None Hf). reflexivity. }
  split; [exact Hkeys |]. split; [exact Hsorted |]. split; [exact Hperm |].
  split; [| split; [| split]].
  - apply Forall_forall. intros a Ha. apply list_elem_of_omap in Ha as (i & Hi & Hia).
    specialize (Htb i Hi). unfold is_below in Htb. rewrite Hia in Htb.
    apply Z.ltb_lt, Htb.
  - apply Forall_forall. intros a Ha. apply list_elem_of_omap in Ha as (i & Hi & Hia).
    specialize (Hdb i Hi). unfold is_below in Hdb. rewrite Hia in Hdb.
    apply Z.ltb_ge, Hdb.
  - apply (node_keys_head sl lv Hinv). intros i Hi. eapply drop_below_subseteq, Hi.
  - destruct (drop_below compare_ (nodes sl) target (lv 0%nat)) as [| i rest] eqn:Ed.
    + cbn. split; [discriminate | congruence].
    + destruct (level0_key sl lv Hinv i) as [a Ha].
      { rewrite <- Htd. apply elem_of_app. right. apply elem_of_cons. auto. }
      rewrite (node_keys_cons _ _ _ _ Ha). cbn. split; [discriminate | reflexivity].
Qed.

(** The forward loop visits every key once, in ascending order: on a list
    built by inserting pairwise distinct keys [ks], [SeekToFirst] followed
    by [Next] while [Valid()] returns after [length ks] entries, and the
    keys met are [ks] sorted by the comparator. *)
Theorem scan_forward_sorted
  (key0 : Key) (rnd0 : Random) (ks : list Key) (fuel : nat) :
  distinct_keys compare_ ks ->
  (kMaxHeight * (2 + length ks) <= fuel)%nat ->
  exists sl it keys0,
    InsertAll compare_ Random_Next fuel (SkipList.SkipList key0 rnd0) ks = Some sl
    /\ Iterator_SeekToFirst sl Iterator_new = Some it
    /\ scan_forward (length ks) sl it = Some keys0
    /\ StronglySorted (key_lt compare_) keys0
    /\ keys0 ≡ₚ ks.
Proof.
  intros Hdist Hfuel.
  destruct (InsertAll_built key0 rnd0 ks fuel Hdist Hfuel)
    as (sl & lv & HIA & Hinv & Hf & Hlen & Hperm & Hkeys & Hsorted).
  pose proof (inv_chain _ _ _ Hinv 0%nat level0_valid) as Hc.
  exists sl, {| node_ := first_ptr (lv 0%nat) |}, (node_keys (nodes sl) (lv 0%nat)).
  split; [exact HIA |]. split.
  { unfold Iterator_SeekToFirst. rewrite (chain_next _ _ _ _ Hc). reflexivity. }
  split; [| split; [exact Hsorted | exact Hperm]].
  apply (scan_forward_level0 sl lv Hinv (lv 0%nat) []); [reflexivity |].
  rewrite <- (node_keys_length sl lv (lv 0%nat) Hinv) by auto.
  rewrite Hperm. reflexivity.
Qed.

(** The backward loop visits every key once, in descending order:
    [SeekToLast] followed by [Prev] while [Valid()] meets the keys the
    forward loop meets, in the reverse order. *)
Theorem scan_backward_reversed
  (key0 : Key) (rnd0 : Random) (ks : list Key) (fuel : nat) :
  distinct_keys compare_ ks ->
  (kMaxHeight * (2 + length ks) <= fuel)%nat ->
  exists sl first last keys0,
    InsertAll compare_ Random_Next fuel (SkipList.SkipList key0 rnd0) ks = Some sl
    /\ Iterator_SeekToFirst sl Iterator_new = Some first
    /\ scan_forward (length ks) sl first = Some keys0
    /\ Iterator_SeekToLast fuel sl Iterator_new = Some last
    /\ scan_backward compare_ fuel (length ks) sl last = Some (rev keys0)
    /\ StronglySorted (key_lt compare_) keys0
    /\ keys0 ≡ₚ ks.
Proof.
  intros Hdist Hfuel.
  destruct (InsertAll_built key0 rnd0 ks fuel Hdist Hfuel)
    as (sl & lv & HIA & Hinv & Hf & Hlen & Hperm & Hkeys & Hsorted).
  pose proof (inv_chain _ _ _ Hinv 0%nat level0_valid) as Hc.
  assert (Hn : length (lv 0%nat) = length ks).
  { rewrite <- (node_keys_length sl lv (lv 0%nat) Hinv) by auto.
    rewrite Hperm. reflexivity. }
  exists sl, {| node_ := first_ptr (lv 0%nat) |}, {| node_ := last (lv 0%nat) |},
    (node_keys (nodes sl) (lv 0%nat)).
  split; [exact HIA |]. split.
  { unfold Iterator_SeekToFirst. rewrite (chain_next _ _ _ _ Hc). reflexivity. }
  split.
  { apply (scan_forward_level0 sl lv Hinv (lv 0%nat) []); [reflexivity | lia]. }
  split.
  { unfold Iterator_SeekToLast. rewrite (FindLast_spec sl lv Hinv fuel Hf).
    cbn [mbind option_bind]. do 2 f_equal. apply (unless_head_last sl lv Hinv). }
  split; [| split; [exact Hsorted | exact Hperm]].
  apply (scan_backward_level0 sl lv fuel Hinv Hf (lv 0%nat) []);
    [rewrite app_nil_r; reflexivity | lia].
Qed.

(** [Prev] undoes [Next] and [Next] undoes [Prev]: from any state an
    iterator reaches on a list built by inserting pairwise distinct keys,
    a [Next] that lands on an entry followed by [Prev], and a [Prev] that
    lands on an entry followed by [Next], bring the iterator back to where
    it was. *)
Theorem Prev_undoes_Next
  (key0 : Key) (rnd0 : Random) (ks : list Key) (fuel : nat) :
  distinct_keys compare_ ks ->
  (kMaxHeight * (2 + length ks) <= fuel)%nat ->
  exists sl,
    InsertAll compare_ Random_Next fuel (SkipList.SkipList key0 rnd0) ks = Some sl
    /\ forall ops it it',
         Iterator_run compare_ fuel sl Iterator_new ops = Some it ->
         Valid it' = true ->
         (Iterator_Next sl it = Some it' ->
          Iterator_Prev compare_ fuel sl it' = Some it)
         /\ (Iterator_Prev compare_ fuel sl it = Some it' ->
             Iterator_Next sl it' = Some it).
Proof.
  intros Hdist Hfuel.
  destruct (InsertAll_built key0 rnd0 ks fuel Hdist Hfuel)
    as (sl & lv & HIA & Hinv & Hf & Hlen & Hperm & Hkeys & Hsorted).
  pose proof (inv_chain _ _ _ Hinv 0%nat level0_valid) as Hc.
  exists sl. split; [exact HIA |]. intros ops [n] [n'] Hrun Hv'.
  assert (Hpos : positioned lv {| node_ := n |}).
  { eapply (Iterator_run_ok sl lv fuel Hinv Hf); [| exact Hrun]. exact I. }
  unfold positioned in Hpos. cbn [node_] in Hpos.
  unfold Valid in Hv'. cbn [node_] in Hv'.
  destruct n' as [j |]; [clear Hv' | discriminate].
  split.
  - unfold Iterator_Next. cbn [Valid node_].
    destruct n as [i |]; [| discriminate].
    apply list_elem_of_split in Hpos as (l1 & l2 & E).
    rewrite E in Hc.
    rewrite (chain_next_last _ _ _ (head_ sl :: l1) i l2 Hc).
    cbn [mbind option_bind]. intros H. injection H as H.
    destruct l2 as [| j' l2]; [discriminate |]. cbn in H. injection H as ->.
    rewrite (Iterator_Prev_level0 sl lv fuel Hinv Hf (l1 ++ [i]) j l2)
      by (rewrite E, <- app_assoc; reflexivity).
    rewrite last_snoc. reflexivity.
  - destruct n as [i |]; [| unfold Iterator_Prev; cbn; discriminate].
    apply list_elem_of_split in Hpos as (l1 & l2 & E).
    rewrite (Iterator_Prev_level0 sl lv fuel Hinv Hf l1 i l2 E).
    intros H. injection H as H.
    destruct l1 as [| j' l1 _] using rev_ind; [discriminate |].
    rewrite last_snoc in H. injection H as ->.
    unfold Iterator_Next. cbn [Valid node_].
    rewrite E, <- app_assoc in Hc. cbn [app] in Hc.
    rewrite (chain_next_last _ _ _ (head_ sl :: l1) j (i :: l2) Hc).
    reflexivity.
Qed.

(** [SeekToFirst] and [SeekToLast] leave the iterator valid exactly when
    the list is not empty, at the least and at the greatest key. *)
Theorem SeekToFirst_SeekToLast
  (key0 : Key) (rnd0 : Random) (ks : list Key) (fuel : nat) :
  distinct_keys compare_ ks ->
  (kMaxHeight * (2 + length ks) <= fuel)%nat ->
  exists sl first last keys0,
    InsertAll compare_ Random_Next fuel (SkipList.SkipList key0 rnd0) ks = Some sl
    /\ level_keys fuel sl 0 = Some keys0
    /\ StronglySorted (key_lt compare_) keys0
    /\ keys0 ≡ₚ ks
    /\ Iterator_SeekToFirst sl Iterator_new = Some first
    /\ Iterator_SeekToLast fuel sl Iterator_new = Some last
    /\ (Valid first = true <-> ks <> [])
    /\ (Valid last = true <-> ks <> [])
    /\ Iterator_key sl first = head keys0
    /\ Iterator_key sl last = list.last keys0.
Proof.
  intros Hdist Hfuel.
  destruct (InsertAll_built key0 rnd0 ks fuel Hdist Hfuel)
    as (sl & lv & HIA & Hinv & Hf & Hlen & Hperm & Hkeys & Hsorted).
  pose proof (inv_chain _ _ _ Hinv 0%nat level0_valid) as Hc.
  assert (Hn : length (lv 0%nat) = length ks).
  { rewrite <- (node_keys_length sl lv (lv 0%nat) Hinv) by auto.
    rewrite Hperm. reflexivity. }
  assert (Hne : ks <> [] <-> lv 0%nat <> []).
  { destruct ks, (lv 0%nat); cbn in Hn; split; intros; congruence. }
  exists sl, {| node_ := first_ptr (lv 0%nat) |}, {| node_ := last (lv 0%nat) |},
    (node_keys (nodes sl) (lv 0%nat)).
  split; [exact HIA |]. split; [exact Hkeys |]. split; [exact Hsorted |].
  split; [exact Hperm |]. split.
  { unfold Iterator_SeekToFirst. rewrite (chain_next _ _ _ _ Hc). reflexivity. }
  split.
  { unfold Iterator_SeekToLast. rewrite (FindLast_spec sl lv Hinv fuel Hf).
    cbn [mbind option_bind]. do 2 f_equal. apply (unless_head_last sl lv Hinv). }
  rewrite !Hne. unfold Valid. cbn [node_].
  split; [| split; [| split]].
  - destruct (lv 0%nat); cbn; split; congruence.
  - destruct (lv 0%nat) as [| j l _] using rev_ind; [cbn; split; congruence |].
    rewrite last_snoc. split; [intros _ E; destruct l; discriminate | reflexivity].
  - apply (node_keys_head sl lv Hinv). auto.
  - assert (Hshape : lv 0%nat = [] \/ exists l j, lv 0%nat = l ++ [j])
      by (destruct (lv 0%nat) as [| j l _] using rev_ind; eauto).
    destruct Hshape as [E0 | (l & j & E0)]; [rewrite E0; reflexivity |].
    destruct (level0_key sl lv Hinv j) as [a Ha].
    { rewrite E0. apply elem_of_app. right. apply elem_of_cons. auto. }
    rewrite E0, node_keys_app, (node_keys_cons _ _ _ _ Ha). cbn [node_keys omap list_omap].
    rewrite !last_snoc. apply Iterator_key_node, Ha.
Qed.

(** ** db/skiplist.h: what [Insert] refuses, and what it leaves alone *)

(** [Insert] of a key that compares equal to an entry trips its assertion:
    on a list built by inserting pairwise distinct keys [ks], for a key [k]
    comparator-equal to one of them, the search of [Insert] ends at a node
    whose key is comparator-equal to [k], and [Insert] does not return. *)
Theorem Insert_duplicate_asserts
  (key0 : Key) (rnd0 : Random) (ks : list Key) (fuel : nat) (k : Key) :
  distinct_keys compare_ ks ->
  (kMaxHeight * (2 + length ks) <= fuel)%nat ->
  Exists (fun k' => compare_ k k' = 0) ks ->
  exists sl i nd prev,
    InsertAll compare_ Random_Next fuel (SkipList.SkipList key0 rnd0) ks = Some sl
    /\ FindGreaterOrEqual compare_ fuel sl k (Some (replicate kMaxHeight None))
       = Some (Some i, prev)
    /\ nodes sl !! i = Some nd
    /\ Equal compare_ k (key nd) = true
    /\ Insert compare_ Random_Next fuel sl k = None.
Proof.
  intros Hdist Hfuel Hex.
  destruct (InsertAll_built key0 rnd0 ks fuel Hdist Hfuel)
    as (sl & lv & HIA & Hinv & Hf & Hlen & Hperm & Hkeys & Hsorted).
  destruct (Contains_spec sl lv k fuel Hinv Hf) as (b & Hb & Hiff).
  assert (Hbt : b = true).
  { apply Hiff. apply Exists_exists in Hex as (a & Ha & E).
    apply Exists_exists. exists a. split; [rewrite Hperm; exact Ha | exact E]. }
  subst b. unfold Contains in Hb.
  rewrite (FindGreaterOrEqual_spec sl lv Hinv k fuel None Hf) in Hb.
  cbn [mbind option_bind fmap option_fmap option_map] in Hb.
  destruct (first_ptr (drop_below compare_ (nodes sl) k (lv 0%nat))) as [i |] eqn:Ei;
    [| discriminate].
  destruct (nodes sl !! i) as [nd |] eqn:End; [| discriminate].
  cbn in Hb. injection Hb as Hb.
  exists sl, i, nd. eexists. split; [exact HIA |].
  split.
  { rewrite (FindGreaterOrEqual_spec sl lv Hinv k fuel _ Hf), Ei. reflexivity. }
  split; [exact End |]. split; [exact Hb |].
  unfold Insert. rewrite (FindGreaterOrEqual_spec sl lv Hinv k fuel _ Hf), Ei.
  cbn [mbind option_bind fmap option_fmap option_map]. rewrite End.
  cbn [mbind option_bind]. rewrite Hb. reflexivity.
Qed.

(** [RandomHeight] keeps to its assertions for every generator: the height
    is at least 1 and at most [kMaxHeight]; it is [kMaxHeight] when every
    draw is a multiple of [kBranching], and 1, after one draw, when the
    first draw is not. *)
Theorem RandomHeight_asserts_hold (rnd : Random) :
  (1 <= fst (RandomHeight Random_Next rnd) <= kMaxHeight)%nat
  /\ ((forall r, fst (Random_Next r) mod kBranching = 0) ->
      fst (RandomHeight Random_Next rnd) = kMaxHeight)
  /\ (fst (Random_Next rnd) mod kBranching <> 0 ->
      RandomHeight Random_Next rnd = (1%nat, snd (Random_Next rnd))).
Proof.
  split; [apply RandomHeight_range |]. split.
  - intros Hall. unfold RandomHeight. cbv zeta.
    assert (G : forall n height r, (kMaxHeight - height <= n)%nat ->
              (height <= kMaxHeight)%nat ->
              fst (RandomHeight_loop Random_Next height r) = kMaxHeight).
    { induction n as [| n IH]; intros height r Hn Hh;
        rewrite RandomHeight_loop_equation_1;
        destruct (lt_dec height kMaxHeight) as [Hlt | Hge]; try (cbn; lia).
      cbv zeta. rewrite Hall, Z.eqb_refl. apply IH; lia. }
    apply (G kMaxHeight); unfold kMaxHeight; lia.
  - intros Hne. unfold RandomHeight. cbv zeta.
    rewrite RandomHeight_loop_equation_1.
    destruct (lt_dec 1 kMaxHeight) as [_ | Hge]; [| unfold kMaxHeight in Hge; lia].
    cbv zeta. destruct (Z.eqb_spec (fst (Random_Next rnd) mod kBranching) 0);
      [contradiction | reflexivity].
Qed.

Lemma nodes_kept_refl ns : nodes_kept ns ns.
Proof. intros j nd H. eauto. Qed.

Lemma nodes_kept_trans ns1 ns2 ns3 :
  nodes_kept ns1 ns2 -> nodes_kept ns2 ns3 -> nodes_kept ns1 ns3.
Proof.
  intros H12 H23 j nd H. destruct (H12 j nd H) as (nd2 & H2 & Hk2 & Hl2).
  destruct (H23 j nd2 H2) as (nd3 & H3 & Hk3 & Hl3).
  exists nd3. split; [exact H3 |]. split; congruence.
Qed.

Lemma SetNext_kept ns x n v ns' :
  SetNext ns x n v = Some ns' -> nodes_kept ns ns' /\ length ns' = length ns.
Proof.
  destruct x as [i |]; [| discriminate]. intros H.
  apply SetNext_Some in H as (nd & Hi & Hn & ->).
  split; [| apply length_insert].
  intros j ndj Hj. destruct (decide (j = i)) as [-> | Hne].
  - rewrite Hi in Hj. injection Hj as <-.
    eexists. split; [apply list_lookup_insert_eq; eapply lookup_lt_Some, Hi |].
    cbn. split; [reflexivity | apply length_insert].
  - exists ndj. rewrite list_lookup_insert_ne by auto. auto.
Qed.

Lemma Insert_link_kept x prev n : forall i ns ns',
  Insert_link ns x prev i n = Some ns' ->
  nodes_kept ns ns' /\ length ns' = length ns.
Proof.
  induction n as [| n IH]; intros i ns ns'; cbn [Insert_link].
  - intros [= <-]. split; [apply nodes_kept_refl | reflexivity].
  - destruct (prev !! i) as [p |]; cbn [mbind option_bind]; [| discriminate].
    destruct (NoBarrier_Next ns p i) as [succ |]; cbn [mbind option_bind];
      [| discriminate].
    destruct (NoBarrier_SetNext ns x i succ) as [ns1 |] eqn:E1;
      cbn [mbind option_bind]; [| discriminate].
    destruct (SetNext ns1 p i x) as [ns2 |] eqn:E2;
      cbn [mbind option_bind]; [| discriminate].
    intros H. apply IH in H as [H3 L3].
    apply SetNext_kept in E1 as [H1 L1]. apply SetNext_kept in E2 as [H2 L2].
    split; [| congruence].
    eapply nodes_kept_trans; [exact H1 |]. eapply nodes_kept_trans; eassumption.
Qed.

(** [Insert] keeps the nodes: when it returns, the head is the same node,
    the arena holds one node more, every node that was there is still
    there with its key and its height (only links have changed), the new
    node holds the key inserted, with the height [RandomHeight] drew, and
    [max_height_] has not gone down. *)
Theorem Insert_keeps_nodes
  (fuel : nat) (sl : SkipList.t Key Random) (k : Key) (sl' : SkipList.t Key Random) :
  Insert compare_ Random_Next fuel sl k = Some sl' ->
  head_ sl' = head_ sl
  /\ length (nodes sl') = S (length (nodes sl))
  /\ nodes_kept (nodes sl) (nodes sl')
  /\ (exists nd, nodes sl' !! length (nodes sl) = Some nd
                 /\ key nd = k
                 /\ length (next_ nd) = fst (RandomHeight Random_Next (rnd_ sl)))
  /\ rnd_ sl' = snd (RandomHeight Random_Next (rnd_ sl))
  /\ GetMaxHeight sl'
     = Nat.max (GetMaxHeight sl) (fst (RandomHeight Random_Next (rnd_ sl))).
Proof.
  unfold Insert.
  destruct (FindGreaterOrEqual compare_ fuel sl k _) as [[x [prev |]] |];
    cbn [mbind option_bind]; try discriminate.
  destruct (match x with None => Some true | Some i => _ end) as [holds |];
    cbn [mbind option_bind]; [| discriminate].
  destruct (negb holds); [discriminate |].
  destruct (RandomHeight Random_Next (rnd_ sl)) as [height rnd'].
  unfold NewNode. cbn [fst snd].
  match goal with
  | |- context [Insert_link ?ns0 ?x0 ?prev0 0 height] =>
    destruct (Insert_link ns0 x0 prev0 0 height) as [ns' |] eqn:E
  end; cbn [mbind option_bind]; [| discriminate].
  intros H. injection H as <-. cbn [head_ nodes rnd_ max_height_ GetMaxHeight].
  apply Insert_link_kept in E as [Hk Hl].
  rewrite length_app in Hl. cbn in Hl.
  split; [reflexivity |]. split; [lia |]. split.
  - intros j nd Hj. apply (Hk j nd). apply lookup_app_l_Some, Hj.
  - split.
    + destruct (Hk (length (nodes sl)) (mkNode k (replicate height None)))
        as (nd' & H1 & H2 & H3).
      { rewrite lookup_app_r by lia. rewrite Nat.sub_diag. reflexivity. }
      exists nd'. cbn in H2, H3. rewrite length_replicate in H3. auto.
    + split; [reflexivity |].
      unfold GetMaxHeight. destruct (Nat.ltb_spec (max_height_ sl) height); lia.
Qed.

(** ** db/skiplist.h: the levels of a list *)

Lemma sorted_subset_sublist (l2 : list Key) : forall l1 : list Key,
  StronglySorted (key_lt compare_) l1 -> StronglySorted (key_lt compare_) l2 ->
  (forall a, a ∈ l1 -> a ∈ l2) -> sublist l1 l2.
Proof.
  assert (Hirr : forall a, ~ key_lt compare_ a a).
  { intros a H. unfold key_lt in H. rewrite cmp_refl in H. lia. }
  induction l2 as [| b l2 IH]; intros l1 H1 H2 Hsub.
  - destruct l1 as [| a l1]; [constructor |].
    specialize (Hsub a ltac:(apply elem_of_cons; auto)). inversion Hsub.
  - destruct l1 as [| a l1]; [apply sublist_nil_l |].
    apply StronglySorted_cons in H1 as [Ha H1].
    apply StronglySorted_cons in H2 as [Hb H2].
    rewrite Forall_forall in Ha, Hb.
    assert (Hrest : forall c, c ∈ l1 -> c ∈ l2).
    { intros c Hx. specialize (Ha c Hx).
      pose proof (Hsub c ltac:(apply elem_of_cons; auto)) as Hx2.
      apply elem_of_cons in Hx2 as [-> | Hx2]; [| exact Hx2].
      exfalso.
      pose proof (Hsub a ltac:(apply elem_of_cons; auto)) as Ha2.
      apply elem_of_cons in Ha2 as [-> | Ha2]; [exact (Hirr _ Ha) |].
      exact (Hirr _ (cmp_trans _ Hcmp _ _ _ (Hb a Ha2) Ha)). }
    pose proof (Hsub a ltac:(apply elem_of_cons; auto)) as Ha2.
    apply elem_of_cons in Ha2 as [-> | Ha2].
    + apply sublist_skip, IH; assumption.
    + apply sublist_cons, IH; [| assumption |].
      * apply StronglySorted_cons. rewrite Forall_forall. auto.
      * intros c Hx. apply elem_of_cons in Hx as [-> | Hx]; auto.
Qed.

(** The levels nest: on a list built by inserting pairwise distinct keys,
    the keys met on level [L + 1] are met on level [L], in the same order
    (they form a sublist), and the levels from [GetMaxHeight()] up are
    empty. *)
Theorem levels_nest
  (key0 : Key) (rnd0 : Random) (ks : list Key) (fuel : nat) :
  distinct_keys compare_ ks ->
  (kMaxHeight * (2 + length ks) <= fuel)%nat ->
  exists sl,
    InsertAll compare_ Random_Next fuel (SkipList.SkipList key0 rnd0) ks = Some sl
    /\ (1 <= GetMaxHeight sl <= kMaxHeight)%nat
    /\ forall L, (S L < kMaxHeight)%nat ->
         exists lower upper,
           level_keys fuel sl L = Some lower
           /\ level_keys fuel sl (S L) = Some upper
           /\ sublist upper lower
           /\ ((GetMaxHeight sl <= S L)%nat -> upper = []).
Proof.
  intros Hdist Hfuel.
  destruct (InsertAll_built key0 rnd0 ks fuel Hdist Hfuel)
    as (sl & lv & HIA & Hinv & Hf & Hlen & Hperm & Hkeys & Hsorted).
  exists sl. split; [exact HIA |]. split; [apply (inv_height _ _ _ Hinv) |].
  intros L HL.
  destruct (level_keys_spec sl lv fuel L Hinv ltac:(lia) Hlen) as [E1 S1].
  destruct (level_keys_spec sl lv fuel (S L) Hinv HL Hlen) as [E2 S2].
  exists (node_keys (nodes sl) (lv L)), (node_keys (nodes sl) (lv (S L))).
  split; [exact E1 |]. split; [exact E2 |]. split.
  - apply sorted_subset_sublist; [exact S2 | exact S1 |].
    intros a Ha. apply list_elem_of_omap in Ha as (i & Hi & Hia).
    apply list_elem_of_omap. exists i. split; [| exact Hia].
    apply (inv_subset _ _ _ Hinv L HL i Hi).
  - intros Htop. unfold GetMaxHeight in Htop.
    rewrite (inv_top _ _ _ Hinv (S L)) by lia. reflexivity.
Qed.

(** ** db/skiplist.h: [FindLessThan] and [FindLast] as documented *)

(** On a list built by inserting pairwise distinct keys [ks],
    [FindLessThan(k)] returns the node that holds the greatest key below
    [k], or the head when no key is below [k]; [FindLast()] returns the
    node that holds the greatest key, or the head when the list is
    empty. *)
Theorem FindLessThan_FindLast_documented
  (key0 : Key) (rnd0 : Random) (ks : list Key) (fuel : nat) (k : Key) :
  distinct_keys compare_ ks ->
  (kMaxHeight * (2 + length ks) <= fuel)%nat ->
  exists sl p q,
    InsertAll compare_ Random_Next fuel (SkipList.SkipList key0 rnd0) ks = Some sl
    /\ FindLessThan compare_ fuel sl k = Some (Some p)
    /\ FindLast fuel sl = Some (Some q)
    /\ (p = head_ sl <-> Forall (fun a => 0 <= compare_ a k) ks)
    /\ (p <> head_ sl ->
        exists a, node_key (nodes sl) p = Some a /\ a ∈ ks /\ compare_ a k < 0
                  /\ Forall (fun b => compare_ b k < 0 -> compare_ b a <= 0) ks)
    /\ (q = head_ sl <-> ks = [])
    /\ (q <> head_ sl ->
        exists a, node_key (nodes sl) q = Some a /\ a ∈ ks
                  /\ Forall (fun b => compare_ b a <= 0) ks).
Proof.
  intros Hdist Hfuel.
  destruct (InsertAll_built key0 rnd0 ks fuel Hdist Hfuel)
    as (sl & lv & HIA & Hinv & Hf & Hlen & Hperm & Hkeys & Hsorted).
  pose proof (inv_sorted _ _ _ Hinv 0%nat level0_valid) as Hs.
  pose proof (inv_head _ _ _ Hinv 0%nat level0_valid) as Hh.
  pose proof (take_below_Forall (nodes sl) k (lv 0%nat)) as Htb.
  pose proof (drop_below_Forall (nodes sl) k (lv 0%nat) Hs) as Hdb.
  pose proof (take_drop_below (nodes sl) k (lv 0%nat)) as Htd.
  rewrite Forall_forall in Htb, Hdb.
  (* the keys of [ks] are those of the nodes of level 0 *)
  assert (Hks : forall b, b ∈ ks <->
            exists j, j ∈ lv 0%nat /\ node_key (nodes sl) j = Some b).
  { intros b. rewrite <- Hperm. apply list_elem_of_omap. }
  (* the last node of a stretch of level 0 holds its greatest key *)
  assert (Hmax : forall l1 i l2 a j b,
            lv 0%nat = l1 ++ i :: l2 -> node_key (nodes sl) i = Some a ->
            j ∈ l1 ++ [i] -> node_key (nodes sl) j = Some b -> compare_ b a <= 0).
  { intros l1 i l2 a j b E Ha Hj Hb. rewrite E in Hs.
    apply StronglySorted_app in Hs as (Hlt & _ & _).
    apply elem_of_app in Hj as [Hj | Hj].
    - destruct (Hlt j i Hj ltac:(apply elem_of_cons; auto)) as (x1 & x2 & H1 & H2 & H12).
      rewrite Hb in H1. rewrite Ha in H2. injection H1 as <-. injection H2 as <-. lia.
    - apply list_elem_of_singleton in Hj as ->. rewrite Ha in Hb. injection Hb as <-.
      rewrite cmp_refl. lia. }
  assert (Hshape : forall l : list nat, l = [] \/ exists l' j, l = l' ++ [j])
    by (intros l; destruct l as [| j l' _] using rev_ind; eauto).
  pose proof (FindLessThan_spec sl lv Hinv k fuel Hf) as HFT.
  pose proof (FindLast_spec sl lv Hinv fuel Hf) as HFL.
  unfold stop_at in HFT.
  destruct (Hshape (take_below compare_ (nodes sl) k (lv 0%nat)))
    as [Et | (t' & p & Et)];
    destruct (Hshape (lv 0%nat)) as [El | (l' & q & El)];
    rewrite Et in HFT; rewrite El in HFL;
    rewrite ?app_comm_cons, ?last_snoc in HFT;
    rewrite ?app_comm_cons, ?last_snoc in HFL; cbn [last] in HFT, HFL.
  - (* the list is empty *)
    exists sl, (head_ sl), (head_ sl). split; [exact HIA |].
    split; [exact HFT |]. split; [exact HFL |].
    assert (Hnil : ks = []).
    { apply Permutation_nil_r. rewrite <- Hperm, El. reflexivity. }
    subst ks. repeat split; auto; try contradiction.
  - (* no key is below [k] *)
    exists sl, (head_ sl), q. split; [exact HIA |].
    split; [exact HFT |]. split; [exact HFL |].
    assert (Hq : q ∈ lv 0%nat)
      by (rewrite El; apply elem_of_app; right; apply elem_of_cons; auto).
    destruct (level0_key sl lv Hinv q Hq) as [a Ha].
    split; [| split; [intros; contradiction | split]].
    + split; [| reflexivity]. intros _. apply Forall_forall. intros b Hb.
      apply Hks in Hb as (j & Hj & Hjb).
      rewrite <- Htd, Et in Hj. cbn [app] in Hj.
      specialize (Hdb j Hj). unfold is_below in Hdb. rewrite Hjb in Hdb.
      apply Z.ltb_ge, Hdb.
    + split; [intros ->; contradiction |].
      intros ->. apply Permutation_nil_r in Hperm.
      rewrite El, node_keys_app, (node_keys_cons _ _ _ _ Ha) in Hperm.
      destruct (node_keys (nodes sl) l'); discriminate.
    + intros _. exists a. split; [exact Ha |]. split; [apply Hks; eauto |].
      apply Forall_forall. intros b Hb. apply Hks in Hb as (j & Hj & Hjb).
      rewrite El in Hj. apply (Hmax l' q [] a j b); auto.
  - (* impossible: a node below [k] on an empty level *)
    exfalso. rewrite Et in Htd. rewrite El in Htd. apply (f_equal length) in Htd.
    rewrite !length_app in Htd. cbn in Htd. lia.
  - exists sl, p, q. split; [exact HIA |].
    split; [exact HFT |]. split; [exact HFL |].
    assert (Hp : p ∈ lv 0%nat).
    { rewrite <- Htd, Et. apply elem_of_app. left. apply elem_of_app. right.
      apply elem_of_cons. auto. }
    assert (Hq : q ∈ lv 0%nat)
      by (rewrite El; apply elem_of_app; right; apply elem_of_cons; auto).
    destruct (level0_key sl lv Hinv p Hp) as [a Ha].
    destruct (level0_key sl lv Hinv q Hq) as [c Hc].
    assert (Hpk : compare_ a k < 0).
    { specialize (Htb p). rewrite Et in Htb.
      specialize (Htb ltac:(apply elem_of_app; right; apply elem_of_cons; auto)).
      unfold is_below in Htb. rewrite Ha in Htb. apply Z.ltb_lt, Htb. }
    split; [| split; [| split]].
    + split; [intros ->; contradiction |]. intros Hall. exfalso.
      rewrite Forall_forall in Hall. specialize (Hall a ltac:(apply Hks; eauto)). lia.
    + intros _. exists a. split; [exact Ha |]. split; [apply Hks; eauto |].
      split; [exact Hpk |].
      apply Forall_forall. intros b Hb Hbk. apply Hks in Hb as (j & Hj & Hjb).
      rewrite <- Htd in Hj. apply elem_of_app in Hj as [Hj | Hj].
      * rewrite Et in Hj.
        apply (Hmax t' p (drop_below compare_ (nodes sl) k (lv 0%nat)) a j b); auto.
        rewrite <- Htd at 1. rewrite Et, <- app_assoc. reflexivity.
      * specialize (Hdb j Hj). unfold is_below in Hdb. rewrite Hjb in Hdb.
        apply Z.ltb_ge in Hdb. lia.
    + split; [intros ->; contradiction |].
      intros ->. apply Permutation_nil_r in Hperm.
      rewrite El, node_keys_app, (node_keys_cons _ _ _ _ Hc) in Hperm.
      destruct (node_keys (nodes sl) l'); discriminate.
    + intros _. exists c. split; [exact Hc |]. split; [apply Hks; eauto |].
      apply Forall_forall. intros b Hb. apply Hks in Hb as (j & Hj & Hjb).
      rewrite El in Hj. apply (Hmax l' q [] c j b); auto.
Qed.

End SkipListProofs.

(** ** db/skiplist.h: the theorems at an instance *)

Lemma sample_compare_ok : Comparator_ok sample_compare.
Proof.
  split; unfold sample_compare; intros a b; [| intros c ..];
    repeat match goal with
           | |- context [?x <? ?y] => destruct (Z.ltb_spec x y)
           end; lia.
Qed.

Lemma sample_keys_distinct : distinct_keys sample_compare [5; 1; 4; 2; 3].
Proof. cbn. repeat split; repeat constructor; vm_compute; discriminate. Qed.

Lemma Insert_levels_ascending_witness :
  exists sl keys0,
    InsertAll sample_compare sample_Random_Next 200
      (SkipList.SkipList 0 3735928559) [5; 1; 4; 2; 3] = Some sl
    /\ level_keys 200 sl 0 = Some keys0
    /\ StronglySorted (key_lt sample_compare) keys0
    /\ keys0 ≡ₚ [5; 1; 4; 2; 3]
    /\ (forall L, (L < SkipList.kMaxHeight)%nat ->
          exists keysL, level_keys 200 sl L = Some keysL
                        /\ StronglySorted (key_lt sample_compare) keysL)
    /\ (forall k, Forall (fun k' => sample_compare k k' <> 0) [5; 1; 4; 2; 3] ->
          exists sl', SkipList.Insert sample_compare sample_Random_Next 200 sl k = Some sl'
            /\ forall L, (L < SkipList.kMaxHeight)%nat ->
                 exists keysL, level_keys 200 sl' L = Some keysL
                               /\ StronglySorted (key_lt sample_compare) keysL).
Proof.
  apply (Insert_levels_ascending sample_compare sample_Random_Next
           sample_compare_ok 0 3735928559 [5; 1; 4; 2; 3] 200).
  - exact sample_keys_distinct.
  - vm_compute. lia.
Defined.

Lemma Contains_iff_inserted_witness :
  exists sl,
    InsertAll sample_compare sample_Random_Next 200
      (SkipList.SkipList 0 3735928559) [5; 1; 4; 2; 3] = Some sl
    /\ forall k, exists b,
         SkipList.Contains sample_compare 200 sl k = Some b
         /\ (b = true <-> Exists (fun k' => sample_compare k k' = 0) [5; 1; 4; 2; 3]).
Proof.
  apply (Contains_iff_inserted sample_compare sample_Random_Next
           sample_compare_ok 0 3735928559 [5; 1; 4; 2; 3] 200).
  - exact sample_keys_distinct.
  - vm_compute. lia.
Defined.

Lemma Iterator_never_at_head_witness :
  exists sl,
    InsertAll sample_compare sample_Random_Next 200
      (SkipList.SkipList 0 3735928559) [5; 1; 4; 2; 3] = Some sl
    /\ forall ops it,
         Iterator_run sample_compare 200 sl SkipList.Iterator_new ops = Some it ->
         SkipList.node_ it <> Some (SkipList.head_ sl)
         /\ (SkipList.Valid it = true <->
             SkipList.node_ it <> None /\ SkipList.node_ it <> Some (SkipList.head_ sl))
         /\ forall op, Iterator_requires it op ->
              exists it', Iterator_step sample_compare 200 sl it op = Some it'.
Proof.
  apply (Iterator_never_at_head sample_compare sample_Random_Next
           sample_compare_ok 0 3735928559 [5; 1; 4; 2; 3] 200).
  - exact sample_keys_distinct.
  - vm_compute. lia.
Defined.

(** The scenarios of the specification, run on the model. *)

Example scenario_order :
  (sl ← sample_list [5; 1; 4; 2; 3]; level_keys 200 sl 0) = Some [1; 2; 3; 4; 5]
  /\ sample_iterate [5; 1; 4; 2; 3] [OpSeekToFirst] = Some (Some 1)
  /\ sample_iterate [5; 1; 4; 2; 3] [OpSeekToFirst; OpNext; OpNext; OpNext; OpNext]
     = Some (Some 5)
  /\ sample_iterate [5; 1; 4; 2; 3]
       [OpSeekToFirst; OpNext; OpNext; OpNext; OpNext; OpNext] = Some None.
Proof. vm_compute. repeat split; reflexivity. Qed.

Example scenario_contains :
  (sl ← sample_list [5; 1; 4; 2; 3]; SkipList.Contains sample_compare 200 sl 4)
  = Some true
  /\ (sl ← sample_list [5; 1; 4; 2; 3]; SkipList.Contains sample_compare 200 sl 6)
     = Some false.
Proof. vm_compute. split; reflexivity. Qed.

Example scenario_seek :
  sample_iterate [10; 20; 30] [OpSeek 15] = Some (Some 20)
  /\ sample_iterate [10; 20; 30] [OpSeek 30] = Some (Some 30)
  /\ sample_iterate [10; 20; 30] [OpSeek 31] = Some None.
Proof. vm_compute. repeat split; reflexivity. Qed.

Example scenario_prev :
  sample_iterate [10; 20; 30] [OpSeekToLast] = Some (Some 30)
  /\ sample_iterate [10; 20; 30] [OpSeekToLast; OpPrev] = Some (Some 20)
  /\ sample_iterate [10; 20; 30] [OpSeekToLast; OpPrev; OpPrev] = Some (Some 10)
  /\ sample_iterate [10; 20; 30] [OpSeekToLast; OpPrev; OpPrev; OpPrev] = Some None.
Proof. vm_compute. repeat split; reflexivity. Qed.

(** A duplicate key trips the assertion of [Insert]. *)
Example scenario_duplicate : sample_list [1; 2; 1] = None.
Proof. vm_compute. reflexivity. Qed.

(** ** db/skiplist.h: searches, loops and inserts at an instance *)

Lemma Seek_first_not_below_witness :
  exists sl it (lo hi : list Z),
    InsertAll sample_compare sample_Random_Next 200
      (SkipList.SkipList 0 3735928559) [5; 1; 4; 2; 3] = Some sl
    /\ SkipList.Iterator_Seek sample_compare 200 sl SkipList.Iterator_new 3 = Some it
    /\ level_keys 200 sl 0 = Some (lo ++ hi)
    /\ StronglySorted (key_lt sample_compare) (lo ++ hi)
    /\ lo ++ hi ≡ₚ [5; 1; 4; 2; 3]
    /\ Forall (fun a => sample_compare a 3 < 0) lo
    /\ Forall (fun a => 0 <= sample_compare a 3) hi
    /\ SkipList.Iterator_key sl it = head hi
    /\ (SkipList.Valid it = true <-> hi <> []).
Proof.
  apply (Seek_first_not_below sample_compare sample_Random_Next
           sample_compare_ok 0 3735928559 [5; 1; 4; 2; 3] 200 3).
  - exact sample_keys_distinct.
  - vm_compute. lia.
Defined.

Lemma scan_forward_sorted_witness :
  exists sl it keys0,
    InsertAll sample_compare sample_Random_Next 200
      (SkipList.SkipList 0 3735928559) [5; 1; 4; 2; 3] = Some sl
    /\ SkipList.Iterator_SeekToFirst sl SkipList.Iterator_new = Some it
    /\ scan_forward (length [5; 1; 4; 2; 3]) sl it = Some keys0
    /\ StronglySorted (key_lt sample_compare) keys0
    /\ keys0 ≡ₚ [5; 1; 4; 2; 3].
Proof.
  apply (scan_forward_sorted sample_compare sample_Random_Next
           sample_compare_ok 0 3735928559 [5; 1; 4; 2; 3] 200).
  - exact sample_keys_distinct.
  - vm_compute. lia.
Defined.

Lemma scan_backward_reversed_witness :
  exists sl first last keys0,
    InsertAll sample_compare sample_Random_Next 200
      (SkipList.SkipList 0 3735928559) [5; 1; 4; 2; 3] = Some sl
    /\ SkipList.Iterator_SeekToFirst sl SkipList.Iterator_new = Some first
    /\ scan_forward (length [5; 1; 4; 2; 3]) sl first = Some keys0
    /\ SkipList.Iterator_SeekToLast 200 sl SkipList.Iterator_new = Some last
    /\ scan_backward sample_compare 200 (length [5; 1; 4; 2; 3]) sl last
       = Some (rev keys0)
    /\ StronglySorted (key_lt sample_compare) keys0
    /\ keys0 ≡ₚ [5; 1; 4; 2; 3].
Proof.
  apply (scan_backward_reversed sample_compare sample_Random_Next
           sample_compare_ok 0 3735928559 [5; 1; 4; 2; 3] 200).
  - exact sample_keys_distinct.
  - vm_compute. lia.
Defined.

Lemma Prev_undoes_Next_witness :
  exists sl,
    InsertAll sample_compare sample_Random_Next 200
      (SkipList.SkipList 0 3735928559) [5; 1; 4; 2; 3] = Some sl
    /\ forall ops it it',
         Iterator_run sample_compare 200 sl SkipList.Iterator_new ops = Some it ->
         SkipList.Valid it' = true ->
         (SkipList.Iterator_Next sl it = Some it' ->
          SkipList.Iterator_Prev sample_compare 200 sl it' = Some it)
         /\ (SkipList.Iterator_Prev sample_compare 200 sl it = Some it' ->
             SkipList.Iterator_Next sl it' = Some it).
Proof.
  apply (Prev_undoes_Next sample_compare sample_Random_Next
           sample_compare_ok 0 3735928559 [5; 1; 4; 2; 3] 200).
  - exact sample_keys_distinct.
  - vm_compute. lia.
Defined.

Lemma SeekToFirst_SeekToLast_witness :
  exists sl first last keys0,
    InsertAll sample_compare sample_Random_Next 200
      (SkipList.SkipList 0 3735928559) [5; 1; 4; 2; 3] = Some sl
    /\ level_keys 200 sl 0 = Some keys0
    /\ StronglySorted (key_lt sample_compare) keys0
    /\ keys0 ≡ₚ [5; 1; 4; 2; 3]
    /\ SkipList.Iterator_SeekToFirst sl SkipList.Iterator_new = Some first
    /\ SkipList.Iterator_SeekToLast 200 sl SkipList.Iterator_new = Some last
    /\ (SkipList.Valid first = true <-> [5; 1; 4; 2; 3] <> [])
    /\ (SkipList.Valid last = true <-> [5; 1; 4; 2; 3] <> [])
    /\ SkipList.Iterator_key sl first = head keys0
    /\ SkipList.Iterator_key sl last = list.last keys0.
Proof.
  apply (SeekToFirst_SeekToLast sample_compare sample_Random_Next
           sample_compare_ok 0 3735928559 [5; 1; 4; 2; 3] 200).
  - exact sample_keys_distinct.
  - vm_compute. lia.
Defined.

Lemma Insert_duplicate_asserts_witness :
  exists sl i nd prev,
    InsertAll sample_compare sample_Random_Next 200
      (SkipList.SkipList 0 3735928559) [5; 1; 4; 2; 3] = Some sl
    /\ SkipList.FindGreaterOrEqual sample_compare 200 sl 4
         (Some (replicate SkipList.kMaxHeight None))
       = Some (Some i, prev)
    /\ SkipList.nodes sl !! i = Some nd
    /\ SkipList.Equal sample_compare 4 (SkipList.key nd) = true
    /\ SkipList.Insert sample_compare sample_Random_Next 200 sl 4 = None.
Proof.
  apply (Insert_duplicate_asserts sample_compare sample_Random_Next
           sample_compare_ok 0 3735928559 [5; 1; 4; 2; 3] 200 4).
  - exact sample_keys_distinct.
  - vm_compute. lia.
  - apply Exists_cons_tl, Exists_cons_tl, Exists_cons_hd. reflexivity.
Defined.

Lemma Insert_keeps_nodes_witness :
  SkipList.head_
    (SkipList.mk
       [SkipList.mkNode 0 (Some 1%nat :: replicate 11 None); SkipList.mkNode 5 [None]]
       0 1 1624420127)
  = SkipList.head_ (SkipList.SkipList 0 3735928559)
  /\ length (SkipList.nodes
               (SkipList.mk
                  [SkipList.mkNode 0 (Some 1%nat :: replicate 11 None);
                   SkipList.mkNode 5 [None]]
                  0 1 1624420127))
     = S (length (SkipList.nodes (SkipList.SkipList 0 3735928559)))
  /\ nodes_kept (SkipList.nodes (SkipList.SkipList 0 3735928559))
       (SkipList.nodes
          (SkipList.mk
             [SkipList.mkNode 0 (Some 1%nat :: replicate 11 None);
              SkipList.mkNode 5 [None]]
             0 1 1624420127))
  /\ (exists nd,
        SkipList.nodes
          (SkipList.mk
             [SkipList.mkNode 0 (Some 1%nat :: replicate 11 None);
              SkipList.mkNode 5 [None]]
             0 1 1624420127)
        !! length (SkipList.nodes (SkipList.SkipList 0 3735928559)) = Some nd
        /\ SkipList.key nd = 5
        /\ length (SkipList.next_ nd)
           = fst (SkipList.RandomHeight sample_Random_Next
                    (SkipList.rnd_ (SkipList.SkipList 0 3735928559))))
  /\ SkipList.rnd_
       (SkipList.mk
          [SkipList.mkNode 0 (Some 1%nat :: replicate 11 None); SkipList.mkNode 5 [None]]
          0 1 1624420127)
     = snd (SkipList.RandomHeight sample_Random_Next
              (SkipList.rnd_ (SkipList.SkipList 0 3735928559)))
  /\ SkipList.GetMaxHeight
       (SkipList.mk
          [SkipList.mkNode 0 (Some 1%nat :: replicate 11 None); SkipList.mkNode 5 [None]]
          0 1 1624420127)
     = Nat.max (SkipList.GetMaxHeight (SkipList.SkipList 0 3735928559))
         (fst (SkipList.RandomHeight sample_Random_Next
                 (SkipList.rnd_ (SkipList.SkipList 0 3735928559)))).
Proof.
  apply (Insert_keeps_nodes sample_compare sample_Random_Next 200
           (SkipList.SkipList 0 3735928559) 5).
  vm_compute. reflexivity.
Defined.

Lemma levels_nest_witness :
  exists sl,
    InsertAll sample_compare sample_Random_Next 200
      (SkipList.SkipList 0 3735928559) [5; 1; 4; 2; 3] = Some sl
    /\ (1 <= SkipList.GetMaxHeight sl <= SkipList.kMaxHeight)%nat
    /\ forall L, (S L < SkipList.kMaxHeight)%nat ->
         exists lower upper,
           level_keys 200 sl L = Some lower
           /\ level_keys 200 sl (S L) = Some upper
           /\ sublist upper lower
           /\ ((SkipList.GetMaxHeight sl <= S L)%nat -> upper = []).
Proof.
  apply (levels_nest sample_compare sample_Random_Next
           sample_compare_ok 0 3735928559 [5; 1; 4; 2; 3] 200).
  - exact sample_keys_distinct.
  - vm_compute. lia.
Defined.

(** The loops of a client, run on the model. *)
Example scenario_scan :
  (sl ← sample_list [5; 1; 4; 2; 3];
   it ← SkipList.Iterator_SeekToFirst sl SkipList.Iterator_new;
   scan_forward 5 sl it) = Some [1; 2; 3; 4; 5]
  /\ (sl ← sample_list [5; 1; 4; 2; 3];
      it ← SkipList.Iterator_SeekToLast 200 sl SkipList.Iterator_new;
      scan_backward sample_compare 200 5 sl it) = Some [5; 4; 3; 2; 1].
Proof. vm_compute. split; reflexivity. Qed.

Lemma FindLessThan_FindLast_documented_witness :
  exists sl p q,
    InsertAll sample_compare sample_Random_Next 200
      (SkipList.SkipList 0 3735928559) [5; 1; 4; 2; 3] = Some sl
    /\ SkipList.FindLessThan sample_compare 200 sl 4 = Some (Some p)
    /\ SkipList.FindLast 200 sl = Some (Some q)
    /\ (p = SkipList.head_ sl <-> Forall (fun a => 0 <= sample_compare a 4) [5; 1; 4; 2; 3])
    /\ (p <> SkipList.head_ sl ->
        exists a, node_key (SkipList.nodes sl) p = Some a /\ a ∈ [5; 1; 4; 2; 3]
                  /\ sample_compare a 4 < 0
                  /\ Forall (fun b => sample_compare b 4 < 0 -> sample_compare b a <= 0)
                       [5; 1; 4; 2; 3])
    /\ (q = SkipList.head_ sl <-> [5; 1; 4; 2; 3] = [])
    /\ (q <> SkipList.head_ sl ->
        exists a, node_key (SkipList.nodes sl) q = Some a /\ a ∈ [5; 1; 4; 2; 3]
                  /\ Forall (fun b => sample_compare b a <= 0) [5; 1; 4; 2; 3]).
Proof.
  apply (FindLessThan_FindLast_documented sample_compare sample_Random_Next
           sample_compare_ok 0 3735928559 [5; 1; 4; 2; 3] 200 4).
  - exact sample_keys_distinct.
  - vm_compute. lia.
Defined.
